(** * go-mysql-server: the type helpers, the INSERT analyzer rules, ST_AREA
      and the JSON document model, embedded and checked against their
      documented behaviour.

    Layout: one module per source unit.
    - [GoFloat]   : IEEE-754 binary64 as Go's [float64], and [strconv.ParseFloat]
    - [SqlType]   : sql/type.go ([CompareNulls], [ConvertToBool], [NumColumns],
                    [ErrIfMismatchedColumns])
    - [QueryInfo] : sql/expression/function/queryinfo.go (ROW_COUNT,
                    LAST_INSERT_ID, FOUND_ROWS)
    - [InsertRule]: analyzer rules setInsertColumns and resolveInsertRows and
                    their helpers
    - [StArea]    : the ST_AREA function expression
    - [VirtualColumn]: plan.VirtualColumnTable
    - [Engine]    : the query scenario of the engine tests
    - [Json]      : the JSON document type exercised by sql/types/json_test.go *)

From Stdlib Require Import ZArith Bool Ascii String List Sorted Lia.
From Stdlib Require Import SpecFloat Decimal DecimalString DecimalPos DecimalNat.
From stdpp Require Import base option list gmap strings.

#[local] Set Warnings "-register-all,-clear-no-such-hyp".
Local Open Scope Z_scope.

(* ===================================================================== *)
(** ** Go's float64 and strconv.ParseFloat                                *)
(* ===================================================================== *)
Module GoFloat.

(** A [float64] is an IEEE-754 binary64 datum: 53 bits of precision, the
    exponent of the infinities is 1024. *)
Definition float64 := spec_float.
Definition prec : Z := 53.
Definition emax : Z := 1024.

Definition f64_zero : float64 := S754_zero false.
Definition f64_eq (x y : float64) : bool := SFeqb x y.
Definition f64_lt (x y : float64) : bool := SFltb x y.
Definition f64_neg (x : float64) : float64 := SFopp x.
Definition f64_add (x y : float64) : float64 := SFadd prec emax x y.
Definition f64_sub (x y : float64) : float64 := SFsub prec emax x y.
Definition f64_mul (x y : float64) : float64 := SFmul prec emax x y.
Definition f64_div (x y : float64) : float64 := SFdiv prec emax x y.
(** The constant 2, canonical: 2^52 * 2^-51. *)
Definition f64_two : float64 := S754_finite false (Pos.pow 2 52) (-51).

(** Nearest-even rounding of the integer ratio [sign * num / den]
    ([den] positive): what a correctly rounded decimal conversion returns. *)
Definition round_ratio (neg : bool) (num den : Z) : float64 :=
  match num with
  | Z0 => S754_zero neg
  | _ =>
    let '(q, e, l) := SFdiv_core_binary prec emax num 0 den 0 in
    binary_round_aux prec emax neg q e l
  end.

(** Nearest-even rounding of [sign * m * 2^e]. *)
Definition round_scaled (neg : bool) (m e : Z) : float64 :=
  match m with
  | Zpos p => binary_round prec emax neg p e
  | _ => S754_zero neg
  end.

(** *** Scanning: strconv/atof.go *)

Definition byte_of (c : ascii) : Z := Z.of_N (N_of_ascii c).
(** [lower(c) = c | ('x' - 'X')] *)
Definition lower (c : ascii) : Z := Z.lor (byte_of c) 32.
Definition is_digit (c : ascii) : bool := (48 <=? byte_of c) && (byte_of c <=? 57).
Definition is_hex_letter (c : ascii) : bool := (97 <=? lower c) && (lower c <=? 102).
Definition is_char (c : ascii) (x : Z) : bool := byte_of c =? x.

(** commonPrefixLenIgnoreCase: [prefix] is lower case already. *)
Fixpoint commonPrefixLenIgnoreCase (s prefix : list ascii) : nat :=
  match s, prefix with
  | c :: s', p :: prefix' =>
    let c' := if (65 <=? byte_of c) && (byte_of c <=? 90) then byte_of c + 32 else byte_of c in
    if c' =? byte_of p then S (commonPrefixLenIgnoreCase s' prefix') else O
  | _, _ => O
  end.

Inductive special_value := SpInf (neg : bool) | SpNaN.

(** special: the strings inf, infinity (optionally signed) and nan;
    returns the value and the number of bytes consumed. *)
Definition special (s : list ascii) : option (special_value * nat) :=
  let inf_case (neg : bool) (nsign : nat) (t : list ascii) :=
    let n := commonPrefixLenIgnoreCase t (list_ascii_of_string "infinity") in
    let n := if (Nat.ltb 3 n) && (Nat.ltb n 8) then 3%nat else n in
    if (Nat.eqb n 3) || (Nat.eqb n 8) then Some (SpInf neg, (nsign + n)%nat) else None in
  match s with
  | [] => None
  | c :: t =>
    if is_char c 43 then inf_case false 1%nat t
    else if is_char c 45 then inf_case true 1%nat t
    else if is_char c 105 || is_char c 73 then inf_case false 0%nat s
    else if is_char c 110 || is_char c 78 then
      if Nat.eqb (commonPrefixLenIgnoreCase s (list_ascii_of_string "nan")) 3
      then Some (SpNaN, 3%nat) else None
    else None
  end.

(** The state of readFloat's digit loop. The mantissa is kept in full: the
    source keeps 19 digits and a [trunc] flag that only selects the slow
    path, which reads every digit again. *)
Record scan := mkScan {
  sawdot : bool; sawdigits : bool; nd : Z; dp : Z; mantissa : Z; underscores : bool }.

Fixpoint read_digits (hex : bool) (st : scan) (s : list ascii) : scan * list ascii :=
  match s with
  | [] => (st, [])
  | c :: s' =>
    if is_char c 95 then
      read_digits hex (mkScan (sawdot st) (sawdigits st) (nd st) (dp st) (mantissa st) true) s'
    else if is_char c 46 then
      if sawdot st then (st, s)
      else read_digits hex (mkScan true (sawdigits st) (nd st) (nd st) (mantissa st) (underscores st)) s'
    else if is_digit c then
      if is_char c 48 && (nd st =? 0) then
        read_digits hex (mkScan (sawdot st) true (nd st) (dp st - 1) (mantissa st) (underscores st)) s'
      else
        read_digits hex (mkScan (sawdot st) true (nd st + 1) (dp st)
                           (mantissa st * (if hex then 16 else 10) + (byte_of c - 48))
                           (underscores st)) s'
    else if hex && is_hex_letter c then
      read_digits hex (mkScan (sawdot st) true (nd st + 1) (dp st)
                         (mantissa st * 16 + (lower c - 97 + 10)) (underscores st)) s'
    else (st, s)
  end.

(** The exponent's digit loop: [e] saturates once it reaches 10000. *)
Fixpoint read_exp (e : Z) (us : bool) (s : list ascii) : Z * bool * list ascii :=
  match s with
  | [] => (e, us, [])
  | c :: s' =>
    if is_char c 95 then read_exp e true s'
    else if is_digit c then
      read_exp (if e <? 10000 then e * 10 + (byte_of c - 48) else e) us s'
    else (e, us, s)
  end.

(** underscoreOK: an underscore must separate digits (a base prefix counts
    as a digit). [saw]: 0 beginning, 1 digit, 2 underscore, 3 other. *)
Fixpoint underscore_loop (hex : bool) (saw : nat) (s : list ascii) : bool :=
  match s with
  | [] => negb (Nat.eqb saw 2)
  | c :: s' =>
    if is_digit c || (hex && is_hex_letter c) then underscore_loop hex 1 s'
    else if is_char c 95 then
      if Nat.eqb saw 1 then underscore_loop hex 2 s' else false
    else if Nat.eqb saw 2 then false
    else underscore_loop hex 3 s'
  end.

Definition underscoreOK (s : list ascii) : bool :=
  let s := match s with
           | c :: t => if is_char c 45 || is_char c 43 then t else s
           | [] => s
           end in
  match s with
  | c0 :: c1 :: t =>
    if is_char c0 48 && ((lower c1 =? 98) || (lower c1 =? 111) || (lower c1 =? 120))
    then underscore_loop (lower c1 =? 120) 1 t
    else underscore_loop false 0 s
  | _ => underscore_loop false 0 s
  end.

(** What readFloat hands over: the sign, the base, the exact digits [mant]
    and the exponent of the base ([10] or [2]) that scales them. *)
Record parsed := mkParsed { p_neg : bool; p_hex : bool; p_mant : Z; p_exp : Z }.

(** readFloat: [Some (r, n)] when [ok], with [n] the bytes consumed. *)
Definition readFloat (s : list ascii) : option (parsed * nat) :=
  match s with
  | [] => None
  | c :: t =>
    let '(neg, s1) :=
      if is_char c 43 then (false, t) else if is_char c 45 then (true, t) else (false, s) in
    let '(hex, s2) :=
      match s1 with
      | c0 :: c1 :: (_ :: _) as t2 =>
        if is_char c0 48 && (lower c1 =? 120) then (true, t2) else (false, s1)
      | _ => (false, s1)
      end in
    let '(st, s3) := read_digits hex (mkScan false false 0 0 0 false) s2 in
    if negb (sawdigits st) then None
    else
      let dp0 := if sawdot st then dp st else nd st in
      let dp1 := if hex then dp0 * 4 else dp0 in
      let ndm := if hex then nd st * 4 else nd st in
      let finish (dp2 : Z) (us : bool) (rest : list ascii) :=
        let n := (length s - length rest)%nat in
        if us && negb (underscoreOK (firstn n s)) then None
        else Some (mkParsed neg hex (mantissa st) (dp2 - ndm), n) in
      match s3 with
      | c :: s4 =>
        if lower c =? (if hex then 112 else 101) then
          match s4 with
          | [] => None
          | d :: s5 =>
            let '(esign, s6) :=
              if is_char d 43 then (1, s5) else if is_char d 45 then (-1, s5) else (1, s4) in
            match s6 with
            | d0 :: _ =>
              if is_digit d0 then
                let '(e, us, rest) := read_exp 0 (underscores st) s6 in
                finish (dp1 + e * esign) us rest
              else None
            | [] => None
            end
          end
        else if hex then None
        else finish dp1 (underscores st) s3
      | [] => if hex then None else finish dp1 (underscores st) s3
      end
  end.

Inductive NumError := ErrSyntax | ErrRange.

(** The correctly rounded value of a scanned literal. *)
Definition float_of_parsed (r : parsed) : float64 :=
  if p_hex r then round_scaled (p_neg r) (p_mant r) (p_exp r)
  else if 0 <=? p_exp r then round_scaled (p_neg r) (p_mant r * 10 ^ p_exp r) 0
  else round_ratio (p_neg r) (p_mant r) (10 ^ (- p_exp r)).

(** parseFloatPrefix for 64 bits: value, bytes consumed, error. *)
Definition parseFloatPrefix (s : list ascii) : float64 * nat * option NumError :=
  match special s with
  | Some (SpInf neg, n) => (S754_infinity neg, n, None)
  | Some (SpNaN, n) => (S754_nan, n, None)
  | None =>
    match readFloat s with
    | None => (f64_zero, O, Some ErrSyntax)
    | Some (r, n) =>
      let f := float_of_parsed r in
      match f with
      | S754_infinity _ => (f, n, Some ErrRange)
      | _ => (f, n, None)
      end
    end
  end.

(** strconv.ParseFloat(s, 64): the whole string must be consumed. *)
Definition ParseFloat (s : string) : float64 * option NumError :=
  let l := list_ascii_of_string s in
  let '(f, n, err) := parseFloatPrefix l in
  if negb (Nat.eqb n (length l)) && (match err with Some ErrSyntax => false | _ => true end)
  then (f64_zero, Some ErrSyntax)
  else (f, err).

End GoFloat.

(* ===================================================================== *)
(** ** sql/type.go                                                        *)
(* ===================================================================== *)
Module SqlType.
Import GoFloat.

(** *** Dynamic values

    A Go [interface{}] as the switch of [ConvertToBool] sees it: the nil
    interface, or a value tagged with its dynamic type. Machine integers
    carry their mathematical value; [wf_value] states the range of each
    type ([int] and [uint] are 64 bits wide, as on the platforms the engine
    is built for). *)
Inductive Value :=
| VNil
| VBool (b : bool)
| VInt (n : Z) | VInt64 (n : Z) | VInt32 (n : Z) | VInt16 (n : Z) | VInt8 (n : Z)
| VUint (n : Z) | VUint64 (n : Z) | VUint32 (n : Z) | VUint16 (n : Z) | VUint8 (n : Z)
| VDuration (nanos : Z)          (* time.Duration: an int64 *)
| VTime (unixNano : Z)           (* time.Time, observed through UnixNano() *)
| VFloat32 (f : float64)         (* a binary32 datum; every one is a binary64 datum *)
| VFloat64 (f : float64)
| VString (s : string)
| VOther (go_type : string).     (* any other dynamic type: []byte, decimal.Decimal, ... *)

Definition in_signed (bits : Z) (n : Z) : Prop := - 2 ^ (bits - 1) <= n < 2 ^ (bits - 1).
Definition in_unsigned (bits : Z) (n : Z) : Prop := 0 <= n < 2 ^ bits.

Definition wf_value (v : Value) : Prop :=
  match v with
  | VInt n | VInt64 n | VDuration n | VTime n => in_signed 64 n
  | VInt32 n => in_signed 32 n
  | VInt16 n => in_signed 16 n
  | VInt8 n => in_signed 8 n
  | VUint n | VUint64 n => in_unsigned 64 n
  | VUint32 n => in_unsigned 32 n
  | VUint16 n => in_unsigned 16 n
  | VUint8 n => in_unsigned 8 n
  | _ => True
  end.

(** The conversions [int64(b)] and [uint64(b)] with their wrap-around. *)
Definition to_int64 (n : Z) : Z := (n + 2 ^ 63) mod 2 ^ 64 - 2 ^ 63.
Definition to_uint64 (n : Z) : Z := n mod 2 ^ 64.

Inductive error :=
| ErrCastNil                                  (* "unable to cast nil to bool" *)
| ErrCastType (v : Value)                     (* "unable to cast %#v of type %T to bool" *)
| ErrInvalidOperandColumns (expected got : Z). (* "operand should have %d columns, but has %d" *)

(** *** CompareNulls *)

Definition is_nil (v : Value) : bool := match v with VNil => true | _ => false end.

Definition CompareNulls (a b : Value) : bool * Z :=
  let aIsNull := is_nil a in
  let bIsNull := is_nil b in
  if aIsNull && bIsNull then (true, 0)
  else if aIsNull && negb bIsNull then (true, 1)
  else if negb aIsNull && bIsNull then (true, -1)
  else (false, 0).

(** The contract of [Type.Compare], in the words of its doc comment: the
    result is 0 if a==b, -1 if a < b, and +1 if a > b. *)
Inductive ordering := Before | Same | After.
Definition ordering_of (cmp : Z) : option ordering :=
  if cmp =? 0 then Some Same
  else if cmp =? -1 then Some Before
  else if cmp =? 1 then Some After
  else None.

(** *** ConvertToBool

    The recursive calls of the source re-enter the switch at the [int64],
    [uint64] and [float64] cases; those cases are the three helpers. *)
Definition ConvertToBool_int64 (b : Z) : bool * option error :=
  if b =? 0 then (false, None) else (true, None).

Definition ConvertToBool_uint64 (b : Z) : bool * option error :=
  if b =? 0 then (false, None) else (true, None).

Definition ConvertToBool_float64 (b : float64) : bool * option error :=
  if f64_eq b f64_zero then (false, None) else (true, None).

Definition ConvertToBool (v : Value) : bool * option error :=
  match v with
  | VBool b => if b then (true, None) else (false, None)
  | VInt b => ConvertToBool_int64 (to_int64 b)
  | VInt64 b => ConvertToBool_int64 b
  | VInt32 b => ConvertToBool_int64 (to_int64 b)
  | VInt16 b => ConvertToBool_int64 (to_int64 b)
  | VInt8 b => ConvertToBool_int64 (to_int64 b)
  | VUint b => ConvertToBool_int64 (to_int64 b)
  | VUint64 b => ConvertToBool_uint64 b
  | VUint32 b => ConvertToBool_uint64 (to_uint64 b)
  | VUint16 b => ConvertToBool_uint64 (to_uint64 b)
  | VUint8 b => ConvertToBool_uint64 (to_uint64 b)
  | VDuration b => if b =? 0 then (false, None) else (true, None)
  | VTime unixNano => if unixNano =? 0 then (false, None) else (true, None)
  | VFloat32 b => ConvertToBool_float64 b
  | VFloat64 b => ConvertToBool_float64 b
  | VString b =>
    let '(bFloat, err) := ParseFloat b in
    match err with
    | Some _ =>
      (* In MySQL, if the string does not represent a float then it's false *)
      (false, None)
    | None => (negb (f64_eq bFloat f64_zero), None)
    end
  | VNil => (false, Some ErrCastNil)
  | VOther _ => (false, Some (ErrCastType v))
  end.

(** The numeric dynamic types, and what it is for one of them to hold zero
    (a float is zero when it is +0 or -0; NaN is not). *)
Definition is_numeric (v : Value) : bool :=
  match v with
  | VInt _ | VInt64 _ | VInt32 _ | VInt16 _ | VInt8 _
  | VUint _ | VUint64 _ | VUint32 _ | VUint16 _ | VUint8 _
  | VFloat32 _ | VFloat64 _ => true
  | _ => false
  end.

Definition is_zero_float (f : float64) : bool :=
  match f with S754_zero _ => true | _ => false end.

Definition numeric_is_zero (v : Value) : bool :=
  match v with
  | VInt n | VInt64 n | VInt32 n | VInt16 n | VInt8 n
  | VUint n | VUint64 n | VUint32 n | VUint16 n | VUint8 n => n =? 0
  | VFloat32 f | VFloat64 f => is_zero_float f
  | _ => false
  end.

(** The rule the specification words: the value of the longest numeric
    prefix of the string ("leading-digit parse"), here for the unsigned
    integer prefix that its examples use: '20a' -> 20, 'a' -> 0, '' -> 0. *)
Fixpoint leading_digits (acc : Z) (s : list ascii) : Z :=
  match s with
  | c :: s' => if is_digit c then leading_digits (acc * 10 + (byte_of c - 48)) s' else acc
  | [] => acc
  end.
Definition leading_digit_parse (s : string) : Z := leading_digits 0 (list_ascii_of_string s).

(** *** Types, NumColumns, ErrIfMismatchedColumns

    [TupleType] is a slice of types; every other type is one column. *)
Inductive SType :=
| Scalar (name : string)
| TupleType (ts : list SType).

Definition NumColumns (t : SType) : Z :=
  match t with
  | TupleType v => Z.of_nat (length v)
  | Scalar _ => 1
  end.

(** The loop [for i := range v1] over the paired subtypes: the first error
    wins. It runs only when both slices have the same length. *)
Fixpoint first_mismatch (check : SType -> SType -> option error)
  (v1 v2 : list SType) {struct v1} : option error :=
  match v1, v2 with
  | x :: v1', y :: v2' =>
    match check x y with
    | Some err => Some err
    | None => first_mismatch check v1' v2'
    end
  | _, _ => None
  end.

Fixpoint ErrIfMismatchedColumns (t1 t2 : SType) {struct t1} : option error :=
  if negb (NumColumns t1 =? NumColumns t2) then
    Some (ErrInvalidOperandColumns (NumColumns t1) (NumColumns t2))
  else
    match t1, t2 with
    | TupleType v1, TupleType v2 =>
      first_mismatch (fun x y => ErrIfMismatchedColumns x y) v1 v2
    | _, _ => None
    end.

(** ErrIfMismatchedColumnsInTuple: t2 must be a tuple whose every subtype
    has the columns of t1. *)
Definition ErrIfMismatchedColumnsInTuple (t1 t2 : SType) : option error :=
  match t2 with
  | TupleType v2 =>
    (fix loop (vs : list SType) : option error :=
       match vs with
       | [] => None
       | v :: vs' =>
         match ErrIfMismatchedColumns t1 v with
         | Some err => Some err
         | None => loop vs'
         end
       end) v2
  | Scalar _ => Some (ErrInvalidOperandColumns (NumColumns t1) (NumColumns t2))
  end.

(** The specification's reading of a mismatch: the column counts
    differ, or both are tuples and some corresponding pair of subtypes
    is, recursively, mismatched. *)
Inductive Mismatched : SType -> SType -> Prop :=
| mismatch_count t1 t2 :
    NumColumns t1 <> NumColumns t2 -> Mismatched t1 t2
| mismatch_sub v1 v2 (i : nat) x y :
    v1 !! i = Some x -> v2 !! i = Some y -> Mismatched x y ->
    Mismatched (TupleType v1) (TupleType v2).

(** *** Properties of CompareNulls *)

Lemma CompareNulls_cases (a b : Value) :
  CompareNulls a b =
  match is_nil a, is_nil b with
  | true, true => (true, 0)
  | true, false => (true, 1)
  | false, true => (true, -1)
  | false, false => (false, 0)
  end.
Proof. unfold CompareNulls. destruct (is_nil a), (is_nil b); reflexivity. Qed.

(** C1. The documented rule is "nulls ordered before non-nulls", and a
    comparison result of -1 is what says "a before b". The code answers
    +1 when only [a] is NULL and -1 when only [b] is: read through the
    contract of Compare, the NULL operand is ordered after the other. *)
Theorem CompareNulls_null_operand_ordered_after :
  (forall b, CompareNulls VNil b = if is_nil b then (true, 0) else (true, 1)) /\
  (forall a, CompareNulls a VNil = if is_nil a then (true, 0) else (true, -1)) /\
  fst (CompareNulls VNil (VInt64 1)) = true /\
  ordering_of (snd (CompareNulls VNil (VInt64 1))) = Some After /\
  ordering_of (snd (CompareNulls (VInt64 1) VNil)) = Some Before.
Proof.
  repeat split.
  - intros b. rewrite CompareNulls_cases. simpl. destruct (is_nil b); reflexivity.
  - intros a. rewrite CompareNulls_cases. simpl. destruct (is_nil a); reflexivity.
Qed.

(** *** Properties of ConvertToBool *)

Lemma to_int64_zero (n : Z) :
  - 2 ^ 63 <= n < 2 ^ 64 -> (to_int64 n =? 0) = (n =? 0).
Proof.
  intros Hn. unfold to_int64.
  destruct (Z.eq_dec n 0) as [->|Hne]; [reflexivity|].
  rewrite (proj2 (Z.eqb_neq n 0) Hne). apply Z.eqb_neq.
  destruct (Z_lt_le_dec n (2 ^ 63)) as [Hlt|Hge].
  - rewrite Z.mod_small by lia. lia.
  - replace (n + 2 ^ 63) with ((n - 2 ^ 63) + 1 * 2 ^ 64) by lia.
    rewrite Z_mod_plus_full. rewrite Z.mod_small by lia. lia.
Qed.

Lemma to_uint64_zero (n : Z) :
  0 <= n < 2 ^ 64 -> (to_uint64 n =? 0) = (n =? 0).
Proof. intros Hn. unfold to_uint64. rewrite Z.mod_small by lia. reflexivity. Qed.

Lemma f64_eq_zero (f : float64) :
  f64_eq f f64_zero = is_zero_float f.
Proof. destruct f as [s|s| |s m e]; try reflexivity; destruct s; reflexivity. Qed.

Lemma in_signed_64 (bits n : Z) :
  0 < bits <= 64 -> in_signed bits n -> - 2 ^ 63 <= n < 2 ^ 64.
Proof.
  intros Hb [Hlo Hhi].
  assert (2 ^ (bits - 1) <= 2 ^ 63) by (apply Z.pow_le_mono_r; lia).
  lia.
Qed.

Lemma in_unsigned_64 (bits n : Z) :
  0 < bits <= 64 -> in_unsigned bits n -> 0 <= n < 2 ^ 64.
Proof.
  intros Hb [Hlo Hhi].
  assert (2 ^ bits <= 2 ^ 64) by (apply Z.pow_le_mono_r; lia).
  lia.
Qed.

Lemma ConvertToBool_numeric (v : Value) :
  wf_value v -> is_numeric v = true ->
  ConvertToBool v = (negb (numeric_is_zero v), None).
Proof.
  intros Hwf Hnum.
  destruct v; try discriminate Hnum; simpl in Hwf |- *;
    unfold ConvertToBool_int64, ConvertToBool_uint64, ConvertToBool_float64.
  1-5: rewrite ?to_int64_zero by (eapply in_signed_64; [|exact Hwf]; lia);
       destruct (n =? 0); reflexivity.
  1: rewrite to_int64_zero by (unfold in_unsigned in Hwf; lia);
       destruct (n =? 0); reflexivity.
  1-4: rewrite ?to_uint64_zero by (eapply in_unsigned_64; [|exact Hwf]; lia);
       destruct (n =? 0); reflexivity.
  1-2: rewrite f64_eq_zero; destruct f; reflexivity.
Qed.

Lemma ConvertToBool_string (s : string) :
  ConvertToBool (VString s) =
  (match ParseFloat s with
   | (f, None) => negb (is_zero_float f)
   | (_, Some _) => false
   end, None).
Proof.
  simpl. destruct (ParseFloat s) as [f [e|]]; [reflexivity|].
  rewrite f64_eq_zero. reflexivity.
Qed.




(** *** Properties of ErrIfMismatchedColumns *)

Fixpoint SType_nested_ind (P : SType -> Prop)
  (Hscalar : forall name, P (Scalar name))
  (Htuple : forall ts, Forall P ts -> P (TupleType ts))
  (t : SType) {struct t} : P t :=
  match t with
  | Scalar name => Hscalar name
  | TupleType ts =>
    Htuple ts
      ((fix all (l : list SType) : Forall P l :=
          match l with
          | [] => @Stdlib.Lists.List.Forall_nil _ P
          | x :: l' => @Stdlib.Lists.List.Forall_cons _ P x l' (SType_nested_ind P Hscalar Htuple x) (all l')
          end) ts)
  end.

Lemma ErrIfMismatchedColumns_unfold (t1 t2 : SType) :
  ErrIfMismatchedColumns t1 t2 =
  if negb (NumColumns t1 =? NumColumns t2) then
    Some (ErrInvalidOperandColumns (NumColumns t1) (NumColumns t2))
  else
    match t1, t2 with
    | TupleType v1, TupleType v2 => first_mismatch ErrIfMismatchedColumns v1 v2
    | _, _ => None
    end.
Proof. destruct t1; reflexivity. Qed.

(** What a run of the loop means, given what [check] means on the
    elements of [v1]. *)
Lemma first_mismatch_sound (check : SType -> SType -> option error)
  (R : SType -> SType -> Prop) (K : error -> Prop) (v1 : list SType) :
  Forall (fun x => forall y,
            match check x y with
            | Some e => R x y /\ K e
            | None => ~ R x y
            end) v1 ->
  forall v2,
    match first_mismatch check v1 v2 with
    | Some e => (exists i x y, v1 !! i = Some x /\ v2 !! i = Some y /\ R x y) /\ K e
    | None => forall i x y, v1 !! i = Some x -> v2 !! i = Some y -> ~ R x y
    end.
Proof.
  induction 1 as [|x v1 Hx _ IH]; intros v2.
  - simpl. intros i x y Hi. rewrite lookup_nil in Hi. discriminate.
  - destruct v2 as [|y v2]; simpl.
    + intros i x' y' _ Hi. rewrite lookup_nil in Hi. discriminate.
    + specialize (Hx y). destruct (check x y) as [e|].
      * destruct Hx as [HR HK]. split; [|exact HK].
        exists 0%nat, x, y. auto.
      * specialize (IH v2). destruct (first_mismatch check v1 v2) as [e|].
        -- destruct IH as [(i & x' & y' & H1 & H2 & H3) HK]. split; [|exact HK].
           exists (S i), x', y'. auto.
        -- intros [|i] x' y' H1 H2; simpl in H1, H2.
           ++ injection H1 as <-. injection H2 as <-. exact Hx.
           ++ eapply IH; eassumption.
Qed.

Definition is_operand_error (e : error) : Prop :=
  exists n m, e = ErrInvalidOperandColumns n m.

Lemma ErrIfMismatchedColumns_sound (t1 : SType) :
  forall t2,
    match ErrIfMismatchedColumns t1 t2 with
    | Some e => Mismatched t1 t2 /\ is_operand_error e
    | None => ~ Mismatched t1 t2
    end.
Proof.
  induction t1 as [name|v1 IH] using SType_nested_ind; intros t2;
    rewrite ErrIfMismatchedColumns_unfold.
  - destruct (Z.eqb_spec (NumColumns (Scalar name)) (NumColumns t2)) as [Heq|Hne];
      simpl negb; cbv iota.
    + intros HM. inversion HM; subst. contradiction.
    + split; [constructor; exact Hne | unfold is_operand_error; eauto].
  - destruct (Z.eqb_spec (NumColumns (TupleType v1)) (NumColumns t2)) as [Heq|Hne];
      simpl negb; cbv iota.
    + destruct t2 as [name|v2].
      * intros HM. inversion HM; subst. contradiction.
      * pose proof (first_mismatch_sound ErrIfMismatchedColumns Mismatched
                      is_operand_error v1 IH v2) as Hloop.
        destruct (first_mismatch ErrIfMismatchedColumns v1 v2) as [e|].
        -- destruct Hloop as [(i & x & y & H1 & H2 & H3) HK]. split; [|exact HK].
           eapply mismatch_sub; eassumption.
        -- intros HM. inversion HM; subst; [contradiction|].
           eapply Hloop; eassumption.
    + split; [constructor; exact Hne | unfold is_operand_error; eauto].
Qed.

(** C7. ErrIfMismatchedColumns returns an ErrInvalidOperandColumns error
    if and only if the column counts of t1 and t2 differ (a non-tuple
    counting as one column), or both are tuples and some corresponding
    pair of subtypes recursively has mismatched column counts; otherwise
    it returns nil. *)
Theorem ErrIfMismatchedColumns_iff_mismatched (t1 t2 : SType) :
  ((exists n m, ErrIfMismatchedColumns t1 t2 = Some (ErrInvalidOperandColumns n m))
     <-> Mismatched t1 t2) /\
  (ErrIfMismatchedColumns t1 t2 = None <-> ~ Mismatched t1 t2).
Proof.
  pose proof (ErrIfMismatchedColumns_sound t1 t2) as H.
  destruct (ErrIfMismatchedColumns t1 t2) as [e|].
  - destruct H as [HM (n & m & ->)]. split; split.
    + intros _. exact HM.
    + intros _. eauto.
    + discriminate.
    + intros HN. contradiction.
  - split; split.
    + intros (n & m & Hd). discriminate.
    + intros HM. contradiction.
    + intros _. exact H.
    + reflexivity.
Qed.

(** The right operand of IN: no error exactly when it is a tuple none of
    whose subtypes is mismatched with the left operand's type. *)
Theorem ErrIfMismatchedColumnsInTuple_none (t1 t2 : SType) :
  ErrIfMismatchedColumnsInTuple t1 t2 = None
  <-> exists v2, t2 = TupleType v2 /\ Forall (fun v => ~ Mismatched t1 v) v2.
Proof.
  destruct t2 as [name|v2]; simpl.
  - split; [discriminate | intros (v2 & Heq & _); discriminate].
  - split.
    + intros Hloop. exists v2. split; [reflexivity|].
      induction v2 as [|v vs IH]; [constructor|].
      pose proof (ErrIfMismatchedColumns_sound t1 v) as Hv.
      destruct (ErrIfMismatchedColumns t1 v); [discriminate|].
      constructor; [exact Hv | apply IH; exact Hloop].
    + intros (v2' & Heq & Hall). injection Heq as <-.
      induction Hall as [|v vs Hv _ IH]; [reflexivity|].
      pose proof (ErrIfMismatchedColumns_sound t1 v) as Hs.
      destruct (ErrIfMismatchedColumns t1 v) as [e|]; [|exact IH].
      destruct Hs as [HM _]. contradiction.
Qed.

(** *** Further properties of CompareNulls, ConvertToBool and
    ErrIfMismatchedColumns *)

(** CompareNulls flags a pair exactly when one of the two is nil; the
    ordering is 0 when it flags nothing, and swapping the operands keeps
    the flag and negates the ordering. *)
Theorem CompareNulls_swap (a b : Value) :
  (fst (CompareNulls a b) = true <-> a = VNil \/ b = VNil) /\
  (fst (CompareNulls a b) = false -> snd (CompareNulls a b) = 0) /\
  CompareNulls b a = (fst (CompareNulls a b), - snd (CompareNulls a b)).
Proof.
  rewrite (CompareNulls_cases a b), (CompareNulls_cases b a).
  destruct a, b; simpl; repeat split; auto; try discriminate;
    intros [Hd | Hd]; discriminate.
Qed.

(** ConvertToBool fails exactly on nil and on a value of a type its switch
    does not list, and a failure comes with false. A duration and a time
    are true exactly when they are not the zero duration and not the
    instant of UnixNano 0; a float that is not a number is true. *)
Theorem ConvertToBool_failure (v : Value) :
  (snd (ConvertToBool v) <> None <-> v = VNil \/ exists go_type, v = VOther go_type) /\
  (snd (ConvertToBool v) <> None -> fst (ConvertToBool v) = false) /\
  (forall n, v = VDuration n \/ v = VTime n ->
     ConvertToBool v = (negb (n =? 0), None)) /\
  (v = VFloat64 S754_nan \/ v = VFloat32 S754_nan -> ConvertToBool v = (true, None)).
Proof.
  repeat split.
  - intros Herr. destruct v; simpl in Herr;
      unfold ConvertToBool_int64, ConvertToBool_uint64, ConvertToBool_float64 in Herr;
      repeat case_match; simpl in Herr; try congruence; eauto.
  - intros [-> | [go_type ->]]; simpl; discriminate.
  - intros Herr. destruct v; simpl in *;
      unfold ConvertToBool_int64, ConvertToBool_uint64, ConvertToBool_float64 in *;
      repeat case_match; simpl in *; congruence.
  - intros n [-> | ->]; simpl; destruct (n =? 0); reflexivity.
  - intros [-> | ->]; reflexivity.
Qed.

(** The error of the swapped call. *)
Definition swap_operands (e : error) : error :=
  match e with
  | ErrInvalidOperandColumns expected got => ErrInvalidOperandColumns got expected
  | _ => e
  end.

Lemma first_mismatch_swap (check : SType -> SType -> option error) (v1 : list SType) :
  Forall (fun x => forall y, check y x = swap_operands <$> check x y) v1 ->
  forall v2, first_mismatch check v2 v1 = swap_operands <$> first_mismatch check v1 v2.
Proof.
  induction 1 as [|x v1 Hx _ IH]; intros [|y v2]; simpl; try reflexivity.
  rewrite Hx. destruct (check x y); simpl; [reflexivity | apply IH].
Qed.

Lemma first_mismatch_diag (check : SType -> SType -> option error) (v : list SType) :
  Forall (fun x => check x x = None) v -> first_mismatch check v v = None.
Proof. induction 1 as [|x v Hx _ IH]; simpl; [reflexivity|]. rewrite Hx. exact IH. Qed.

Lemma ErrIfMismatchedColumns_diag (t : SType) : ErrIfMismatchedColumns t t = None.
Proof.
  induction t as [name|v IH] using SType_nested_ind; rewrite ErrIfMismatchedColumns_unfold;
    rewrite Z.eqb_refl; simpl; [reflexivity|].
  apply first_mismatch_diag. exact IH.
Qed.

Lemma ErrIfMismatchedColumns_swapped (t1 : SType) :
  forall t2, ErrIfMismatchedColumns t2 t1 = swap_operands <$> ErrIfMismatchedColumns t1 t2.
Proof.
  induction t1 as [name|v1 IH] using SType_nested_ind; intros t2;
    rewrite (ErrIfMismatchedColumns_unfold t2), (ErrIfMismatchedColumns_unfold _ t2);
    rewrite (Z.eqb_sym (NumColumns t2)).
  - destruct (NumColumns (Scalar name) =? NumColumns t2); simpl; [|reflexivity].
    destruct t2; reflexivity.
  - destruct (NumColumns (TupleType v1) =? NumColumns t2); simpl; [|reflexivity].
    destruct t2 as [name|v2]; [reflexivity|].
    apply first_mismatch_swap. exact IH.
Qed.

(** ErrIfMismatchedColumns accepts every type against itself, and the
    swapped call gives the same verdict: no error, or the error of the
    same pair of subtypes with the two counts exchanged. *)
Theorem ErrIfMismatchedColumns_reflexive_symmetric :
  (forall t, ErrIfMismatchedColumns t t = None) /\
  (forall t1 t2,
     ErrIfMismatchedColumns t2 t1 = swap_operands <$> ErrIfMismatchedColumns t1 t2) /\
  (forall t1 t2,
     ErrIfMismatchedColumns t1 t2 = None <-> ErrIfMismatchedColumns t2 t1 = None).
Proof.
  split; [exact ErrIfMismatchedColumns_diag|].
  split; [intros t1 t2; apply ErrIfMismatchedColumns_swapped|].
  intros t1 t2. rewrite (ErrIfMismatchedColumns_swapped t1 t2).
  destruct (ErrIfMismatchedColumns t1 t2); simpl; split; congruence.
Qed.

(** A tuple of one element is compared with a type that is no tuple by the
    counts alone, whatever the element is: such a pair is never an error.
    So the check does not compose: a one-element tuple and its element's
    type both agree with a scalar, and may disagree with each other. *)
Theorem ErrIfMismatchedColumns_one_column (name : string) (t : SType) :
  NumColumns t <> 1 ->
  ErrIfMismatchedColumns (TupleType [Scalar name]) (Scalar name) = None /\
  ErrIfMismatchedColumns (Scalar name) (TupleType [t]) = None /\
  ErrIfMismatchedColumns (TupleType [Scalar name]) (TupleType [t])
  = Some (ErrInvalidOperandColumns 1 (NumColumns t)).
Proof.
  intros Hne. split; [reflexivity|]. split; [reflexivity|].
  rewrite ErrIfMismatchedColumns_unfold.
  change (NumColumns (TupleType [Scalar name]) =? NumColumns (TupleType [t])) with true.
  cbn [negb first_mismatch]. rewrite ErrIfMismatchedColumns_unfold.
  change (NumColumns (Scalar name)) with 1.
  destruct (Z.eqb_spec 1 (NumColumns t)) as [Heq|_]; [congruence | reflexivity].
Qed.

Lemma ErrIfMismatchedColumns_one_column_witness :
  ErrIfMismatchedColumns (TupleType [Scalar "int"]) (Scalar "int") = None /\
  ErrIfMismatchedColumns (Scalar "int") (TupleType [TupleType [Scalar "int"; Scalar "int"]])
  = None /\
  ErrIfMismatchedColumns (TupleType [Scalar "int"])
                         (TupleType [TupleType [Scalar "int"; Scalar "int"]])
  = Some (ErrInvalidOperandColumns 1 2).
Proof.
  apply (ErrIfMismatchedColumns_one_column "int" (TupleType [Scalar "int"; Scalar "int"])).
  simpl. lia.
Defined.

Lemma CompareNulls_swap_witness :
  CompareNulls (VInt64 1) VNil
  = (fst (CompareNulls VNil (VInt64 1)), - snd (CompareNulls VNil (VInt64 1))).
Proof. apply (CompareNulls_swap VNil (VInt64 1)). Defined.

Lemma ConvertToBool_failure_witness :
  ConvertToBool (VFloat64 S754_nan) = (true, None).
Proof.
  destruct (ConvertToBool_failure (VFloat64 S754_nan)) as (_ & _ & _ & Hnan).
  apply Hnan. left. reflexivity.
Defined.

Example ErrIfMismatchedColumns_nested :
  ErrIfMismatchedColumns
    (TupleType [Scalar "bigint"; TupleType [Scalar "text"; Scalar "text"]])
    (TupleType [Scalar "bigint"; TupleType [Scalar "text"]])
  = Some (ErrInvalidOperandColumns 2 1).
Proof. reflexivity. Qed.

End SqlType.

(* ===================================================================== *)
(** ** sql/expression/function/queryinfo.go                               *)
(* ===================================================================== *)
Module QueryInfo.
Import GoFloat SqlType.

(** The keys of the session's last-query information. *)
Inductive InfoKey := RowCountKey | FoundRowsKey | LastInsertIdKey.

#[local] Instance InfoKey_eq_dec : EqDecision InfoKey.
Proof. solve_decision. Defined.

(** The session context, as the three functions use it: an int64 is read
    under a key and stored under a key. *)
Class Session (Ctx : Type) := {
  GetLastQueryInfo : Ctx -> InfoKey -> Z;
  SetLastQueryInfo : Ctx -> InfoKey -> Z -> Ctx
}.

(** What [SetLastQueryInfo] and [GetLastQueryInfo] owe each other. *)
Definition store_laws {Ctx : Type} `{Session Ctx} : Prop :=
  (forall c k n, GetLastQueryInfo (SetLastQueryInfo c k n) k = n) /\
  (forall c k k' n, k <> k' ->
     GetLastQueryInfo (SetLastQueryInfo c k n) k' = GetLastQueryInfo c k').

(** The real number a finite float stands for, its fraction discarded. *)
Definition truncate (f : float64) : option Z :=
  match f with
  | S754_zero _ => Some 0
  | S754_finite s m e =>
    let magnitude := if 0 <=? e then Z.pos m * 2 ^ e else Z.pos m / 2 ^ (- e) in
    Some (if s then - magnitude else magnitude)
  | _ => None
  end.

Inductive error :=
| ErrInvalidArgumentNumber (name : string) (got expected : nat)
| ErrChild (msg : string).            (* an error of the argument's own *)

(** What a call of [Eval] comes to: a value, an error, or a panic. *)
Inductive outcome :=
| Ok (v : Value)
| Err (e : error)
| Panic (msg : string).

Section Functions.
Context {Ctx Row : Type} `{Session Ctx}.
(** The conversion [int64(x)] of a float that is not a number, or whose
    integer part does not fit: Go leaves the result to the platform. *)
Variable int64_of_unrepresentable : float64 -> Z.

Definition float_to_int64 (f : float64) : Z :=
  match truncate f with
  | Some z => if (- 2 ^ 63 <=? z) && (z <? 2 ^ 63) then z else int64_of_unrepresentable f
  | None => int64_of_unrepresentable f
  end.

(** toInt64; [None] is the panic of the default case. *)
Definition toInt64 (x : Value) : option Z :=
  match x with
  | VInt n | VUint n | VInt8 n | VUint8 n | VInt16 n | VUint16 n
  | VInt32 n | VUint32 n | VUint64 n => Some (to_int64 n)
  | VInt64 n => Some n
  | VFloat32 f | VFloat64 f => Some (float_to_int64 f)
  | _ => None
  end.

(** An expression is observed through [Eval], which may write to the
    context it is handed. *)
Definition Expression := Ctx -> Row -> outcome * Ctx.

Record LastInsertId := { Child : option Expression }.

Definition NewLastInsertId (children : list Expression) : LastInsertId + error :=
  match children with
  | [] => inl {| Child := None |}
  | [child] => inl {| Child := Some child |}
  | _ => inr (ErrInvalidArgumentNumber "LastInsertId" (length children) 1)
  end.

Definition RowCount_Eval : Expression :=
  fun ctx _ => (Ok (VInt64 (GetLastQueryInfo ctx RowCountKey)), ctx).

Definition FoundRows_Eval : Expression :=
  fun ctx _ => (Ok (VInt64 (GetLastQueryInfo ctx FoundRowsKey)), ctx).

Definition LastInsertId_Eval (r : LastInsertId) : Expression :=
  fun ctx row =>
    match Child r with
    | None => (Ok (VInt64 (GetLastQueryInfo ctx LastInsertIdKey)), ctx)
    | Some child =>
      match child ctx row with
      | (Ok res, ctx') =>
        match toInt64 res with
        | Some n => (Ok res, SetLastQueryInfo ctx' LastInsertIdKey n)
        | None => (Panic "Expected a numeric auto increment value", ctx')
        end
      | (failure, ctx') => (failure, ctx')
      end
    end.

(** The integer an integer value stands for. *)
Definition integer_of (x : Value) : option Z :=
  match x with
  | VInt n | VUint n | VInt8 n | VUint8 n | VInt16 n | VUint16 n
  | VInt32 n | VUint32 n | VUint64 n | VInt64 n => Some n
  | _ => None
  end.

(** toInt64 keeps every integer below 2^63 and wraps the uint64 (and uint)
    values from 2^63 on to the negative numbers 2^64 lower. *)
Theorem toInt64_integer (x : Value) (n : Z) :
  wf_value x -> integer_of x = Some n ->
  toInt64 x = Some (if n <? 2 ^ 63 then n else n - 2 ^ 64).
Proof.
  intros Hwf Hn.
  assert (Hrange : - 2 ^ 63 <= n < 2 ^ 64 /\ (VInt64 n = x \/ toInt64 x = Some (to_int64 n))).
  { destruct x; simpl in Hn; try discriminate; injection Hn as ->;
      simpl in Hwf; unfold in_signed, in_unsigned in Hwf; simpl in Hwf;
      (split; [lia | first [left; reflexivity | right; reflexivity]]). }
  destruct Hrange as [Hrange Hx].
  assert (Hwrap : to_int64 n = if n <? 2 ^ 63 then n else n - 2 ^ 64).
  { unfold to_int64. destruct (Z.ltb_spec n (2 ^ 63)).
    - rewrite Z.mod_small by lia. lia.
    - replace (n + 2 ^ 63) with (n - 2 ^ 63 + 1 * 2 ^ 64) by lia.
      rewrite Z.mod_add by lia. rewrite Z.mod_small by lia. lia. }
  destruct Hx as [<- | ->].
  - simpl. simpl in Hwf. unfold in_signed in Hwf. simpl in Hwf.
    destruct (Z.ltb_spec n (2 ^ 63)); [reflexivity | lia].
  - rewrite Hwrap. reflexivity.
Qed.

(** LAST_INSERT_ID(expr) returns the value of expr and stores it, as an
    int64, as the session's last insert id: a LAST_INSERT_ID() evaluated
    next returns that int64 and writes nothing, and the row count and the
    found rows stay as the argument's evaluation left them. *)
Theorem LastInsertId_Eval_stores (child : Expression) (ctx ctx' : Ctx) (row : Row)
  (res : Value) (n : Z) :
  store_laws ->
  child ctx row = (Ok res, ctx') ->
  toInt64 res = Some n ->
  exists ctx'',
    LastInsertId_Eval {| Child := Some child |} ctx row = (Ok res, ctx'') /\
    LastInsertId_Eval {| Child := None |} ctx'' row = (Ok (VInt64 n), ctx'') /\
    RowCount_Eval ctx'' row = (Ok (VInt64 (GetLastQueryInfo ctx' RowCountKey)), ctx'') /\
    FoundRows_Eval ctx'' row = (Ok (VInt64 (GetLastQueryInfo ctx' FoundRowsKey)), ctx'').
Proof.
  intros [Hsame Hother] Hchild Hn.
  exists (SetLastQueryInfo ctx' LastInsertIdKey n).
  unfold LastInsertId_Eval, RowCount_Eval, FoundRows_Eval. simpl.
  rewrite Hchild, Hn, Hsame.
  rewrite !Hother by discriminate.
  repeat split.
Qed.

(** Without an argument that evaluates to a value, LAST_INSERT_ID stores
    nothing: it returns what the argument returned, in the context the
    argument left. *)
Theorem LastInsertId_Eval_failure (child : Expression) (ctx ctx' : Ctx) (row : Row)
  (failure : outcome) :
  child ctx row = (failure, ctx') ->
  (forall v, failure <> Ok v) ->
  LastInsertId_Eval {| Child := Some child |} ctx row = (failure, ctx').
Proof.
  intros Hchild Hfail. unfold LastInsertId_Eval. simpl. rewrite Hchild.
  destruct failure as [v| |]; [|reflexivity..].
  exfalso. apply (Hfail v). reflexivity.
Qed.

(** NewLastInsertId takes no argument or one. *)
Theorem NewLastInsertId_arity (children : list Expression) :
  (exists r, NewLastInsertId children = inl r) <-> (length children <= 1)%nat.
Proof.
  destruct children as [|c [|c' rest]]; simpl.
  - split; [lia | eauto].
  - split; [lia | eauto].
  - split; [intros [r Hr]; discriminate | lia].
Qed.

End Functions.

(** A session as a function from keys to integers. *)
#[local] Instance function_session : Session (InfoKey -> Z) := {
  GetLastQueryInfo c k := c k;
  SetLastQueryInfo c k n := fun k' => if decide (k' = k) then n else c k'
}.

Lemma function_session_laws : store_laws (Ctx := InfoKey -> Z).
Proof.
  split; simpl; intros.
  - destruct (decide (k = k)); congruence.
  - destruct (decide (k' = k)); congruence.
Qed.

Lemma toInt64_integer_witness :
  toInt64 (fun _ => 0) (VUint64 (2 ^ 64 - 1)) = Some (- 1).
Proof.
  apply (toInt64_integer (fun _ => 0) (VUint64 (2 ^ 64 - 1)) (2 ^ 64 - 1)).
  - simpl. unfold in_unsigned. simpl. lia.
  - reflexivity.
Defined.

Lemma LastInsertId_Eval_stores_witness :
  exists ctx'' : InfoKey -> Z,
    LastInsertId_Eval (Row := unit) (fun _ => 0)
      {| Child := Some (fun ctx _ => (Ok (VInt8 7), ctx)) |} (fun _ => 0) tt
    = (Ok (VInt8 7), ctx'') /\
    LastInsertId_Eval (fun _ => 0) {| Child := None |} ctx'' tt = (Ok (VInt64 7), ctx'') /\
    RowCount_Eval ctx'' tt = (Ok (VInt64 0), ctx'') /\
    FoundRows_Eval ctx'' tt = (Ok (VInt64 0), ctx'').
Proof.
  exact (LastInsertId_Eval_stores (Ctx := InfoKey -> Z) (Row := unit) (fun _ => 0)
           (fun ctx _ => (Ok (VInt8 7), ctx)) (fun _ => 0) (fun _ => 0) tt (VInt8 7) 7
           function_session_laws eq_refl eq_refl).
Defined.

Lemma LastInsertId_Eval_failure_witness :
  LastInsertId_Eval (Row := unit) (fun _ => 0)
    {| Child := Some (fun ctx _ => (Err (ErrChild "overflow"), ctx)) |} (fun _ : InfoKey => 0) tt
  = (Err (ErrChild "overflow"), fun _ => 0).
Proof.
  apply (LastInsertId_Eval_failure (Ctx := InfoKey -> Z) (fun _ => 0)
           (fun ctx _ => (Err (ErrChild "overflow"), ctx)) (fun _ => 0) (fun _ => 0) tt).
  - reflexivity.
  - discriminate.
Defined.

End QueryInfo.

(* ===================================================================== *)
(** ** The analyzer rule resolveInsertRows and its helpers                *)
(* ===================================================================== *)
Module InsertRule.

(** *** Names

    Column names are compared through [strings.ToLower] and
    [strings.EqualFold], functions of Go's library that fold case over
    all of Unicode. The rules are embedded over any two such functions;
    what a property needs of them is among its hypotheses. *)
Class NameOps := {
  ToLower : string -> string;
  EqualFold : string -> string -> bool
}.

(** *** Types, expressions, columns

    [sql.Type] is an interface; the rule uses the five observations
    below. *)
Class TypeOps (T : Type) := {
  (** [t == types.Null] *)
  is_null_type : T -> bool;
  (** [exprType.Convert(otherType.Zero())] returned no error *)
  converts_zero_of : T -> T -> bool;
  (** [exprType.(sql.EnumType)] succeeds *)
  is_enum_type : T -> bool;
  (** [types.IsText(t)] *)
  is_text_type : T -> bool;
  type_string : T -> string
}.

Section Rule.
Context {T : Type} `{TypeOps T}.

(** The expressions the rule meets. A [*sql.ColumnDefaultValue] is a
    pointer: [ColumnDefaultValue None] is the nil pointer held in an
    expression. *)
Inductive Expr :=
| GetField (index : nat) (typ : T) (name : string) (nullable : bool)
| Literal (typ : T) (text : string)
| AutoIncrement (table : string) (given : Expr)
| ColumnDefaultValue (body : option Expr)
| OtherExpr (typ : T) (text : string).

(** A column of a schema. [Default] and [Generated] are pointers: [None]
    is the nil pointer, [Some e] points to a default whose expression is
    [e]. *)
Record Column := mkColumn {
  Name : string;
  Type_ : T;
  Nullable : bool;
  Default : option Expr;
  AutoIncrement_ : bool;
  Generated : option Expr
}.

Definition Schema := list Column.

Inductive error :=
| ErrInsertIntoNonNullableDefaultNullColumn (column : string)
| ErrInsertIntoNonexistentColumn (column : string)
| ErrGeneratedColumnValue (column table : string)
| ErrInsertIntoDuplicateColumn (column : string)
| ErrInsertIntoMismatchValueCount
| ErrInsertIntoIncompatibleTypes (source_type dest_type : string)
| ErrInsertIntoUnsupportedValues (e : Expr)
| ErrOther (message : string)
| PanicIndexOutOfRange.

(** The row source of an INSERT. [Select] stands for every node that is
    neither a VALUES list, a LOAD DATA nor an Exchange, and carries its
    output schema. *)
Inductive Node :=
| Values (ExpressionTuples : list (list Expr))
| LoadData (ColumnNames : list string) (schema : Schema)
| Exchange (Child : Node)
| Select (schema : Schema).

(** The projection [plan.NewProject(projExprs, insertSource)]. *)
Record Project := mkProject { Projections : list Expr; Child : Node }.

(** What the rule calls outside of its file. *)
Class Env := {
  (** [plan.Values.Schema()] *)
  values_schema : list (list Expr) -> Schema;
  (** The rewrite of the expression under a column default by
      [transform.Expr(f.Default, ... fixidx.FixFieldIndexes(scope, logFn,
      schema, e.WithTable(destTbl.Name())))]: every GetField inside gets
      its index fixed against [schema]; the result or an error. *)
  fix_default_indexes : Schema -> string -> option Expr -> option Expr + error;
  (** Whether [expression.NewAutoIncrement] refuses the destination
      table, and with what error. *)
  auto_increment_refused : string -> option error
}.

Context `{Env} `{NameOps}.

(** Modelled from the spec: expression.NewAutoIncrement, whose source is
    not part of this unit. "auto-increment columns are wrapped in an
    increment generator": on success the result is the generator around
    the given expression. *)
Definition NewAutoIncrement (destTbl : string) (given : Expr) : Expr + error :=
  match auto_increment_refused destTbl with
  | Some err => inr err
  | None => inl (AutoIncrement destTbl given)
  end.

Fixpoint NodeSchema (n : Node) : Schema :=
  match n with
  | Values tuples => values_schema tuples
  | LoadData _ schema => schema
  | Exchange child => NodeSchema child
  | Select schema => schema
  end.

(** *** existsNonZeroValueCount *)
Definition existsNonZeroValueCount (values : Node) : bool :=
  match values with
  | Values tuples => existsb (fun exprTuple => negb (Nat.eqb (length exprTuple) 0)) tuples
  | _ => true
  end.

(** *** validateColumns *)

Definition dstColNames_of (dstSchema : Schema) : gmap string Column :=
  foldl (fun m dstCol => <[ToLower (Name dstCol) := dstCol]> m) ∅ dstSchema.

Fixpoint validateColumns_loop (tableName : string) (dstColNames : gmap string Column)
  (usedNames : gset string) (columnNames : list string) : option error :=
  match columnNames with
  | [] => None
  | columnName :: rest =>
    match dstColNames !! columnName with
    | None => Some (ErrInsertIntoNonexistentColumn columnName)
    | Some dstCol =>
      match Generated dstCol with
      | Some _ => Some (ErrGeneratedColumnValue (Name dstCol) tableName)
      | None =>
        if bool_decide (columnName ∈ usedNames)
        then Some (ErrInsertIntoDuplicateColumn columnName)
        else validateColumns_loop tableName dstColNames ({[columnName]} ∪ usedNames) rest
      end
    end
  end.

Definition validateColumns (tableName : string) (columnNames : list string)
  (dstSchema : Schema) : option error :=
  validateColumns_loop tableName (dstColNames_of dstSchema) ∅ columnNames.

(** *** validateValueCount *)

Definition unwrap_exchange (values : Node) : Node :=
  match values with
  | Exchange child => child
  | _ => values
  end.

Definition validateValueCount (columnNames : list string) (values : Node) : option error :=
  match unwrap_exchange values with
  | Values tuples =>
    if forallb (fun exprTuple => Nat.eqb (length exprTuple) (length columnNames)) tuples
    then None else Some ErrInsertIntoMismatchValueCount
  | LoadData dataCols schema =>
    let dataColLen := length dataCols in
    let dataColLen := if Nat.eqb dataColLen 0 then length schema else dataColLen in
    if negb (Nat.eqb (length columnNames) dataColLen)
    then Some ErrInsertIntoMismatchValueCount else None
  | other =>
    if negb (Nat.eqb (length columnNames) (length (NodeSchema other)))
    then Some ErrInsertIntoMismatchValueCount else None
  end.

(** *** validateRowSource, assertCompatibleSchemas *)

Definition assertCompatible_one (schema : Schema) (expr : Expr) : option error :=
  match expr with
  | Literal _ _ | AutoIncrement _ _ | ColumnDefaultValue _ => None
  | GetField index exprType _ _ =>
    match schema !! index with
    | Some otherCol =>
      if is_null_type (Type_ otherCol) then None
      else if converts_zero_of exprType (Type_ otherCol) then None
      else if is_enum_type exprType && is_text_type (Type_ otherCol) then None
      else Some (ErrInsertIntoIncompatibleTypes (type_string (Type_ otherCol))
                                                (type_string exprType))
    | None => Some PanicIndexOutOfRange
    end
  | other => Some (ErrInsertIntoUnsupportedValues other)
  end.

Fixpoint assertCompatibleSchemas (projExprs : list Expr) (schema : Schema)
  : option error :=
  match projExprs with
  | [] => None
  | expr :: rest =>
    match assertCompatible_one schema expr with
    | Some err => Some err
    | None => assertCompatibleSchemas rest schema
    end
  end.

Definition validateRowSource (values : Node) (projExprs : list Expr) : option error :=
  match unwrap_exchange values with
  | Values _ | LoadData _ _ => None
  | n => assertCompatibleSchemas projExprs (NodeSchema n)
  end.

(** *** wrapRowSource *)

(** The inner loop: the index of the first column name equal to the
    schema column's name up to case. *)
Fixpoint find_column (fname : string) (j : nat) (columnNames : list string) : option nat :=
  match columnNames with
  | [] => None
  | col :: rest => if EqualFold fname col then Some j else find_column fname (S j) rest
  end.

(** The default of an omitted column as the projection takes it: the
    column's default with the field indexes inside fixed. *)
Definition default_expr (destTbl : string) (schema : Schema) (f : Column) : Expr + error :=
  match fix_default_indexes schema destTbl (Default f) with
  | inr err => inr err
  | inl body => inl (ColumnDefaultValue body)
  end.

Definition is_nil_default (f : Column) : bool :=
  match Default f with None => true | Some _ => false end.

(** One round of the outer loop: the projection expression of column [f]. *)
Definition project_column (destTbl : string) (schema : Schema) (columnNames : list string)
  (f : Column) : Expr + error :=
  let found_or_default : Expr + error :=
    match find_column (Name f) 0 columnNames with
    | Some j => inl (GetField j (Type_ f) (Name f) (Nullable f))
    | None =>
      if negb (Nullable f) && is_nil_default f && negb (AutoIncrement_ f)
      then inr (ErrInsertIntoNonNullableDefaultNullColumn (Name f))
      else default_expr destTbl schema f
    end in
  match found_or_default with
  | inr err => inr err
  | inl e => if AutoIncrement_ f then NewAutoIncrement destTbl e else inl e
  end.

Fixpoint project_columns (destTbl : string) (schema : Schema) (columnNames : list string)
  (fs : list Column) : list Expr + error :=
  match fs with
  | [] => inl []
  | f :: rest =>
    match project_column destTbl schema columnNames f with
    | inr err => inr err
    | inl e =>
      match project_columns destTbl schema columnNames rest with
      | inr err => inr err
      | inl es => inl (e :: es)
      end
    end
  end.

Definition wrapRowSource (insertSource : Node) (destTbl : string) (schema : Schema)
  (columnNames : list string) : Project + error :=
  match project_columns destTbl schema columnNames schema with
  | inr err => inr err
  | inl projExprs =>
    match validateRowSource insertSource projExprs with
    | Some err => inr err
    | None => inl (mkProject projExprs insertSource)
    end
  end.

(** *** The checks of resolveInsertRows on an analyzed source *)
Definition resolveInsertRows_checks (tableName : string) (insertColumnNames : list string)
  (source : Node) (dstSchema destinationSchema : Schema) : Project + error :=
  let columnNames := map ToLower insertColumnNames in
  let '(columnNames, err) :=
    if Nat.eqb (length columnNames) 0 && existsNonZeroValueCount source
    then (map Name dstSchema, None)
    else (columnNames, validateColumns tableName columnNames dstSchema) in
  match err with
  | Some e => inr e
  | None =>
    match validateValueCount columnNames source with
    | Some e => inr e
    | None => wrapRowSource source tableName destinationSchema columnNames
    end
  end.

(** *** setInsertColumns

    The function the rule applies to every node of the tree; a node that
    is not an InsertInto is returned as it is. Of the destination the
    rule asks whether it is resolved, its name (when it is a
    sql.Nameable) and its schema. *)
Inductive TreeIdentity := SameTree | NewTree.

Record TableNode := mkTableNode {
  Resolved : bool;
  NameableName : option string;
  TableSchema : Schema
}.

Record InsertInto := mkInsertInto {
  Destination : TableNode;
  ColumnNames : list string;
  Source : Node
}.

(** The loop over the schema: the first generated column ends it. *)
Fixpoint all_column_names (tableName : string) (schema : Schema) : list string + error :=
  match schema with
  | [] => inl []
  | col :: rest =>
    match Generated col with
    | Some _ => inr (ErrGeneratedColumnValue (Name col) tableName)
    | None =>
      match all_column_names tableName rest with
      | inr err => inr err
      | inl colNames => inl (Name col :: colNames)
      end
    end
  end.

Definition setInsertColumns (ii : InsertInto) : InsertInto * TreeIdentity + error :=
  let destination := Destination ii in
  if negb (Resolved destination) then inl (ii, SameTree)
  else
    match NameableName destination with
    | None => inr (ErrOther "expected a sql.Nameable, got %T")
    | Some name =>
      if Nat.eqb (length (ColumnNames ii)) 0 then
        match all_column_names name (TableSchema destination) with
        | inr err => inr err
        | inl colNames => inl (mkInsertInto destination colNames (Source ii), NewTree)
        end
      else inl (ii, NewTree)
    end.

(** The projection expression that reads the source row at [j] for
    column [f], inside the increment generator for an auto-increment
    column. *)
Definition source_field (destTbl : string) (j : nat) (f : Column) : Expr :=
  let field := GetField j (Type_ f) (Name f) (Nullable f) in
  if AutoIncrement_ f then AutoIncrement destTbl field else field.

(** Position [j] exists in every row the source delivers, as
    validateValueCount reads the width of its rows. *)
Definition reads_within (j : nat) (source : Node) : Prop :=
  match unwrap_exchange source with
  | Values tuples => forall exprTuple, exprTuple ∈ tuples -> (j < length exprTuple)%nat
  | LoadData dataCols schema =>
    (j < if Nat.eqb (length dataCols) 0 then length schema else length dataCols)%nat
  | other => (j < length (NodeSchema other))%nat
  end.

(** The position of the source row that a slot of the projection reads:
    that of a field, bare or inside the increment generator. *)
Definition source_position (e : Expr) : option nat :=
  match e with
  | GetField j _ _ _ | AutoIncrement _ (GetField j _ _ _) => Some j
  | _ => None
  end.

Definition reads_below (width : nat) (e : Expr) : Prop :=
  match source_position e with
  | Some j => (j < width)%nat
  | None => True
  end.

(** The column that validateColumns finds under a lower-cased name: the
    last column of the schema whose lower-cased name it is. *)
Fixpoint last_named (dstSchema : Schema) (columnName : string) : option Column :=
  match dstSchema with
  | [] => None
  | dstCol :: rest =>
    match last_named rest columnName with
    | Some later => Some later
    | None => if bool_decide (ToLower (Name dstCol) = columnName) then Some dstCol else None
    end
  end.

(** The calls wrapRowSource makes outside the rule succeed: the rewrite
    of every default, and the making of the increment generator. *)
Definition calls_succeed (destTbl : string) (schema : Schema) : Prop :=
  (forall d, exists body, fix_default_indexes schema destTbl d = inl body) /\
  auto_increment_refused destTbl = None.

(** A source that hands over its rows as they are, a VALUES list or a
    LOAD DATA (also inside an Exchange): validateRowSource has nothing to
    check on it. *)
Definition rows_given (source : Node) : Prop :=
  match unwrap_exchange source with
  | Values _ | LoadData _ _ => True
  | _ => False
  end.

(** *** Words of the specification *)

(** The column list omits column [f]. *)
Definition omitted (columnNames : list string) (f : Column) : Prop :=
  forall col, col ∈ columnNames -> EqualFold (Name f) col = false.

(** An omitted column that cannot be filled: NOT NULL, no default, not
    auto-increment. *)
Definition unfillable (f : Column) : Prop :=
  Nullable f = false /\ Default f = None /\ AutoIncrement_ f = false.

(** The width of the rows a source delivers, as validateValueCount reads
    it, and the mismatch with the insert column list. *)
Definition SourceWidthMismatch (columnNames : list string) (values : Node) : Prop :=
  match unwrap_exchange values with
  | Values tuples => exists exprTuple, exprTuple ∈ tuples /\ length exprTuple <> length columnNames
  | LoadData dataCols schema =>
    (if Nat.eqb (length dataCols) 0 then length schema else length dataCols)
      <> length columnNames
  | other => length (NodeSchema other) <> length columnNames
  end.

(** *** validateValueCount *)

Lemma forallb_false_elem {A : Type} (f : A -> bool) (l : list A) :
  forallb f l = false <-> exists x, x ∈ l /\ f x = false.
Proof.
  induction l as [|a l IH]; simpl.
  - split; [discriminate | intros (x & Hx & _); inversion Hx].
  - rewrite andb_false_iff, IH. split.
    + intros [Ha | (x & Hx & Hfx)].
      * exists a. split; [left | exact Ha].
      * exists x. split; [right; exact Hx | exact Hfx].
    + intros (x & Hx & Hfx). apply elem_of_cons in Hx as [-> | Hx]; eauto.
Qed.

Lemma validateValueCount_result (columnNames : list string) (values : Node) :
  validateValueCount columnNames values = None \/
  validateValueCount columnNames values = Some ErrInsertIntoMismatchValueCount.
Proof.
  unfold validateValueCount.
  destruct (unwrap_exchange values); repeat case_match; auto.
Qed.

Lemma validateValueCount_fails (columnNames : list string) (values : Node) :
  validateValueCount columnNames values = Some ErrInsertIntoMismatchValueCount
  <-> SourceWidthMismatch columnNames values.
Proof.
  unfold validateValueCount, SourceWidthMismatch.
  destruct (unwrap_exchange values) as [tuples|dataCols schema|child|schema].
  - destruct (forallb _ tuples) eqn:Hall.
    + split; [discriminate|]. intros (t & Ht & Hlen).
      rewrite forallb_forall in Hall.
      apply list_elem_of_In in Ht. apply Hall in Ht.
      apply Nat.eqb_eq in Ht. contradiction.
    + split; [intros _ | reflexivity].
      apply forallb_false_elem in Hall as (t & Ht & Hlen).
      exists t. split; [exact Ht|]. apply Nat.eqb_neq. exact Hlen.
  - destruct (Nat.eqb_spec (length columnNames)
                (if Nat.eqb (length dataCols) 0 then length schema else length dataCols))
      as [Heq|Hne]; simpl.
    + split; [discriminate | intros Hm; simpl in *; congruence].
    + split; [intros _; simpl in *; congruence | reflexivity].
  - destruct (Nat.eqb_spec (length columnNames) (length (NodeSchema (Exchange child))))
      as [Heq|Hne]; simpl.
    + split; [discriminate | intros Hm; simpl in *; congruence].
    + split; [intros _; simpl in *; congruence | reflexivity].
  - destruct (Nat.eqb_spec (length columnNames) (length (NodeSchema (Select schema))))
      as [Heq|Hne]; simpl.
    + split; [discriminate | intros Hm; simpl in *; congruence].
    + split; [intros _; simpl in *; congruence | reflexivity].
Qed.

(** C8. The value-count check fails with ErrInsertIntoMismatchValueCount if
    and only if the source row width mismatches the insert column list: a
    VALUES tuple whose length differs from the number of insert columns, a
    LOAD DATA column count that differs, or any other source whose output
    schema width differs; otherwise the check passes. *)
Theorem validateValueCount_iff_width_mismatch (columnNames : list string) (values : Node) :
  (validateValueCount columnNames values = Some ErrInsertIntoMismatchValueCount
     <-> SourceWidthMismatch columnNames values) /\
  (validateValueCount columnNames values = None
     <-> ~ SourceWidthMismatch columnNames values).
Proof.
  split; [apply validateValueCount_fails|].
  rewrite <- validateValueCount_fails.
  destruct (validateValueCount_result columnNames values) as [-> | ->].
  - split; [intros _; discriminate | reflexivity].
  - split; [discriminate | intros Hn; exfalso; apply Hn; reflexivity].
Qed.

(** existsNonZeroValueCount is false exactly on a VALUES list all of
    whose tuples are empty. *)
Theorem existsNonZeroValueCount_false (values : Node) :
  existsNonZeroValueCount values = false
  <-> exists tuples, values = Values tuples /\ Forall (fun t => t = []) tuples.
Proof.
  destruct values as [tuples|dataCols schema|child|schema]; simpl;
    try (split; [discriminate | intros (t & Heq & _); discriminate]).
  split.
  - intros Hnone. exists tuples. split; [reflexivity|].
    induction tuples as [|t ts IH]; [constructor|].
    simpl in Hnone. apply orb_false_iff in Hnone as [Ht Hts].
    constructor; [|apply IH; exact Hts].
    destruct t; [reflexivity | discriminate].
  - intros (ts & Heq & Hall). injection Heq as <-.
    induction Hall as [|t ts Ht _ IH]; [reflexivity|].
    simpl. subst t. exact IH.
Qed.

(** *** wrapRowSource *)

Lemma find_column_None (fname : string) (columnNames : list string) (j : nat) :
  find_column fname j columnNames = None
  <-> forall col, col ∈ columnNames -> EqualFold fname col = false.
Proof.
  revert j. induction columnNames as [|c rest IH]; intros j; simpl.
  - split; [intros _ col Hc; inversion Hc | reflexivity].
  - destruct (EqualFold fname c) eqn:Hc.
    + split; [discriminate|]. intros Hall.
      specialize (Hall c (list_elem_of_here _ _)). congruence.
    + rewrite IH. split.
      * intros Hall col Hin. apply elem_of_cons in Hin as [-> | Hin]; auto.
      * intros Hall col Hin. apply Hall. right. exact Hin.
Qed.

Lemma project_column_unfillable (destTbl : string) (schema : Schema)
  (columnNames : list string) (f : Column) :
  omitted columnNames f -> unfillable f ->
  project_column destTbl schema columnNames f
  = inr (ErrInsertIntoNonNullableDefaultNullColumn (Name f)).
Proof.
  intros Hom (Hn & Hd & Ha). unfold project_column, is_nil_default.
  rewrite (proj2 (find_column_None (Name f) columnNames 0) Hom).
  rewrite Hn, Hd, Ha. reflexivity.
Qed.

(** The round of an omitted column that can be filled, when the calls it
    makes succeed. *)
Lemma project_column_default (destTbl : string) (schema : Schema)
  (columnNames : list string) (f : Column) (body : option Expr) :
  omitted columnNames f -> ~ unfillable f ->
  fix_default_indexes schema destTbl (Default f) = inl body ->
  (AutoIncrement_ f = true -> auto_increment_refused destTbl = None) ->
  project_column destTbl schema columnNames f
  = inl (if AutoIncrement_ f
         then AutoIncrement destTbl (ColumnDefaultValue body)
         else ColumnDefaultValue body).
Proof.
  intros Hom Hfill Hfix Hai. unfold project_column, is_nil_default, default_expr.
  rewrite (proj2 (find_column_None (Name f) columnNames 0) Hom).
  destruct (negb (Nullable f) && _ && negb (AutoIncrement_ f)) eqn:Hbad.
  - exfalso. apply Hfill. unfold unfillable.
    apply andb_true_iff in Hbad as [Hbad Ha]. apply andb_true_iff in Hbad as [Hn Hd].
    apply negb_true_iff in Hn, Ha. destruct (Default f); [discriminate|]. auto.
  - rewrite Hfix. unfold NewAutoIncrement.
    destruct (AutoIncrement_ f); [rewrite Hai by reflexivity|]; reflexivity.
Qed.

(** Reading a successful round back: the slot of an omitted column. *)
Lemma project_column_omitted_inv (destTbl : string) (schema : Schema)
  (columnNames : list string) (f : Column) (e : Expr) :
  omitted columnNames f ->
  project_column destTbl schema columnNames f = inl e ->
  ~ unfillable f /\
  exists body,
    fix_default_indexes schema destTbl (Default f) = inl body /\
    e = if AutoIncrement_ f
        then AutoIncrement destTbl (ColumnDefaultValue body)
        else ColumnDefaultValue body.
Proof.
  intros Hom. unfold project_column, is_nil_default, default_expr.
  rewrite (proj2 (find_column_None (Name f) columnNames 0) Hom).
  destruct (negb (Nullable f) && _ && negb (AutoIncrement_ f)) eqn:Hbad; [discriminate|].
  intros Hok. split.
  - intros (Hn & Hd & Ha). rewrite Hn, Hd, Ha in Hbad. discriminate.
  - destruct (fix_default_indexes schema destTbl (Default f)) as [body|err]; [|discriminate].
    exists body. split; [reflexivity|].
    destruct (AutoIncrement_ f).
    + unfold NewAutoIncrement in Hok.
      destruct (auto_increment_refused destTbl); [discriminate|]. congruence.
    + congruence.
Qed.

Lemma project_columns_app_fail (destTbl : string) (schema : Schema)
  (columnNames : list string) (pre post : list Column) (f : Column)
  (es : list Expr) (err : error) :
  project_columns destTbl schema columnNames pre = inl es ->
  project_column destTbl schema columnNames f = inr err ->
  project_columns destTbl schema columnNames (pre ++ f :: post) = inr err.
Proof.
  revert es. induction pre as [|g pre IH]; intros es Hpre Hf; simpl in *.
  - rewrite Hf. reflexivity.
  - destruct (project_column destTbl schema columnNames g) as [e|]; [|discriminate].
    destruct (project_columns destTbl schema columnNames pre) as [es'|]; [|discriminate].
    rewrite (IH es' eq_refl Hf). reflexivity.
Qed.

Lemma project_columns_fail (destTbl : string) (schema : Schema)
  (columnNames : list string) (fs : list Column) (f : Column) (err : error) :
  f ∈ fs ->
  project_column destTbl schema columnNames f = inr err ->
  exists err', project_columns destTbl schema columnNames fs = inr err'.
Proof.
  induction fs as [|g fs IH]; intros Hin Hf; [inversion Hin|]. simpl.
  apply elem_of_cons in Hin as [<- | Hin].
  - rewrite Hf. eauto.
  - destruct (project_column destTbl schema columnNames g) as [e|e]; [|eauto].
    destruct (IH Hin Hf) as [err' ->]. eauto.
Qed.

Lemma project_columns_ok (destTbl : string) (schema : Schema)
  (columnNames : list string) (fs : list Column) (es : list Expr) :
  project_columns destTbl schema columnNames fs = inl es ->
  length es = length fs /\
  forall i f, fs !! i = Some f ->
    exists e, es !! i = Some e /\ project_column destTbl schema columnNames f = inl e.
Proof.
  revert es. induction fs as [|g fs IH]; intros es Hok; simpl in Hok.
  - injection Hok as <-. split; [reflexivity|]. intros i f Hi. rewrite lookup_nil in Hi.
    discriminate.
  - destruct (project_column destTbl schema columnNames g) as [e|] eqn:Hg; [|discriminate].
    destruct (project_columns destTbl schema columnNames fs) as [es'|]; [|discriminate].
    injection Hok as <-. destruct (IH es' eq_refl) as [Hlen Hall].
    split; [simpl; congruence|].
    intros [|i] f Hi; simpl in Hi |- *.
    + injection Hi as <-. eauto.
    + apply Hall. exact Hi.
Qed.

(** *** validateColumns *)

Lemma validateColumns_loop_app (tableName : string) (m : gmap string Column)
  (pre rest : list string) (used : gset string) :
  validateColumns_loop tableName m used pre = None ->
  validateColumns_loop tableName m used (pre ++ rest)
  = validateColumns_loop tableName m (list_to_set pre ∪ used) rest.
Proof.
  revert used. induction pre as [|c pre IH]; intros used Hpre; simpl in *.
  - f_equal. set_solver.
  - destruct (m !! c) as [dstCol|]; [|discriminate].
    destruct (Generated dstCol); [discriminate|].
    case_bool_decide; [discriminate|].
    rewrite (IH _ Hpre). f_equal. set_solver.
Qed.

Lemma validateColumns_loop_generated (tableName : string) (m : gmap string Column)
  (cols : list string) (used : gset string) (g : string) (c : Column) :
  g ∈ cols -> m !! g = Some c -> Generated c <> None ->
  exists err, validateColumns_loop tableName m used cols = Some err.
Proof.
  revert used. induction cols as [|x cols IH]; intros used Hin Hg Hgen; [inversion Hin|].
  simpl. apply elem_of_cons in Hin as [<- | Hin].
  - rewrite Hg. destruct (Generated c); [eauto | contradiction].
  - destruct (m !! x) as [dstCol|]; [|eauto].
    destruct (Generated dstCol); [eauto|].
    case_bool_decide; [eauto|]. apply IH; assumption.
Qed.

Lemma validateColumns_loop_None (tableName : string) (m : gmap string Column)
  (cols : list string) (used : gset string) :
  validateColumns_loop tableName m used cols = None
  <-> NoDup cols /\
      (forall c, c ∈ cols -> c ∉ used) /\
      Forall (fun c => exists col, m !! c = Some col /\ Generated col = None) cols.
Proof.
  revert used. induction cols as [|x cols IH]; intros used; simpl.
  - split; [intros _ | reflexivity].
    split; [constructor|]. split; [intros c Hc; inversion Hc | constructor].
  - destruct (m !! x) as [col|] eqn:Hx.
    + destruct (Generated col) eqn:Hg.
      * split; [discriminate|]. intros (_ & _ & Hall).
        apply Forall_cons in Hall as [(col' & Hcol' & Hg') _]. congruence.
      * case_bool_decide as Hused.
        -- split; [discriminate|]. intros (_ & Hfresh & _).
           exfalso. apply (Hfresh x); [left | exact Hused].
        -- rewrite IH. split.
           ++ intros (Hnd & Hfresh & Hall). split; [|split].
              ** constructor; [|exact Hnd]. intros Hin. apply (Hfresh x Hin). set_solver.
              ** intros c Hc. apply elem_of_cons in Hc as [-> | Hc]; [exact Hused|].
                 intros Hcu. apply (Hfresh c Hc). set_solver.
              ** constructor; [eauto | exact Hall].
           ++ intros (Hnd & Hfresh & Hall). apply NoDup_cons in Hnd as [Hx' Hnd].
              apply Forall_cons in Hall as [_ Hall]. split; [exact Hnd|]. split; [|exact Hall].
              intros c Hc Hcu. apply elem_of_union in Hcu as [Hcx | Hcu].
              ** apply elem_of_singleton in Hcx. subst c. contradiction.
              ** apply (Hfresh c); [right; exact Hc | exact Hcu].
    + split; [discriminate|]. intros (_ & _ & Hall).
      apply Forall_cons in Hall as [(col' & Hcol' & _) _]. congruence.
Qed.

Lemma dstColNames_of_last_named (dstSchema : Schema) (columnName : string) :
  dstColNames_of dstSchema !! columnName = last_named dstSchema columnName.
Proof.
  unfold dstColNames_of.
  assert (Hgen : forall (m : gmap string Column),
            foldl (fun m dstCol => <[ToLower (Name dstCol) := dstCol]> m) m dstSchema
              !! columnName
            = match last_named dstSchema columnName with
              | Some c => Some c
              | None => m !! columnName
              end).
  { induction dstSchema as [|d ds IH]; intros m; [reflexivity|].
    simpl. rewrite IH. destruct (last_named ds columnName); [reflexivity|].
    case_bool_decide as Hd.
    - rewrite <- Hd. apply lookup_insert_eq.
    - apply lookup_insert_ne. exact Hd. }
  rewrite Hgen. destruct (last_named dstSchema columnName); [reflexivity|].
  apply lookup_empty.
Qed.


(** The name map of a schema whose names differ up to case holds every
    column under its lower-case name. *)
Lemma dstColNames_of_lookup (dstSchema : Schema) (c : Column) :
  NoDup (map (fun d => ToLower (Name d)) dstSchema) ->
  c ∈ dstSchema ->
  dstColNames_of dstSchema !! ToLower (Name c) = Some c.
Proof.
  unfold dstColNames_of.
  assert (Hgen : forall (m : gmap string Column),
            NoDup (map (fun d => ToLower (Name d)) dstSchema) ->
            c ∈ dstSchema ->
            foldl (fun m dstCol => <[ToLower (Name dstCol) := dstCol]> m) m dstSchema
              !! ToLower (Name c) = Some c).
  { induction dstSchema as [|d ds IH]; intros m Hnd Hin; [inversion Hin|].
    simpl in *. apply NoDup_cons in Hnd as [Hd Hnd].
    apply elem_of_cons in Hin as [-> | Hin].
    - clear IH. revert m. induction ds as [|d' ds IH]; intros m; simpl.
      + apply lookup_insert_eq.
      + apply not_elem_of_cons in Hd as [Hne Hd]. apply NoDup_cons in Hnd as [_ Hnd].
        rewrite insert_insert_ne by congruence. apply IH; assumption.
    - apply IH; assumption. }
  apply Hgen.
Qed.

Lemma project_column_outcome (destTbl : string) (schema : Schema)
  (columnNames : list string) (f : Column) :
  calls_succeed destTbl schema ->
  (exists e, project_column destTbl schema columnNames f = inl e) \/
  (omitted columnNames f /\ unfillable f /\
   project_column destTbl schema columnNames f
   = inr (ErrInsertIntoNonNullableDefaultNullColumn (Name f))).
Proof.
  intros [Hfix Hai]. unfold project_column, default_expr, NewAutoIncrement, is_nil_default.
  rewrite Hai.
  destruct (find_column (Name f) 0 columnNames) as [j|] eqn:Hj.
  - left. destruct (AutoIncrement_ f); eauto.
  - pose proof (proj1 (find_column_None (Name f) columnNames 0) Hj) as Hom.
    destruct (negb (Nullable f) && _ && negb (AutoIncrement_ f)) eqn:Hbad.
    + right. split; [exact Hom|]. split; [|reflexivity].
      apply andb_true_iff in Hbad as [Hbad Ha]. apply andb_true_iff in Hbad as [Hn Hd].
      apply negb_true_iff in Hn, Ha. unfold unfillable.
      destruct (Default f); [discriminate|]. auto.
    + left. destruct (Hfix (Default f)) as [body ->].
      destruct (AutoIncrement_ f); eauto.
Qed.

Lemma project_columns_outcome (destTbl : string) (schema : Schema)
  (columnNames : list string) (fs : list Column) :
  calls_succeed destTbl schema ->
  (exists es, project_columns destTbl schema columnNames fs = inl es) \/
  (exists g, g ∈ fs /\ omitted columnNames g /\ unfillable g /\
     project_columns destTbl schema columnNames fs
     = inr (ErrInsertIntoNonNullableDefaultNullColumn (Name g))).
Proof.
  intros Hcalls. induction fs as [|f fs IH]; simpl; [eauto|].
  destruct (project_column_outcome destTbl schema columnNames f Hcalls)
    as [[e ->] | (Hom & Hbad & ->)].
  - destruct IH as [[es ->] | (g & Hg & Hom & Hbad & ->)]; [eauto|].
    right. exists g. split; [right; exact Hg|]. split; [exact Hom|].
    split; [exact Hbad | reflexivity].
  - right. exists f. split; [left|]. split; [exact Hom|].
    split; [exact Hbad | reflexivity].
Qed.


(** *** setInsertColumns *)

Lemma all_column_names_result (tableName : string) (schema : Schema) :
  match all_column_names tableName schema with
  | inl colNames =>
    (forall c, c ∈ schema -> Generated c = None) /\ colNames = map Name schema
  | inr err =>
    exists pre c post,
      schema = pre ++ c :: post /\
      (forall c', c' ∈ pre -> Generated c' = None) /\
      Generated c <> None /\
      err = ErrGeneratedColumnValue (Name c) tableName
  end.
Proof.
  induction schema as [|col rest IH]; simpl.
  - split; [intros c Hc; inversion Hc | reflexivity].
  - destruct (Generated col) as [g|] eqn:Hg.
    + exists [], col, rest. repeat split; [intros c' Hc'; inversion Hc' | congruence].
    + destruct (all_column_names tableName rest) as [colNames|err].
      * destruct IH as [Hall ->]. split; [|reflexivity].
        intros c Hc. apply elem_of_cons in Hc as [-> | Hc]; auto.
      * destruct IH as (pre & c & post & -> & Hpre & Hc & ->).
        exists (col :: pre), c, post. repeat split; [|exact Hc].
        intros c' Hc'. apply elem_of_cons in Hc' as [-> | Hc']; auto.
Qed.

(** An INSERT without a column list into a resolved, named destination:
    setInsertColumns fills in the names of all the columns, in schema
    order, when no column is generated, and otherwise fails with
    ErrGeneratedColumnValue for the first generated column. *)
Theorem setInsertColumns_without_column_list (ii : InsertInto) (name : string) :
  Resolved (Destination ii) = true ->
  NameableName (Destination ii) = Some name ->
  ColumnNames ii = [] ->
  match setInsertColumns ii with
  | inl (ii', identity) =>
    (forall c, c ∈ TableSchema (Destination ii) -> Generated c = None) /\
    ii' = mkInsertInto (Destination ii) (map Name (TableSchema (Destination ii))) (Source ii) /\
    identity = NewTree
  | inr err =>
    exists pre c post,
      TableSchema (Destination ii) = pre ++ c :: post /\
      (forall c', c' ∈ pre -> Generated c' = None) /\
      Generated c <> None /\
      err = ErrGeneratedColumnValue (Name c) name
  end.
Proof.
  intros Hres Hname Hcols. unfold setInsertColumns. rewrite Hres, Hname, Hcols. simpl.
  pose proof (all_column_names_result name (TableSchema (Destination ii))) as Hloop.
  destruct (all_column_names name (TableSchema (Destination ii))) as [colNames|err].
  - destruct Hloop as [Hall ->]. auto.
  - exact Hloop.
Qed.

(** setInsertColumns changes nothing the second time: what it returns is
    returned as it is, with the same tree identity, when the rule is
    applied again. *)
Theorem setInsertColumns_idempotent (ii ii' : InsertInto) (identity : TreeIdentity) :
  setInsertColumns ii = inl (ii', identity) ->
  setInsertColumns ii' = inl (ii', identity).
Proof.
  unfold setInsertColumns.
  destruct (Resolved (Destination ii)) eqn:Hres; simpl.
  - destruct (NameableName (Destination ii)) as [name|] eqn:Hname; [|discriminate].
    destruct (Nat.eqb_spec (length (ColumnNames ii)) 0) as [Hlen|Hlen].
    + destruct (all_column_names name (TableSchema (Destination ii)))
        as [colNames|err] eqn:Hloop; [|discriminate].
      intros Hok. injection Hok as <- <-. simpl. rewrite Hres, Hname. simpl.
      destruct colNames as [|c colNames]; [|reflexivity].
      simpl. rewrite Hloop. reflexivity.
    + intros Hok. injection Hok as <- <-. rewrite Hres, Hname. simpl.
      destruct (Nat.eqb_spec (length (ColumnNames ii)) 0); [contradiction | reflexivity].
  - intros Hok. injection Hok as <- <-. rewrite Hres. reflexivity.
Qed.

(** The column list setInsertColumns fills in passes the column check of
    resolveInsertRows, which lower-cases it first, exactly when the
    names of the destination's columns differ up to case. *)
Theorem setInsertColumns_then_validateColumns (ii ii' : InsertInto)
  (identity : TreeIdentity) (name : string) :
  Resolved (Destination ii) = true ->
  NameableName (Destination ii) = Some name ->
  ColumnNames ii = [] ->
  setInsertColumns ii = inl (ii', identity) ->
  validateColumns name (map ToLower (ColumnNames ii')) (TableSchema (Destination ii)) = None
  <-> NoDup (map (fun c => ToLower (Name c)) (TableSchema (Destination ii))).
Proof.
  intros Hres Hname Hcols Hok. unfold setInsertColumns in Hok.
  rewrite Hres, Hname, Hcols in Hok. simpl in Hok.
  pose proof (all_column_names_result name (TableSchema (Destination ii))) as Hloop.
  destruct (all_column_names name (TableSchema (Destination ii))) as [colNames|err];
    [|discriminate].
  injection Hok as <- _. destruct Hloop as [Hall ->]. simpl.
  set (schema := TableSchema (Destination ii)) in *.
  unfold validateColumns. rewrite validateColumns_loop_None.
  replace (map ToLower (map Name schema)) with (map (fun c => ToLower (Name c)) schema)
    by (rewrite map_map; reflexivity).
  split; [intros (Hnd & _); exact Hnd|].
  intros Hnd. split; [exact Hnd|]. split; [intros c _; apply not_elem_of_empty|].
  apply Forall_forall. intros lname Hin.
  apply list_elem_of_fmap in Hin as (c & -> & Hc).
  exists c. split; [apply dstColNames_of_lookup; assumption | apply Hall; exact Hc].
Qed.

(** *** The source positions of the projection *)

Lemma find_column_first (fname : string) (columnNames : list string) (k j : nat)
  (col : string) :
  columnNames !! j = Some col ->
  EqualFold fname col = true ->
  (forall j' col', (j' < j)%nat -> columnNames !! j' = Some col' ->
     EqualFold fname col' = false) ->
  find_column fname k columnNames = Some (k + j)%nat.
Proof.
  revert k j. induction columnNames as [|c rest IH]; intros k j Hj Heq Hfirst.
  - rewrite lookup_nil in Hj. discriminate.
  - simpl. destruct j as [|j]; simpl in Hj.
    + injection Hj as ->. rewrite Heq. f_equal. lia.
    + rewrite (Hfirst 0%nat c) by first [lia | reflexivity].
      rewrite (IH (S k) j Hj Heq).
      * f_equal. lia.
      * intros j' col' Hlt Hj'. apply (Hfirst (S j') col'); [lia | exact Hj'].
Qed.

Lemma find_column_bound (fname : string) (columnNames : list string) (k r : nat) :
  find_column fname k columnNames = Some r ->
  (k <= r < k + length columnNames)%nat.
Proof.
  revert k. induction columnNames as [|c rest IH]; intros k; simpl; [discriminate|].
  destruct (EqualFold fname c).
  - intros Hr. injection Hr as <-. lia.
  - intros Hr. apply IH in Hr. lia.
Qed.

Lemma project_column_listed (destTbl : string) (schema : Schema)
  (columnNames : list string) (f : Column) (j : nat) (e : Expr) :
  find_column (Name f) 0 columnNames = Some j ->
  project_column destTbl schema columnNames f = inl e ->
  e = source_field destTbl j f.
Proof.
  intros Hj. unfold project_column, source_field. rewrite Hj.
  destruct (AutoIncrement_ f); [|congruence].
  unfold NewAutoIncrement. destruct (auto_increment_refused destTbl); congruence.
Qed.

(** In the projection wrapRowSource builds, the slot of a destination
    column that the column list names reads the source row at the
    position of the first name that equals the column's name up to
    case, inside the increment generator if the column is
    auto-increment. *)
Theorem wrapRowSource_listed_column (src : Node) (destTbl : string) (schema : Schema)
  (columnNames : list string) (p : Project) (i j : nat) (f : Column) (col : string) :
  wrapRowSource src destTbl schema columnNames = inl p ->
  schema !! i = Some f ->
  columnNames !! j = Some col ->
  EqualFold (Name f) col = true ->
  (forall j' col', (j' < j)%nat -> columnNames !! j' = Some col' ->
     EqualFold (Name f) col' = false) ->
  Projections p !! i = Some (source_field destTbl j f).
Proof.
  intros Hp Hi Hj Heq Hfirst. unfold wrapRowSource in Hp.
  destruct (project_columns destTbl schema columnNames schema) as [es|] eqn:Hes;
    [|discriminate].
  destruct (validateRowSource src es); [discriminate|].
  injection Hp as <-. simpl.
  destruct (project_columns_ok destTbl schema columnNames schema es Hes) as [_ Hall].
  destruct (Hall i f Hi) as (e & -> & He). f_equal.
  apply (project_column_listed destTbl schema columnNames f j e); [|exact He].
  apply (find_column_first (Name f) columnNames 0 j col); assumption.
Qed.

Lemma project_column_reads_below (destTbl : string) (schema : Schema)
  (columnNames : list string) (f : Column) (e : Expr) :
  project_column destTbl schema columnNames f = inl e ->
  reads_below (length columnNames) e.
Proof.
  destruct (find_column (Name f) 0 columnNames) as [j|] eqn:Hj.
  - intros He. rewrite (project_column_listed destTbl schema columnNames f j e Hj He).
    apply find_column_bound in Hj. unfold source_field, reads_below.
    destruct (AutoIncrement_ f); simpl; lia.
  - unfold project_column. rewrite Hj.
    destruct (negb (Nullable f) && is_nil_default f && negb (AutoIncrement_ f));
      [discriminate|].
    unfold default_expr.
    destruct (fix_default_indexes schema destTbl (Default f)) as [body|]; [|discriminate].
    destruct (AutoIncrement_ f).
    + unfold NewAutoIncrement. destruct (auto_increment_refused destTbl); [discriminate|].
      intros He. injection He as <-. exact I.
    + intros He. injection He as <-. exact I.
Qed.

Lemma project_columns_reads_below (destTbl : string) (schema : Schema)
  (columnNames : list string) (fs : list Column) (es : list Expr) :
  project_columns destTbl schema columnNames fs = inl es ->
  Forall (reads_below (length columnNames)) es.
Proof.
  revert es. induction fs as [|f fs IH]; intros es; simpl.
  - intros Hes. injection Hes as <-. constructor.
  - destruct (project_column destTbl schema columnNames f) as [e|] eqn:He; [|discriminate].
    destruct (project_columns destTbl schema columnNames fs) as [es'|]; [|discriminate].
    intros Hes. injection Hes as <-.
    constructor; [eapply project_column_reads_below; exact He | apply IH; reflexivity].
Qed.

Lemma project_columns_error (destTbl : string) (schema : Schema)
  (columnNames : list string) (fs : list Column) (err : error) :
  project_columns destTbl schema columnNames fs = inr err ->
  exists f, f ∈ fs /\ project_column destTbl schema columnNames f = inr err.
Proof.
  induction fs as [|f fs IH]; simpl; [discriminate|].
  destruct (project_column destTbl schema columnNames f) as [e|err'] eqn:He.
  - destruct (project_columns destTbl schema columnNames fs) as [es'|err']; [discriminate|].
    intros Herr. injection Herr as ->. destruct (IH eq_refl) as (g & Hg & Hgerr).
    exists g. split; [right; exact Hg | exact Hgerr].
  - intros Herr. injection Herr as ->. exists f. split; [left | exact He].
Qed.

Lemma assertCompatibleSchemas_in_range (projExprs : list Expr) (schema : Schema) :
  Forall (reads_below (length schema)) projExprs ->
  assertCompatibleSchemas projExprs schema <> Some PanicIndexOutOfRange.
Proof.
  induction 1 as [|e es He _ IH]; simpl; [discriminate|].
  destruct (assertCompatible_one schema e) as [err|] eqn:Hone; [|exact IH].
  intros Hpanic. injection Hpanic as ->.
  destruct e as [j typ name nullable| | | |]; try (simpl in Hone; discriminate).
  unfold reads_below in He. simpl in He.
  unfold assertCompatible_one in Hone.
  destruct (schema !! j) as [otherCol|] eqn:HotherCol.
  - repeat case_match; discriminate.
  - apply lookup_ge_None in HotherCol. unfold Schema in *. lia.
Qed.

Lemma validateColumns_loop_error (tableName : string) (m : gmap string Column)
  (cols : list string) (used : gset string) :
  validateColumns_loop tableName m used cols <> Some PanicIndexOutOfRange.
Proof.
  revert used. induction cols as [|c cols IH]; intros used; simpl; [discriminate|].
  repeat case_match; try discriminate. apply IH.
Qed.

(** What the value-count check has compared when it passes. *)
Lemma validateValueCount_width (columnNames : list string) (source : Node) :
  validateValueCount columnNames source = None ->
  match unwrap_exchange source with
  | Values tuples =>
    forall exprTuple, exprTuple ∈ tuples -> length exprTuple = length columnNames
  | LoadData dataCols schema =>
    (if Nat.eqb (length dataCols) 0 then length schema else length dataCols)
    = length columnNames
  | other => length (NodeSchema other) = length columnNames
  end.
Proof.
  unfold validateValueCount.
  destruct (unwrap_exchange source) as [tuples|dataCols schema|child|schema].
  - destruct (forallb _ tuples) eqn:Hall; [|discriminate].
    intros _ exprTuple Hin. rewrite forallb_forall in Hall.
    apply list_elem_of_In in Hin. apply Hall in Hin. apply Nat.eqb_eq in Hin. exact Hin.
  - destruct (Nat.eqb_spec (length columnNames)
                (if Nat.eqb (length dataCols) 0 then length schema else length dataCols))
      as [Heq|Hne]; simpl; [|discriminate].
    intros _. symmetry. exact Heq.
  - destruct (Nat.eqb_spec (length columnNames) (length (NodeSchema (Exchange child))))
      as [Heq|Hne]; simpl; [|discriminate].
    intros _. symmetry. exact Heq.
  - destruct (Nat.eqb_spec (length columnNames) (length (NodeSchema (Select schema))))
      as [Heq|Hne]; simpl; [|discriminate].
    intros _. symmetry. exact Heq.
Qed.

Lemma validateValueCount_reads_within (columnNames : list string) (source : Node) (j : nat) :
  validateValueCount columnNames source = None ->
  (j < length columnNames)%nat ->
  reads_within j source.
Proof.
  intros Hcount Hj. apply validateValueCount_width in Hcount. unfold reads_within.
  destruct (unwrap_exchange source) as [tuples|dataCols schema|child|schema].
  - intros exprTuple Hin. rewrite (Hcount exprTuple Hin). exact Hj.
  - rewrite Hcount. exact Hj.
  - rewrite Hcount. exact Hj.
  - rewrite Hcount. exact Hj.
Qed.

Lemma project_column_error (destTbl : string) (schema : Schema)
  (columnNames : list string) (f : Column) :
  (forall s t d, fix_default_indexes s t d <> inr PanicIndexOutOfRange) ->
  auto_increment_refused destTbl <> Some PanicIndexOutOfRange ->
  project_column destTbl schema columnNames f <> inr PanicIndexOutOfRange.
Proof.
  intros Hfix Hai. unfold project_column, default_expr, NewAutoIncrement.
  destruct (find_column (Name f) 0 columnNames).
  - destruct (AutoIncrement_ f); [|discriminate].
    destruct (auto_increment_refused destTbl); congruence.
  - destruct (negb (Nullable f) && is_nil_default f && negb (AutoIncrement_ f));
      [discriminate|].
    pose proof (Hfix schema destTbl (Default f)) as Hd.
    destruct (fix_default_indexes schema destTbl (Default f)) as [body|err];
      [|congruence].
    destruct (AutoIncrement_ f); [|discriminate].
    destruct (auto_increment_refused destTbl); congruence.
Qed.

Lemma wrapRowSource_index_in_range (source : Node) (destTbl : string) (schema : Schema)
  (columnNames : list string) :
  (forall s t d, fix_default_indexes s t d <> inr PanicIndexOutOfRange) ->
  auto_increment_refused destTbl <> Some PanicIndexOutOfRange ->
  validateValueCount columnNames source = None ->
  wrapRowSource source destTbl schema columnNames <> inr PanicIndexOutOfRange.
Proof.
  intros Hfix Hai Hcount. unfold wrapRowSource.
  destruct (project_columns destTbl schema columnNames schema) as [es|err] eqn:Hes.
  - apply project_columns_reads_below in Hes.
    apply validateValueCount_width in Hcount.
    destruct (validateRowSource source es) as [err|] eqn:Hrow; [|discriminate].
    intros Hpanic. injection Hpanic as ->. revert Hrow. unfold validateRowSource.
    destruct (unwrap_exchange source) as [tuples|dataCols sch|child|sch];
      try discriminate; apply assertCompatibleSchemas_in_range;
      rewrite Hcount; exact Hes.
  - intros Hpanic. injection Hpanic as ->.
    apply project_columns_error in Hes as (f & _ & Hf).
    exact (project_column_error destTbl schema columnNames f Hfix Hai Hf).
Qed.

(** The checks of resolveInsertRows never index a schema out of range:
    the field indexes of the projection are below the number of column
    names, and the value-count check has made that number the width of
    the schema that assertCompatibleSchemas indexes. (The calls outside
    the rule are taken not to.) *)
Theorem resolveInsertRows_checks_index_in_range (tableName : string)
  (insertColumnNames : list string) (source : Node) (dstSchema destinationSchema : Schema) :
  (forall s t d, fix_default_indexes s t d <> inr PanicIndexOutOfRange) ->
  auto_increment_refused tableName <> Some PanicIndexOutOfRange ->
  resolveInsertRows_checks tableName insertColumnNames source dstSchema destinationSchema
  <> inr PanicIndexOutOfRange.
Proof.
  intros Hfix Hai. unfold resolveInsertRows_checks.
  destruct (Nat.eqb (length (map ToLower insertColumnNames)) 0
            && existsNonZeroValueCount source).
  - destruct (validateValueCount_result (map Name dstSchema) source) as [Hc | Hc];
      rewrite Hc; [|discriminate].
    apply wrapRowSource_index_in_range; assumption.
  - pose proof (validateColumns_loop_error tableName (dstColNames_of dstSchema)
                  (map ToLower insertColumnNames) ∅) as Hcols.
    fold (validateColumns tableName (map ToLower insertColumnNames) dstSchema) in Hcols.
    destruct (validateColumns tableName (map ToLower insertColumnNames) dstSchema);
      [congruence|].
    destruct (validateValueCount_result (map ToLower insertColumnNames) source)
      as [Hc | Hc]; rewrite Hc; [|discriminate].
    apply wrapRowSource_index_in_range; assumption.
Qed.

Lemma wrapRowSource_reads_within (source : Node) (destTbl : string) (schema : Schema)
  (columnNames : list string) (p : Project) (i j : nat) (e : Expr) :
  validateValueCount columnNames source = None ->
  wrapRowSource source destTbl schema columnNames = inl p ->
  Projections p !! i = Some e ->
  source_position e = Some j ->
  Child p = source /\ reads_within j source.
Proof.
  intros Hcount Hp Hi Hj. unfold wrapRowSource in Hp.
  destruct (project_columns destTbl schema columnNames schema) as [es|] eqn:Hes;
    [|discriminate].
  destruct (validateRowSource source es); [discriminate|].
  injection Hp as <-. simpl in *. split; [reflexivity|].
  apply project_columns_reads_below in Hes.
  rewrite Forall_lookup in Hes. specialize (Hes i e Hi).
  unfold reads_below in Hes. rewrite Hj in Hes.
  eapply validateValueCount_reads_within; eassumption.
Qed.

(** When the checks of resolveInsertRows pass, the projection is over the
    insert source, and every source position that one of its slots reads
    exists in every row of the source: in each tuple of a VALUES list, in
    the columns of a LOAD DATA, in the schema of a SELECT. *)
Theorem resolveInsertRows_checks_reads_within (tableName : string)
  (insertColumnNames : list string) (source : Node) (dstSchema destinationSchema : Schema)
  (p : Project) (i j : nat) (e : Expr) :
  resolveInsertRows_checks tableName insertColumnNames source dstSchema destinationSchema
  = inl p ->
  Projections p !! i = Some e ->
  source_position e = Some j ->
  Child p = source /\ reads_within j source.
Proof.
  unfold resolveInsertRows_checks.
  destruct (Nat.eqb (length (map ToLower insertColumnNames)) 0
            && existsNonZeroValueCount source).
  - destruct (validateValueCount (map Name dstSchema) source) eqn:Hc; [discriminate|].
    intros Hp Hi Hj. eapply wrapRowSource_reads_within; eassumption.
  - destruct (validateColumns tableName (map ToLower insertColumnNames) dstSchema);
      [discriminate|].
    destruct (validateValueCount (map ToLower insertColumnNames) source) eqn:Hc;
      [discriminate|].
    intros Hp Hi Hj. eapply wrapRowSource_reads_within; eassumption.
Qed.

(** *** An INSERT without a column list *)

Lemma find_column_full_schema (schema : Schema) (i : nat) (f : Column) :
  (forall g, g ∈ schema -> EqualFold (Name g) (Name g) = true) ->
  (forall i j f g, schema !! i = Some f -> schema !! j = Some g ->
     EqualFold (Name f) (Name g) = true -> i = j) ->
  schema !! i = Some f ->
  find_column (Name f) 0 (map Name schema) = Some i.
Proof.
  intros Hrefl Hdiff Hi. unfold Schema in *.
  apply (find_column_first (Name f) (map Name schema) 0 i (Name f)).
  - change (map Name schema) with (Name <$> schema). rewrite list_lookup_fmap, Hi.
    reflexivity.
  - apply Hrefl. eapply list_elem_of_lookup_2. exact Hi.
  - intros j' col' Hlt Hj'.
    change (map Name schema) with (Name <$> schema) in Hj'.
    rewrite list_lookup_fmap in Hj'.
    destruct (schema !! j') as [g|] eqn:Hg; [|discriminate]. injection Hj' as <-.
    destruct (EqualFold (Name f) (Name g)) eqn:Heq; [|reflexivity].
    pose proof (Hdiff i j' f g Hi Hg Heq). lia.
Qed.

Lemma project_columns_listed (destTbl : string) (schema : Schema)
  (columnNames : list string) (fs : list Column) (k : nat) :
  (forall i f, fs !! i = Some f -> find_column (Name f) 0 columnNames = Some (k + i)%nat) ->
  (forall f, f ∈ fs -> AutoIncrement_ f = true -> auto_increment_refused destTbl = None) ->
  project_columns destTbl schema columnNames fs
  = inl (imap (fun i f => source_field destTbl (k + i) f) fs).
Proof.
  revert k. induction fs as [|f fs IH]; intros k Hfind Hai; [reflexivity|].
  simpl. unfold project_column at 1.
  rewrite (Hfind 0%nat f eq_refl). rewrite Nat.add_0_r.
  assert (Hf : (if AutoIncrement_ f
                then NewAutoIncrement destTbl (GetField k (Type_ f) (Name f) (Nullable f))
                else inl (GetField k (Type_ f) (Name f) (Nullable f)))
               = inl (source_field destTbl k f)).
  { unfold source_field, NewAutoIncrement.
    destruct (AutoIncrement_ f) eqn:Ha; [|reflexivity].
    rewrite (Hai f (list_elem_of_here _ _) Ha). reflexivity. }
  rewrite Hf. rewrite (IH (S k)).
  - f_equal. f_equal. apply imap_ext. intros i g _. simpl. f_equal. lia.
  - intros i g Hi. rewrite (Hfind (S i) g Hi). f_equal. lia.
  - intros g Hg. apply Hai. right. exact Hg.
Qed.

(** An INSERT with no column list whose source is not a list of empty
    tuples, into a table no two of whose column names are equal under
    EqualFold (which holds of a name and itself): after the value-count
    check against the full schema, every slot of the projection reads the
    source row at the column's own position, so no default is used, also
    for columns that have one. *)
Theorem resolveInsertRows_checks_full_schema (tableName : string) (source : Node)
  (schema : Schema) :
  existsNonZeroValueCount source = true ->
  (forall g, g ∈ schema -> EqualFold (Name g) (Name g) = true) ->
  (forall i j f g, schema !! i = Some f -> schema !! j = Some g ->
     EqualFold (Name f) (Name g) = true -> i = j) ->
  (forall f, f ∈ schema -> AutoIncrement_ f = true ->
     auto_increment_refused tableName = None) ->
  resolveInsertRows_checks tableName [] source schema schema
  = match validateValueCount (map Name schema) source with
    | Some err => inr err
    | None =>
      let projExprs := imap (fun i f => source_field tableName i f) schema in
      match validateRowSource source projExprs with
      | Some err => inr err
      | None => inl (mkProject projExprs source)
      end
    end.
Proof.
  intros Hnonzero Hrefl Hdiff Hai. unfold resolveInsertRows_checks. simpl.
  rewrite Hnonzero.
  destruct (validateValueCount (map Name schema) source); [reflexivity|].
  unfold wrapRowSource.
  rewrite (project_columns_listed tableName schema (map Name schema) schema 0).
  - reflexivity.
  - intros i f Hi. apply find_column_full_schema; assumption.
  - exact Hai.
Qed.

(** An INSERT with no column list whose VALUES tuples are all empty goes
    through the column check and the value-count check untouched: the
    outcome is that of wrapRowSource on the empty column list. It fails
    as soon as a column is NOT NULL with no default and not
    auto-increment, and when it passes every slot of the projection holds
    its column's default. *)
Theorem resolveInsertRows_checks_empty_tuples (tableName : string)
  (tuples : list (list Expr)) (dstSchema schema : Schema) :
  Forall (fun exprTuple => exprTuple = []) tuples ->
  resolveInsertRows_checks tableName [] (Values tuples) dstSchema schema
  = wrapRowSource (Values tuples) tableName schema [] /\
  ((exists f, f ∈ schema /\ unfillable f) ->
   exists err,
     resolveInsertRows_checks tableName [] (Values tuples) dstSchema schema = inr err) /\
  (forall p,
     resolveInsertRows_checks tableName [] (Values tuples) dstSchema schema = inl p ->
     Child p = Values tuples /\
     length (Projections p) = length schema /\
     forall i f, schema !! i = Some f ->
       exists body,
         fix_default_indexes schema tableName (Default f) = inl body /\
         Projections p !! i
         = Some (if AutoIncrement_ f
                 then AutoIncrement tableName (ColumnDefaultValue body)
                 else ColumnDefaultValue body)).
Proof.
  intros Hempty.
  assert (Hnone : forall f : Column, omitted [] f).
  { intros f col Hcol. inversion Hcol. }
  assert (Hsame : resolveInsertRows_checks tableName [] (Values tuples) dstSchema schema
                  = wrapRowSource (Values tuples) tableName schema []).
  { unfold resolveInsertRows_checks. simpl.
    assert (Hex : existsb (fun exprTuple : list Expr => negb (Nat.eqb (length exprTuple) 0))
                    tuples = false).
    { induction Hempty as [|t ts -> _ IH]; [reflexivity | exact IH]. }
    assert (Hall : forallb (fun exprTuple : list Expr => Nat.eqb (length exprTuple) 0)
                     tuples = true).
    { clear Hex. induction Hempty as [|t ts -> _ IH]; [reflexivity | exact IH]. }
    rewrite Hex. unfold validateColumns, validateValueCount. simpl.
    rewrite Hall. reflexivity. }
  rewrite Hsame. split; [reflexivity|]. split.
  - intros (f & Hin & Hbad). unfold wrapRowSource.
    destruct (project_columns_fail tableName schema [] schema f _ Hin
                (project_column_unfillable tableName schema [] f (Hnone f) Hbad))
      as [err ->].
    eauto.
  - intros p. unfold wrapRowSource.
    destruct (project_columns tableName schema [] schema) as [es|] eqn:Hes; [|discriminate].
    simpl. intros Hp. injection Hp as <-. simpl.
    destruct (project_columns_ok tableName schema [] schema es Hes) as [Hlen Hall].
    split; [reflexivity|]. split; [exact Hlen|].
    intros i f Hi. destruct (Hall i f Hi) as (e & Hie & He).
    destruct (project_column_omitted_inv tableName schema [] f e (Hnone f) He)
      as [_ (body & Hfix & ->)].
    eauto.
Qed.

End Rule.

(** *** Names of ASCII letters

    On names of ASCII characters both functions come to the mapping of
    'A'..'Z' to 'a'..'z'; the examples below are on such names. *)
Definition lower_ascii (c : ascii) : ascii :=
  let n := N_of_ascii c in
  if ((65 <=? n) && (n <=? 90))%N then ascii_of_N (n + 32) else c.

Fixpoint ascii_ToLower (s : string) : string :=
  match s with
  | EmptyString => EmptyString
  | String c s' => String (lower_ascii c) (ascii_ToLower s')
  end.

Definition ascii_EqualFold (s t : string) : bool :=
  bool_decide (ascii_ToLower s = ascii_ToLower t).

#[local] Instance ascii_names : NameOps := {|
  ToLower := ascii_ToLower;
  EqualFold := ascii_EqualFold
|}.

(** *** A concrete destination

    Types by name, a default rewrite that changes nothing and a table
    that takes auto-increment values: the setting of the examples. *)
#[local] Instance name_types : TypeOps string := {|
  is_null_type t := bool_decide (t = "null"%string);
  converts_zero_of t u := bool_decide (t = u);
  is_enum_type t := bool_decide (t = "enum"%string);
  is_text_type t := bool_decide (t = "text"%string);
  type_string t := t
|}.

#[local] Instance plain_env : Env (T := string) := {|
  values_schema tuples := [];
  fix_default_indexes schema destTbl d := inl d;
  auto_increment_refused destTbl := None
|}.

Definition col_a : Column (T := string) := mkColumn "a" "bigint" false None false None.
Definition col_id : Column (T := string) := mkColumn "id" "bigint" false None true None.
Definition col_c : Column (T := string) :=
  mkColumn "c" "bigint" false (Some (Literal "bigint" "5")) false None.
Definition col_d : Column (T := string) := mkColumn "d" "bigint" false None false None.
Definition col_g : Column (T := string) :=
  mkColumn "G" "bigint" true None false (Some (OtherExpr "bigint" "a + 1")).
Definition one_row : Node (T := string) := Values [[Literal "bigint" "1"]].

(** INSERT INTO t (a) VALUES (1) into t(id AUTO_INCREMENT, a, c DEFAULT 5). *)
Example wrapRowSource_defaults :
  wrapRowSource one_row "t" [col_id; col_a; col_c] ["a"%string]
  = inl (mkProject
           [AutoIncrement "t" (ColumnDefaultValue None);
            GetField 0 "bigint" "a" false;
            ColumnDefaultValue (Some (Literal "bigint" "5"))]
           one_row).
Proof. vm_compute. reflexivity. Qed.

Lemma plain_env_calls_succeed (destTbl : string) (schema : Schema (T := string)) :
  calls_succeed destTbl schema.
Proof. split; [intros d; exists d; reflexivity | reflexivity]. Qed.


(** The table t(g GENERATED, G): two columns of one name up to case. *)
Definition col_generated_g : Column (T := string) :=
  mkColumn "g" "bigint" true None false (Some (OtherExpr "bigint" "1 + 1")).
Definition col_plain_G : Column (T := string) :=
  mkColumn "G" "bigint" true None false None.


(** *** The further properties, applied

    INSERT INTO t VALUES (...) into t(id AUTO_INCREMENT, a, c DEFAULT 5),
    before and after its column list is filled in. *)
Definition insert_into_t : InsertInto (T := string) :=
  mkInsertInto (mkTableNode true (Some "t"%string) [col_id; col_a; col_c]) [] one_row.

Definition three_values : Node (T := string) :=
  Values [[Literal "bigint" "7"; Literal "bigint" "1"; Literal "bigint" "2"]].

Lemma setInsertColumns_without_column_list_witness :
  match setInsertColumns insert_into_t with
  | inl (ii', identity) =>
    (forall c, c ∈ TableSchema (Destination insert_into_t) -> Generated c = None) /\
    ii' = mkInsertInto (Destination insert_into_t)
            (map Name (TableSchema (Destination insert_into_t))) (Source insert_into_t) /\
    identity = NewTree
  | inr err =>
    exists pre c post,
      TableSchema (Destination insert_into_t) = pre ++ c :: post /\
      (forall c', c' ∈ pre -> Generated c' = None) /\
      Generated c <> None /\
      err = ErrGeneratedColumnValue (Name c) "t"
  end.
Proof.
  apply (setInsertColumns_without_column_list insert_into_t "t"); reflexivity.
Defined.

Lemma setInsertColumns_idempotent_witness :
  setInsertColumns
    (mkInsertInto (Destination insert_into_t) ["id"; "a"; "c"]%string one_row)
  = inl (mkInsertInto (Destination insert_into_t) ["id"; "a"; "c"]%string one_row, NewTree).
Proof.
  apply (setInsertColumns_idempotent insert_into_t). reflexivity.
Defined.

Lemma setInsertColumns_then_validateColumns_witness :
  validateColumns "t" (map ToLower ["id"; "a"; "c"]%string) [col_id; col_a; col_c] = None
  <-> NoDup (map (fun c => ToLower (Name c)) [col_id; col_a; col_c]).
Proof.
  apply (setInsertColumns_then_validateColumns insert_into_t
           (mkInsertInto (Destination insert_into_t) ["id"; "a"; "c"]%string one_row)
           NewTree "t"); reflexivity.
Defined.

Lemma wrapRowSource_listed_column_witness :
  Projections
    (mkProject
       [AutoIncrement "t" (ColumnDefaultValue None);
        GetField 0 "bigint" "a" false;
        ColumnDefaultValue (Some (Literal "bigint" "5"))]
       one_row) !! 1%nat
  = Some (source_field "t" 0 col_a).
Proof.
  apply (wrapRowSource_listed_column one_row "t" [col_id; col_a; col_c] ["A"%string]
           _ 1 0 col_a "A").
  - vm_compute. reflexivity.
  - reflexivity.
  - reflexivity.
  - vm_compute. reflexivity.
  - intros j' col' Hlt. lia.
Defined.

Lemma resolveInsertRows_checks_index_in_range_witness :
  resolveInsertRows_checks "t" ["a"%string]
    (Select [col_a]) [col_id; col_a; col_c] [col_id; col_a; col_c]
  <> inr PanicIndexOutOfRange.
Proof.
  apply (resolveInsertRows_checks_index_in_range (T := string)); discriminate.
Defined.

Lemma resolveInsertRows_checks_reads_within_witness :
  Child
    (mkProject
       [AutoIncrement "t" (ColumnDefaultValue None);
        GetField 0 "bigint" "a" false;
        ColumnDefaultValue (Some (Literal "bigint" "5"))]
       one_row) = one_row /\
  reads_within 0 one_row.
Proof.
  apply (resolveInsertRows_checks_reads_within "t" ["A"%string] one_row
           [col_id; col_a; col_c] [col_id; col_a; col_c] _ 1 0
           (GetField 0 "bigint"%string "a"%string false)).
  - vm_compute. reflexivity.
  - reflexivity.
  - reflexivity.
Defined.

Lemma resolveInsertRows_checks_full_schema_witness :
  resolveInsertRows_checks "t" [] three_values [col_id; col_a; col_c] [col_id; col_a; col_c]
  = inl (mkProject
           [AutoIncrement "t" (GetField 0 "bigint" "id" false);
            GetField 1 "bigint" "a" false;
            GetField 2 "bigint" "c" false]
           three_values).
Proof.
  apply (resolveInsertRows_checks_full_schema "t" three_values [col_id; col_a; col_c]).
  - reflexivity.
  - intros g _.
    change (bool_decide (ascii_ToLower (Name g) = ascii_ToLower (Name g)) = true).
    apply bool_decide_eq_true. reflexivity.
  - intros i j f g Hi Hj Heq.
    destruct i as [|[|[|i]]], j as [|[|[|j]]]; simpl in Hi, Hj; try discriminate;
      try reflexivity; injection Hi as <-; injection Hj as <-;
      vm_compute in Heq; discriminate Heq.
  - intros f _ _. reflexivity.
Defined.

Lemma resolveInsertRows_checks_empty_tuples_witness :
  resolveInsertRows_checks "t" [] (Values [[]; []]) [col_id; col_c] [col_id; col_c]
  = wrapRowSource (Values [[]; []]) "t" [col_id; col_c] [].
Proof.
  apply (resolveInsertRows_checks_empty_tuples (T := string) "t" [[]; []]
           [col_id; col_c] [col_id; col_c]).
  repeat constructor.
Defined.

End InsertRule.

(* ===================================================================== *)
(** ** ST_AREA                                                            *)
(* ===================================================================== *)
Module StArea.
Import GoFloat.

Record Point := mkPoint { X : float64; Y : float64 }.
Record LineString := mkLineString { Points : list Point }.
Record Polygon := mkPolygon { Lines : list LineString }.

(** What the argument of ST_AREA can evaluate to. *)
Inductive Value :=
| VNil
| VPoint (p : Point)
| VLineString (l : LineString)
| VPolygon (p : Polygon)
| VFloat64 (f : float64)
| VOther (go_type : string).

Inductive error :=
| ErrInvalidAreaArgument (v : Value)   (* "unexpected type %T in st_area" *)
| ErrChild (message : string).         (* an error of the argument's own evaluation *)

(** The loop of calculateArea: [area += p1.X*p2.Y - p1.Y*p2.X] over
    consecutive points. Each operation rounds on its own (a compiler
    that fuses the multiply and the subtraction changes the rounding of a
    term, nothing else below). *)
Fixpoint shoelace_loop (area : float64) (pts : list Point) : float64 :=
  match pts with
  | p1 :: (p2 :: _) as rest =>
    shoelace_loop
      (f64_add area (f64_sub (f64_mul (X p1) (Y p2)) (f64_mul (Y p1) (X p2)))) rest
  | _ => area
  end.

Definition shoelace_sum (l : LineString) : float64 := shoelace_loop f64_zero (Points l).

Definition calculateArea (l : LineString) : float64 :=
  let area := shoelace_sum l in
  let area := if f64_lt area f64_zero then f64_neg area else area in
  f64_div area f64_two.

(** The loop of Eval over the rings, [i] the index of the ring. *)
Fixpoint total_area_loop (totalArea : float64) (i : nat) (lines : list LineString) : float64 :=
  match lines with
  | [] => totalArea
  | l :: rest =>
    let area := calculateArea l in
    let area := if negb (Nat.eqb i 0) then f64_neg area else area in
    total_area_loop (f64_add totalArea area) (S i) rest
  end.

(** Area.Eval, from the result of evaluating the child expression. *)
Definition Eval (child : Value + error) : Value + error :=
  match child with
  | inr err => inr err
  | inl VNil => inl VNil
  | inl (VPolygon p) => inl (VFloat64 (total_area_loop f64_zero 0 (Lines p)))
  | inl v => inr (ErrInvalidAreaArgument v)
  end.

(** *** Words of the specification of ST_AREA *)

Definition is_polygon (v : Value) : bool := match v with VPolygon _ => true | _ => false end.
Definition is_nil (v : Value) : bool := match v with VNil => true | _ => false end.

(** A float read as a number: the two zeros are the same number. *)
Definition unsigned_zero (x : float64) : float64 :=
  match x with S754_zero _ => S754_zero false | _ => x end.

(** A float that is a number: a zero or a finite value, neither an
    infinity nor NaN. *)
Definition is_finite (x : float64) : bool :=
  match x with
  | S754_zero _ | S754_finite _ _ _ => true
  | _ => false
  end.

(** The shoelace formula as it is written, for the points p_0 .. p_(n-1)
    in their order: the sum over i from 0 to n-2 of
    x_i * y_(i+1) - y_i * x_(i+1), every operation in float64 and the
    terms added from the first on. *)
Definition shoelace_term (p q : Point) : float64 :=
  f64_sub (f64_mul (X p) (Y q)) (f64_mul (Y p) (X q)).

Definition add_term (pts : list Point) (sum : float64) (i : nat) : float64 :=
  match pts !! i, pts !! S i with
  | Some p, Some q => f64_add sum (shoelace_term p q)
  | _, _ => sum
  end.

Definition shoelace_formula (pts : list Point) : float64 :=
  fold_left (add_term pts) (seq 0 (length pts - 1)) f64_zero.

(** The area of the first ring minus the areas of the rings after it,
    subtracted one after the other; no ring, no area. *)
Definition first_minus_holes (lines : list LineString) : float64 :=
  match lines with
  | [] => f64_zero
  | outer :: holes =>
    fold_left (fun acc hole => f64_sub acc (calculateArea hole)) holes
              (unsigned_zero (calculateArea outer))
  end.

(** *** Properties *)

Lemma f64_add_neg (x y : float64) : f64_add x (f64_neg y) = f64_sub x y.
Proof.
  unfold f64_add, f64_sub, f64_neg.
  destruct x as [sx|sx| |sx mx ex], y as [sy|sy| |sy my ey]; simpl; try reflexivity;
    try (destruct sx, sy; reflexivity).
Qed.

Lemma f64_add_zero_l (x : float64) : f64_add f64_zero x = unsigned_zero x.
Proof. destruct x as [s|s| |s m e]; try reflexivity. destruct s; reflexivity. Qed.

Lemma total_area_loop_holes (lines : list LineString) (acc : float64) (i : nat) :
  total_area_loop acc (S i) lines
  = fold_left (fun acc hole => f64_sub acc (calculateArea hole)) lines acc.
Proof.
  revert acc i. induction lines as [|l rest IH]; intros acc i; [reflexivity|].
  cbn [total_area_loop fold_left Nat.eqb negb].
  rewrite f64_add_neg. apply IH.
Qed.

Lemma Eval_polygon (p : Polygon) :
  Eval (inl (VPolygon p)) = inl (VFloat64 (first_minus_holes (Lines p))).
Proof.
  unfold Eval, first_minus_holes. do 2 f_equal.
  destruct (Lines p) as [|outer holes]; [reflexivity|].
  cbn [total_area_loop Nat.eqb negb].
  rewrite f64_add_zero_l. apply total_area_loop_holes.
Qed.

(** Rounding keeps the sign: a rounded positive quantity is not below zero. *)
Lemma binary_round_aux_not_negative (m e : Z) (l : location) :
  f64_lt (binary_round_aux prec emax false m e l) f64_zero = false.
Proof.
  unfold binary_round_aux.
  destruct (shr_fexp prec emax m e l) as [mrs' e'].
  destruct (shr_fexp prec emax _ e' loc_Exact) as [mrs'' e''].
  destruct (shr_m mrs''); try reflexivity.
  destruct (Z.leb e'' (emax - prec)); reflexivity.
Qed.

Lemma half_not_negative (x : float64) :
  f64_lt x f64_zero = false -> f64_lt (f64_div x f64_two) f64_zero = false.
Proof.
  destruct x as [s|s| |s m e]; try reflexivity.
  - destruct s; [discriminate | reflexivity].
  - destruct s; [discriminate|]. intros _.
    unfold f64_div, SFdiv, f64_two.
    destruct (SFdiv_core_binary prec emax (Z.pos m) e (Z.pos (2 ^ 52)) (-51)) as [[mz ez] lz].
    apply binary_round_aux_not_negative.
Qed.

Lemma negate_if_negative (x : float64) :
  f64_lt (if f64_lt x f64_zero then f64_neg x else x) f64_zero = false.
Proof. destruct x as [s|s| |s m e]; try reflexivity; destruct s; reflexivity. Qed.

Lemma negate_if_negative_abs (x : float64) :
  unsigned_zero (if f64_lt x f64_zero then f64_neg x else x) = SFabs x.
Proof. destruct x as [s|s| |s m e]; try reflexivity; destruct s; reflexivity. Qed.

Lemma f64_div_unsigned_zero (x : float64) :
  unsigned_zero (f64_div (unsigned_zero x) f64_two) = unsigned_zero (f64_div x f64_two).
Proof. destruct x as [s|s| |s m e]; reflexivity. Qed.

Lemma calculateArea_not_negative (l : LineString) :
  f64_lt (calculateArea l) f64_zero = false.
Proof. unfold calculateArea. apply half_not_negative, negate_if_negative. Qed.

(** Apart from NaN, which only an overflowing or invalid sum produces,
    zero is at most the area. *)
Lemma not_negative_or_nan (x : float64) :
  f64_lt x f64_zero = false -> x = S754_nan \/ SFleb f64_zero x = true.
Proof.
  destruct x as [s|s| |s m e]; auto; destruct s; try discriminate; auto.
Qed.

Lemma calculateArea_half_abs (l : LineString) :
  unsigned_zero (calculateArea l)
  = unsigned_zero (f64_div (SFabs (shoelace_sum l)) f64_two).
Proof.
  unfold calculateArea. rewrite <- negate_if_negative_abs.
  rewrite f64_div_unsigned_zero. reflexivity.
Qed.

(** The loop of calculateArea computes the formula. *)
Lemma add_term_shift (p : Point) (pts : list Point) (n k : nat) (sum : float64) :
  fold_left (add_term (p :: pts)) (seq (S k) n) sum
  = fold_left (add_term pts) (seq k n) sum.
Proof.
  revert k sum. induction n as [|n IH]; intros k sum; [reflexivity|].
  simpl. rewrite IH. reflexivity.
Qed.

Lemma shoelace_loop_formula (pts : list Point) (sum : float64) :
  shoelace_loop sum pts = fold_left (add_term pts) (seq 0 (length pts - 1)) sum.
Proof.
  revert sum. induction pts as [|p1 [|p2 rest] IH]; intros sum; try reflexivity.
  change (shoelace_loop sum (p1 :: p2 :: rest))
    with (shoelace_loop (f64_add sum (shoelace_term p1 p2)) (p2 :: rest)).
  rewrite IH.
  replace (length (p1 :: p2 :: rest) - 1)%nat with (S (length (p2 :: rest) - 1))
    by (simpl; lia).
  change (seq 0 (S (length (p2 :: rest) - 1)))
    with (0%nat :: seq 1 (length (p2 :: rest) - 1)).
  cbn [fold_left]. rewrite add_term_shift. reflexivity.
Qed.

Lemma shoelace_sum_formula (l : LineString) :
  shoelace_sum l = shoelace_formula (Points l).
Proof. apply shoelace_loop_formula. Qed.

(** Rounding a quantity that is not negative never gives NaN. *)
Lemma shr_1_not_negative (mrs : shr_record) :
  0 <= shr_m mrs -> 0 <= shr_m (shr_1 mrs).
Proof. destruct mrs as [[|[p|p|]|p] r t]; simpl; lia. Qed.

Lemma iter_shr_1_not_negative (p : positive) (mrs : shr_record) :
  0 <= shr_m mrs -> 0 <= shr_m (SpecFloat.iter_pos shr_1 p mrs).
Proof.
  revert mrs. induction p as [p IH|p IH|]; intros mrs Hm; simpl.
  - apply IH, IH, shr_1_not_negative, Hm.
  - apply IH, IH, Hm.
  - apply shr_1_not_negative, Hm.
Qed.

Lemma shr_fexp_not_negative (m e : Z) (l : location) :
  0 <= m -> 0 <= shr_m (fst (shr_fexp prec emax m e l)).
Proof.
  intros Hm. unfold shr_fexp, shr.
  assert (Hrec : 0 <= shr_m (shr_record_of_loc m l)) by (destruct l as [|[]]; exact Hm).
  destruct (fexp prec emax (Zdigits2 m + e) - e); simpl; try exact Hrec.
  apply iter_shr_1_not_negative, Hrec.
Qed.

Lemma binary_round_aux_not_nan (s : bool) (m e : Z) (l : location) :
  0 <= m -> binary_round_aux prec emax s m e l <> S754_nan.
Proof.
  intros Hm. unfold binary_round_aux.
  pose proof (shr_fexp_not_negative m e l Hm) as H1.
  destruct (shr_fexp prec emax m e l) as [mrs' e']. simpl in H1.
  assert (H2 : 0 <= round_nearest_even (shr_m mrs') (loc_of_shr_record mrs')).
  { unfold round_nearest_even. destruct (loc_of_shr_record mrs') as [|[]];
      try destruct (Z.even (shr_m mrs')); lia. }
  pose proof (shr_fexp_not_negative _ e' loc_Exact H2) as H3.
  destruct (shr_fexp prec emax _ e' loc_Exact) as [mrs'' e'']. simpl in H3.
  destruct (shr_m mrs'') as [|q|q]; [discriminate| |lia].
  destruct (e'' <=? emax - prec); discriminate.
Qed.

Lemma half_nan (x : float64) : f64_div x f64_two = S754_nan <-> x = S754_nan.
Proof.
  destruct x as [s|s| |s m e]; try (split; [discriminate|discriminate]);
    [split; reflexivity|].
  split; [|discriminate]. unfold f64_div, SFdiv, f64_two, SFdiv_core_binary.
  set (m' := match _ - _ - _ with Z0 => Z.pos m | Z.pos _ => _ | Z.neg _ => 0 end).
  assert (Hm' : 0 <= m').
  { subst m'. destruct (_ - _ - _); [lia | apply Z.shiftl_nonneg; lia | lia]. }
  pose proof (Z.div_pos m' (Z.pos (2 ^ 52)) Hm' ltac:(lia)) as Hq.
  unfold Z.div in Hq. destruct (Z.div_eucl m' (Z.pos (2 ^ 52))) as [q r].
  intros Hnan. exfalso. revert Hnan. apply binary_round_aux_not_nan. exact Hq.
Qed.

Lemma calculateArea_nan (l : LineString) :
  calculateArea l = S754_nan <-> shoelace_formula (Points l) = S754_nan.
Proof.
  unfold calculateArea. rewrite half_nan, shoelace_sum_formula.
  destruct (shoelace_formula (Points l)) as [s|s| |s m e]; try destruct s;
    simpl; split; congruence.
Qed.


(** *** Degenerate rings *)

Lemma f64_sub_diag (x : float64) :
  is_finite x = true -> f64_sub (unsigned_zero x) x = f64_zero.
Proof.
  destruct x as [s|s| |s m e]; try discriminate; intros _.
  - destruct s; reflexivity.
  - unfold f64_sub, unsigned_zero, SFsub. rewrite Z.sub_diag. reflexivity.
Qed.

(** A ring of fewer than two points has no pair of consecutive points:
    its area is +0, and so is ST_AREA of a polygon of no ring, or of one
    such ring. *)
Theorem calculateArea_degenerate (l : LineString) :
  (length (Points l) <= 1)%nat ->
  calculateArea l = f64_zero /\
  Eval (inl (VPolygon (mkPolygon []))) = inl (VFloat64 f64_zero) /\
  Eval (inl (VPolygon (mkPolygon [l]))) = inl (VFloat64 f64_zero).
Proof.
  intros Hlen.
  assert (Harea : calculateArea l = f64_zero).
  { unfold calculateArea, shoelace_sum.
    destruct (Points l) as [|p1 [|p2 rest]]; [reflexivity | reflexivity |].
    simpl in Hlen. lia. }
  split; [exact Harea|]. split; [reflexivity|].
  unfold Eval. cbn [Lines total_area_loop Nat.eqb negb]. rewrite Harea. reflexivity.
Qed.

(** A polygon whose one hole is its own outer ring has the area +0,
    whenever the area of the ring is finite: the total is the ring's area
    minus itself. *)
Theorem Eval_hole_is_outer_ring (l : LineString) :
  is_finite (calculateArea l) = true ->
  Eval (inl (VPolygon (mkPolygon [l; l]))) = inl (VFloat64 f64_zero).
Proof.
  intros Hfinite. rewrite Eval_polygon. unfold first_minus_holes.
  cbn [Lines fold_left]. rewrite (f64_sub_diag _ Hfinite). reflexivity.
Qed.

(** Floats of the examples: small integers are exact. *)
Definition f64_of_Z (n : Z) : float64 := binary_normalize prec emax n 0 false.
Definition pt (x y : Z) : Point := mkPoint (f64_of_Z x) (f64_of_Z y).
Definition ring (pts : list (Z * Z)) : LineString :=
  mkLineString (map (fun xy => pt (fst xy) (snd xy)) pts).

(** A square of side 4 with a unit square hole: 16 - 1 = 15. The rings
    are wound in opposite directions. *)
Definition square_with_hole : Polygon :=
  mkPolygon [ring [(0, 0); (4, 0); (4, 4); (0, 4); (0, 0)];
             ring [(1, 1); (1, 2); (2, 2); (2, 1); (1, 1)]].

Example Eval_square_with_hole :
  Eval (inl (VPolygon square_with_hole)) = inl (VFloat64 (f64_of_Z 15)).
Proof. vm_compute. reflexivity. Qed.


(** A triangle with finite coordinates, two of its corners far out on the
    diagonal: both products of the first term overflow to +Inf, their
    difference is NaN, and so is the area, which is not at least zero. *)
Definition far_triangle : LineString :=
  ring [(10 ^ 308, 10 ^ 308); (10 ^ 307, 10 ^ 307); (0, 10 ^ 308); (10 ^ 308, 10 ^ 308)].

Lemma calculateArea_overflow_counterexample :
  Forall (fun p => is_finite (X p) = true /\ is_finite (Y p) = true) (Points far_triangle) /\
  calculateArea far_triangle = S754_nan /\
  SFleb f64_zero (calculateArea far_triangle) = false.
Proof.
  split; [|split; vm_compute; reflexivity].
  repeat (constructor; [split; vm_compute; reflexivity|]). constructor.
Qed.

Lemma calculateArea_degenerate_witness :
  calculateArea (ring [(3, 4)]) = f64_zero /\
  Eval (inl (VPolygon (mkPolygon []))) = inl (VFloat64 f64_zero) /\
  Eval (inl (VPolygon (mkPolygon [ring [(3, 4)]]))) = inl (VFloat64 f64_zero).
Proof. apply (calculateArea_degenerate (ring [(3, 4)])). simpl. lia. Defined.

Lemma Eval_hole_is_outer_ring_witness :
  Eval (inl (VPolygon (mkPolygon
          [ring [(0, 0); (4, 0); (4, 4); (0, 4); (0, 0)];
           ring [(0, 0); (4, 0); (4, 4); (0, 4); (0, 0)]])))
  = inl (VFloat64 f64_zero).
Proof.
  apply (Eval_hole_is_outer_ring (ring [(0, 0); (4, 0); (4, 4); (0, 4); (0, 0)])).
  vm_compute. reflexivity.
Defined.

End StArea.

(* ===================================================================== *)
(** ** plan.VirtualColumnTable                                            *)
(* ===================================================================== *)
Module VirtualColumn.

Section Table.
(** The wrapped [sql.Table] and the expressions are kept and handed
    back, never looked into. *)
Context {Table Expression : Type}.

Record VirtualColumnTable := mkVirtualColumnTable {
  Table_ : Table;
  Projections : list Expression
}.

Inductive error :=
| ErrInvalidChildrenNumber (node : VirtualColumnTable) (got expected : nat).

Definition Underlying (v : VirtualColumnTable) : Table := Table_ v.

Definition NewVirtualColumnTable (table : Table) (projections : list Expression)
  : VirtualColumnTable :=
  mkVirtualColumnTable table projections.

Definition WithExpressions (v : VirtualColumnTable) (exprs : list Expression)
  : VirtualColumnTable + error :=
  if negb (Nat.eqb (length exprs) (length (Projections v)))
  then inr (ErrInvalidChildrenNumber v (length exprs) (length (Projections v)))
  else inl (NewVirtualColumnTable (Table_ v) exprs).

Definition Expressions (v : VirtualColumnTable) : list Expression := Projections v.

(** WithExpressions takes exactly as many expressions as the table has
    projections, and fails with ErrInvalidChildrenNumber otherwise. What
    it returns has the given expressions over the same underlying table,
    so the number of projections never changes; giving a table its own
    expressions returns the table, and of two replacements in a row the
    second alone counts. *)
Theorem WithExpressions_replaces (v : VirtualColumnTable) (exprs : list Expression) :
  (length exprs <> length (Expressions v) ->
   WithExpressions v exprs
   = inr (ErrInvalidChildrenNumber v (length exprs) (length (Expressions v)))) /\
  (length exprs = length (Expressions v) ->
   exists v',
     WithExpressions v exprs = inl v' /\
     Expressions v' = exprs /\
     Underlying v' = Underlying v /\
     length (Expressions v') = length (Expressions v) /\
     forall exprs' v'',
       WithExpressions v' exprs' = inl v'' <-> WithExpressions v exprs' = inl v'') /\
  WithExpressions v (Expressions v) = inl v.
Proof.
  unfold WithExpressions, Expressions, Underlying, NewVirtualColumnTable.
  split; [|split].
  - intros Hne. apply Nat.eqb_neq in Hne. rewrite Hne. reflexivity.
  - intros Heq. exists (mkVirtualColumnTable (Table_ v) exprs).
    rewrite Heq, Nat.eqb_refl. simpl. rewrite Heq.
    split; [reflexivity|]. split; [reflexivity|]. split; [reflexivity|].
    split; [reflexivity|]. intros exprs' v''.
    destruct (Nat.eqb (length exprs') (length (Projections v))); simpl;
      [reflexivity | split; discriminate].
  - rewrite Nat.eqb_refl. destruct v. reflexivity.
Qed.

End Table.
Lemma WithExpressions_replaces_witness :
  WithExpressions (mkVirtualColumnTable "t"%string [1; 2]) [3; 4; 5]
  = inr (ErrInvalidChildrenNumber (mkVirtualColumnTable "t"%string [1; 2]) 3 2).
Proof.
  destruct (WithExpressions_replaces (mkVirtualColumnTable "t"%string [1; 2]) [3; 4; 5])
    as (Hcount & _ & _).
  apply Hcount. simpl. lia.
Defined.

End VirtualColumn.

(* ===================================================================== *)
(** ** The engine scenario of the query tests                             *)
(* ===================================================================== *)
Module Engine.

(** The executor and the evaluator are not among the source files at
    hand; what follows restates their contracts from the design text,
    for integer columns, to run the scenario of the query tests on. *)

(** Modelled from the spec: a Value, "either NULL or a typed concrete
    value", here an integer; a Row is an ordered sequence of values. *)
Definition Val := option Z.
Definition Row := list Val.

Inductive AggFn := Max | Min | Count.

(** Modelled from the spec: the expression tree and the plan tree
    (sections 2 and 4.4). A column reference is a field index into the
    input row of the enclosing operator; [scope_level] 0 is that operator,
    1 the operator around the enclosing subquery, and so on ("a stack of
    schemas ... outermost last"). *)
Inductive Expr :=
| Literal (v : Val)
| GetField (scope_level index : nat)
| LessThan (l r : Expr)
| LessOrEqual (l r : Expr)
| Subquery (q : Plan)
with Plan :=
| ResolvedTable (name : string)
| Filter (cond : Expr) (child : Plan)
| GroupBy (agg : AggFn) (arg : Expr) (child : Plan)
| Project (exprs : list Expr) (child : Plan)
| Sort (field_index : nat) (ascending : bool) (child : Plan).

Inductive error :=
| ErrTableNotFound (name : string)
| ErrFieldIndex (scope_level index : nat)
| ErrSubqueryMultipleRows.

Definition Database := gmap string (list Row).

(** Modelled from the spec: comparison expressions, "NULL ... produces
    NULL (not true/false) in comparison expressions"; truth values are the
    integers 1 and 0. *)
Definition compare_values (test : Z -> Z -> bool) (a b : Val) : Val :=
  match a, b with
  | Some x, Some y => Some (if test x y then 1 else 0)
  | _, _ => None
  end.

(** Modelled from the spec: "Filter drops rows for which the predicate is
    not true (i.e., NULL drops)". *)
Definition is_true (v : Val) : bool :=
  match v with
  | Some n => negb (n =? 0)
  | None => false
  end.

(** Modelled from the spec: aggregates over a group; "with no grouping
    columns and no input rows, aggregates return their identity
    (COUNT -> 0, ... MIN/MAX -> NULL)"; NULL inputs are skipped. *)
Definition aggregate (f : AggFn) (vs : list Val) : Val :=
  match f with
  | Count => Some (Z.of_nat (length (omap id vs)))
  | Max => foldl (fun acc v =>
                    match acc, v with
                    | Some a, Some x => Some (Z.max a x)
                    | None, x => x
                    | a, None => a
                    end) None vs
  | Min => foldl (fun acc v =>
                    match acc, v with
                    | Some a, Some x => Some (Z.min a x)
                    | None, x => x
                    | a, None => a
                    end) None vs
  end.

(** Modelled from the spec: the comparator of Sort, "NULL is ordered less
    than any value for sort purposes", with "NULL-first-on-ASC". *)
Definition val_le (a b : Val) : bool :=
  match a, b with
  | None, _ => true
  | Some _, None => false
  | Some x, Some y => x <=? y
  end.

Definition row_le (field_index : nat) (ascending : bool) (r1 r2 : Row) : bool :=
  let k1 := default None (r1 !! field_index) in
  let k2 := default None (r2 !! field_index) in
  if ascending then val_le k1 k2 else val_le k2 k1.

(** Modelled from the spec: Sort "fully materializes its input, sorts ...
    and streams. Must handle stable ordering for repeat values": a stable
    insertion sort. *)
Fixpoint insert_row (le : Row -> Row -> bool) (r : Row) (sorted : list Row) : list Row :=
  match sorted with
  | [] => [r]
  | s :: rest => if le r s then r :: sorted else s :: insert_row le r rest
  end.

Definition sort_rows (le : Row -> Row -> bool) (rows : list Row) : list Row :=
  foldr (insert_row le) [] rows.

Definition sequence {A : Type} (l : list (A + error)) : list A + error :=
  foldr (fun x acc =>
           match x, acc with
           | inr e, _ => inr e
           | inl _, inr e => inr e
           | inl a, inl l => inl (a :: l)
           end) (inl []) l.

(** Modelled from the spec: eval(ctx, row) and row_iter(ctx, parent_row)
    (sections 4.2 and 4.4). [scope] is the stack of rows in sight, the
    current row first. A scalar subquery is run again for every row it is
    evaluated on, with that row pushed on the scope; it yields NULL when
    it returns no row. *)
Fixpoint eval (db : Database) (scope : list Row) (e : Expr) {struct e} : Val + error :=
  match e with
  | Literal v => inl v
  | GetField level index =>
    match scope !! level with
    | Some row =>
      match row !! index with
      | Some v => inl v
      | None => inr (ErrFieldIndex level index)
      end
    | None => inr (ErrFieldIndex level index)
    end
  | LessThan l r =>
    match eval db scope l, eval db scope r with
    | inl a, inl b => inl (compare_values Z.ltb a b)
    | inr err, _ | _, inr err => inr err
    end
  | LessOrEqual l r =>
    match eval db scope l, eval db scope r with
    | inl a, inl b => inl (compare_values Z.leb a b)
    | inr err, _ | _, inr err => inr err
    end
  | Subquery q =>
    match row_iter db scope q with
    | inl [] => inl None
    | inl [row] => inl (default None (row !! 0%nat))
    | inl _ => inr ErrSubqueryMultipleRows
    | inr err => inr err
    end
  end
with row_iter (db : Database) (parents : list Row) (p : Plan) {struct p} : list Row + error :=
  match p with
  | ResolvedTable name =>
    match db !! name with
    | Some rows => inl rows
    | None => inr (ErrTableNotFound name)
    end
  | Filter cond child =>
    match row_iter db parents child with
    | inr err => inr err
    | inl rows =>
      match sequence (map (fun row => eval db (row :: parents) cond) rows) with
      | inr err => inr err
      | inl flags =>
        inl (map fst (filter (fun rf => is_true (snd rf) = true) (zip rows flags)))
      end
    end
  | GroupBy agg arg child =>
    match row_iter db parents child with
    | inr err => inr err
    | inl rows =>
      match sequence (map (fun row => eval db (row :: parents) arg) rows) with
      | inr err => inr err
      | inl vs => inl [[aggregate agg vs]]
      end
    end
  | Project exprs child =>
    match row_iter db parents child with
    | inr err => inr err
    | inl rows =>
      sequence (map (fun row => sequence (map (fun e => eval db (row :: parents) e) exprs)) rows)
    end
  | Sort field_index ascending child =>
    match row_iter db parents child with
    | inr err => inr err
    | inl rows => inl (sort_rows (row_le field_index ascending) rows)
    end
  end.

(** *** The scenario *)

(** SELECT max(pk) FROM one_pk WHERE pk < opk.pk *)
Definition max_pk_below : Plan :=
  GroupBy Max (GetField 0 0)
    (Filter (LessThan (GetField 0 0) (GetField 1 0)) (ResolvedTable "one_pk")).

(** SELECT pk, (SELECT max(pk) FROM one_pk WHERE pk < opk.pk)
    FROM one_pk opk ORDER BY 1: the ordinal 1 is the first projection. *)
Definition correlated_query : Plan :=
  Sort 0 true
    (Project [GetField 0 0; Subquery max_pk_below] (ResolvedTable "one_pk")).

(** one_pk(pk), its rows in the order the storage hands them over. *)
Definition one_pk (rows : list Row) : Database := {[ "one_pk"%string := rows ]}.

Definition rows_0_to_3 : list Row := [[Some 0]; [Some 1]; [Some 2]; [Some 3]].

Definition expected_rows : list Row :=
  [[Some 0; None]; [Some 1; Some 0]; [Some 2; Some 1]; [Some 3; Some 2]].

#[local] Instance error_eq_dec : EqDecision error.
Proof. solve_decision. Defined.

(** Every storage order of the four rows is one of the listed
    permutations, so a decidable property of the order is settled by
    running it on each of them. *)
Lemma for_every_storage_order (P : list Row -> Prop) `{!forall rows, Decision (P rows)} :
  Forall P (permutations rows_0_to_3) ->
  forall rows, rows ≡ₚ rows_0_to_3 -> P rows.
Proof.
  intros Hall rows Hperm. rewrite Forall_forall in Hall. apply Hall.
  apply permutations_Permutation. symmetry. exact Hperm.
Qed.

Lemma query_on_every_order :
  Forall (fun rows => row_iter (one_pk rows) [] correlated_query = inl expected_rows)
         (permutations rows_0_to_3).
Proof. apply (bool_decide_unpack _). vm_compute. exact I. Qed.

Lemma subquery_on_every_order :
  Forall (fun rows =>
            eval (one_pk rows) [[Some 0]] (Subquery max_pk_below) = inl None /\
            eval (one_pk rows) [[Some 1]] (Subquery max_pk_below) = inl (Some 0) /\
            eval (one_pk rows) [[Some 2]] (Subquery max_pk_below) = inl (Some 1) /\
            eval (one_pk rows) [[Some 3]] (Subquery max_pk_below) = inl (Some 2))
         (permutations rows_0_to_3).
Proof. apply (bool_decide_unpack _). vm_compute. exact I. Qed.

(** C9. With one_pk(pk) holding the rows 0 to 3, in whatever order the
    storage returns them, the query
    SELECT pk,(SELECT max(pk) FROM one_pk WHERE pk<opk.pk) FROM one_pk opk ORDER BY 1
    returns exactly [[0,NULL],[1,0],[2,1],[3,2]] in that order; the
    subquery, evaluated on an outer row, yields NULL for pk 0 and pk-1 for
    the others. *)
Theorem correlated_subquery_rows (rows : list Row) :
  rows ≡ₚ rows_0_to_3 ->
  row_iter (one_pk rows) [] correlated_query = inl expected_rows /\
  eval (one_pk rows) [[Some 0]] (Subquery max_pk_below) = inl None /\
  eval (one_pk rows) [[Some 1]] (Subquery max_pk_below) = inl (Some 0) /\
  eval (one_pk rows) [[Some 2]] (Subquery max_pk_below) = inl (Some 1) /\
  eval (one_pk rows) [[Some 3]] (Subquery max_pk_below) = inl (Some 2).
Proof.
  intros Hperm. split.
  - revert rows Hperm. apply for_every_storage_order; [apply _ | exact query_on_every_order].
  - revert rows Hperm. apply for_every_storage_order; [apply _ | exact subquery_on_every_order].
Qed.

(** Applied to the rows stored in descending order. *)
Lemma correlated_subquery_rows_witness :
  row_iter (one_pk [[Some 3]; [Some 2]; [Some 1]; [Some 0]]) [] correlated_query
  = inl expected_rows.
Proof.
  apply (correlated_subquery_rows [[Some 3]; [Some 2]; [Some 1]; [Some 0]]).
  apply (bool_decide_unpack _). vm_compute. exact I.
Defined.

End Engine.

(* ===================================================================== *)
(** ** The JSON document type                                             *)
(* ===================================================================== *)
Module Json.

(** The implementation of the JSON type is not among the source files at
    hand; sql/types/json_test.go, which is, pins its behaviour by
    examples. The definitions of this module restate the design text and
    are run against the tables of that test file. *)

(** Modelled from the spec: a JSON value. An object is a map from keys to
    values; it is held as the list of its bindings in ascending key order,
    the order in which it prints ("sorted keys"). Numbers are the
    integers, which is what the examples of the design text use. *)
Inductive JSON :=
| JNull
| JBool (b : bool)
| JNumber (n : Z)
| JString (s : string)
| JArray (items : list JSON)
| JObject (fields : list (string * JSON)).

Fixpoint JSON_nested_ind (P : JSON -> Prop)
  (Hnull : P JNull)
  (Hbool : forall b, P (JBool b))
  (Hnumber : forall n, P (JNumber n))
  (Hstring : forall s, P (JString s))
  (Harray : forall items, Forall P items -> P (JArray items))
  (Hobject : forall fields, Forall (fun kv => P (snd kv)) fields -> P (JObject fields))
  (x : JSON) {struct x} : P x :=
  match x with
  | JNull => Hnull
  | JBool b => Hbool b
  | JNumber n => Hnumber n
  | JString s => Hstring s
  | JArray items =>
    Harray items
      ((fix all (l : list JSON) : Forall P l :=
          match l with
          | [] => @Stdlib.Lists.List.Forall_nil _ P
          | y :: l' =>
            @Stdlib.Lists.List.Forall_cons _ P y l'
              (JSON_nested_ind P Hnull Hbool Hnumber Hstring Harray Hobject y) (all l')
          end) items)
  | JObject fields =>
    Hobject fields
      ((fix all (l : list (string * JSON)) : Forall (fun kv => P (snd kv)) l :=
          match l with
          | [] => @Stdlib.Lists.List.Forall_nil _ (fun kv => P (snd kv))
          | kv :: l' =>
            @Stdlib.Lists.List.Forall_cons _ (fun kv => P (snd kv)) kv l'
              (JSON_nested_ind P Hnull Hbool Hnumber Hstring Harray Hobject (snd kv)) (all l')
          end) fields)
  end.

(** *** Objects as sorted binding lists *)

Fixpoint obj_lookup (k : string) (fields : list (string * JSON)) : option JSON :=
  match fields with
  | [] => None
  | (k', v) :: rest => if String.eqb k k' then Some v else obj_lookup k rest
  end.

(** Bind [k] to [v], keeping the keys in ascending order. *)
Fixpoint obj_insert (k : string) (v : JSON) (fields : list (string * JSON))
  : list (string * JSON) :=
  match fields with
  | [] => [(k, v)]
  | (k', v') :: rest =>
    match String.compare k k' with
    | Lt => (k, v) :: fields
    | Eq => (k, v) :: rest
    | Gt => (k', v') :: obj_insert k v rest
    end
  end.

Fixpoint obj_delete (k : string) (fields : list (string * JSON)) : list (string * JSON) :=
  match fields with
  | [] => []
  | (k', v') :: rest => if String.eqb k k' then rest else (k', v') :: obj_delete k rest
  end.

(** The object with the given bindings, a later binding of a key
    replacing an earlier one. *)
Definition obj_of_bindings (bindings : list (string * JSON)) : list (string * JSON) :=
  fold_left (fun acc kv => obj_insert (fst kv) (snd kv) acc) bindings [].

(** One key before another, in the byte order of [strings.Compare]. *)
Definition key_lt (k1 k2 : string) : Prop := String.compare k1 k2 = Lt.

(** Keys strictly ascending. *)
Definition keys_ascending (ks : list string) : Prop := StronglySorted key_lt ks.

(** A value in the form the model keeps: every object, at every depth,
    has its keys strictly ascending. *)
Fixpoint canonical (x : JSON) : Prop :=
  match x with
  | JArray items =>
    (fix all (l : list JSON) : Prop :=
       match l with [] => True | y :: l' => canonical y /\ all l' end) items
  | JObject fields =>
    keys_ascending (map fst fields) /\
    (fix all (l : list (string * JSON)) : Prop :=
       match l with [] => True | kv :: l' => canonical (snd kv) /\ all l' end) fields
  | _ => True
  end.

(** *** Comparison *)

(** Modelled from the spec: the type-precedence list "BOOLEAN, ARRAY,
    OBJECT, STRING, DOUBLE, NULL - highest first". *)
Definition precedence (x : JSON) : Z :=
  match x with
  | JBool _ => 5
  | JArray _ => 4
  | JObject _ => 3
  | JString _ => 2
  | JNumber _ => 1
  | JNull => 0
  end.

(** Element by element; a proper prefix comes first. *)
Fixpoint lex_compare {A : Type} (cmp : A -> A -> comparison) (xs ys : list A) : comparison :=
  match xs, ys with
  | [], [] => Eq
  | [], _ :: _ => Lt
  | _ :: _, [] => Gt
  | x :: xs', y :: ys' =>
    match cmp x y with
    | Eq => lex_compare cmp xs' ys'
    | c => c
    end
  end.

Definition key_then (cmp : JSON -> JSON -> comparison) (a b : string * JSON) : comparison :=
  match String.compare (fst a) (fst b) with
  | Eq => cmp (snd a) (snd b)
  | c => c
  end.

(** Modelled from the spec: "total order by a type-precedence list ...
    with recursive element comparison". Values of different classes
    compare as their classes do; arrays compare element by element;
    objects binding by binding in key order, the key before the value. *)
Fixpoint compare (a b : JSON) {struct a} : comparison :=
  match a, b with
  | JNull, JNull => Eq
  | JBool x, JBool y => Bool.compare x y
  | JNumber x, JNumber y => Z.compare x y
  | JString x, JString y => String.compare x y
  | JArray xs, JArray ys => lex_compare (fun x y => compare x y) xs ys
  | JObject xs, JObject ys =>
    lex_compare (fun x y => match String.compare (fst x) (fst y) with
                            | Eq => compare (snd x) (snd y)
                            | c => c
                            end) xs ys
  | _, _ => Z.compare (precedence a) (precedence b)
  end.

(** The integer the Compare method of the type returns. *)
Definition Compare (a b : JSON) : Z :=
  match compare a b with
  | Lt => -1
  | Eq => 0
  | Gt => 1
  end.

(** *** Paths and mutation *)

(** Modelled from the spec: "Path syntax supports $, .field, ."quoted",
    [n], [last], [last-n]". A path is the list of its legs after [$]. *)
Inductive PathLeg :=
| Field (name : string)
| Index (n : nat)
| Last (back : nat).

Inductive Mode := SET | INSERT | REPLACE.

(** Where an index leg lands in an array of [len] elements. *)
Inductive Position := InRange (i : nat) | Overflow | Underflow.

Definition resolve (len : nat) (leg : PathLeg) : Position :=
  match leg with
  | Index n => if Nat.ltb n len then InRange n else Overflow
  | Last back =>
    if Nat.eqb len 0 then (if Nat.eqb back 0 then Overflow else Underflow)
    else if Nat.ltb back len then InRange (len - 1 - back) else Underflow
  | Field _ => Underflow
  end.

Definition creates (mode : Mode) : bool :=
  match mode with SET | INSERT => true | REPLACE => false end.

Definition is_last_leg (rest : list PathLeg) : bool :=
  match rest with [] => true | _ => false end.

(** Modelled from the spec: "Mutations return (new_doc, changed_flag)";
    "out-of-range indices on non-arrays trigger MySQL-specified
    conversions (promote scalar/object into an array on prefix/append)".
    A value found at the end of the path is replaced by SET and REPLACE
    and kept by INSERT; a field or an array slot missing at the last leg
    is created by SET and INSERT and not by REPLACE; a document that is
    not an array answers index legs as the array of itself alone. A path
    that leads nowhere changes nothing. *)
Fixpoint mutate (mode : Mode) (val : JSON) (path : list PathLeg) (doc : JSON)
  {struct path} : JSON * bool :=
  match path with
  | [] =>
    match mode with
    | INSERT => (doc, false)
    | SET | REPLACE => (val, true)
    end
  | Field key :: rest =>
    match doc with
    | JObject fields =>
      match obj_lookup key fields with
      | Some child =>
        let '(child', changed) := mutate mode val rest child in
        if changed then (JObject (obj_insert key child' fields), true) else (doc, false)
      | None =>
        if is_last_leg rest && creates mode
        then (JObject (obj_insert key val fields), true)
        else (doc, false)
      end
    | _ => (doc, false)
    end
  | leg :: rest =>
    match doc with
    | JArray items =>
      match resolve (length items) leg with
      | InRange i =>
        match items !! i with
        | Some child =>
          let '(child', changed) := mutate mode val rest child in
          if changed then (JArray (<[i := child']> items), true) else (doc, false)
        | None => (doc, false)
        end
      | Overflow =>
        if is_last_leg rest && creates mode
        then (JArray (items ++ [val]), true)
        else (doc, false)
      | Underflow =>
        match mode, rest, items with
        | SET, [], _ :: tail => (JArray (val :: tail), true)
        | _, _, _ => (doc, false)
        end
      end
    | _ =>
      match resolve 1 leg with
      | InRange _ => mutate mode val rest doc
      | Overflow =>
        if is_last_leg rest && creates mode then (JArray [doc; val], true) else (doc, false)
      | Underflow =>
        if is_last_leg rest && creates mode then (JArray [val; doc], true) else (doc, false)
      end
    end
  end.

Definition Set_ (doc : JSON) (path : list PathLeg) (val : JSON) : JSON * bool :=
  mutate SET val path doc.
Definition Insert (doc : JSON) (path : list PathLeg) (val : JSON) : JSON * bool :=
  mutate INSERT val path doc.
Definition Replace (doc : JSON) (path : list PathLeg) (val : JSON) : JSON * bool :=
  mutate REPLACE val path doc.

(** *** Text: characters *)

Definition chars (s : string) : list ascii := list_ascii_of_string s.

Definition is_space (c : ascii) : bool :=
  Ascii.eqb c " " || Ascii.eqb c "009" || Ascii.eqb c "010" || Ascii.eqb c "013".

Definition is_digit (c : ascii) : bool :=
  (N.leb 48 (N_of_ascii c) && N.leb (N_of_ascii c) 57)%N.

Definition is_name_char (c : ascii) : bool :=
  let n := N_of_ascii c in
  (is_digit c || (N.leb 65 n && N.leb n 90) || (N.leb 97 n && N.leb n 122) || N.eqb n 95)%N.

Fixpoint skip_ws (s : list ascii) : list ascii :=
  match s with
  | c :: s' => if is_space c then skip_ws s' else s
  | [] => []
  end.

(** The longest prefix of [s] whose characters satisfy [p], and the rest. *)
Fixpoint span (p : ascii -> bool) (s : list ascii) : list ascii * list ascii :=
  match s with
  | c :: s' => if p c then let '(a, b) := span p s' in (c :: a, b) else ([], s)
  | [] => ([], [])
  end.

Definition nat_of_digits (ds : list ascii) : option nat :=
  match ds with
  | [] => None
  | _ => option_map Nat.of_uint (NilEmpty.uint_of_string (string_of_list_ascii ds))
  end.

(** *** Text: paths *)

Definition parse_index (inside : list ascii) : option PathLeg :=
  let t := filter (fun c => is_space c = false) inside in
  match t with
  | "l" :: "a" :: "s" :: "t" :: [] => Some (Last 0)
  | "l" :: "a" :: "s" :: "t" :: "-" :: ds => option_map Last (nat_of_digits ds)
  | _ => option_map Index (nat_of_digits t)
  end%char.

Fixpoint parse_legs (fuel : nat) (s : list ascii) : option (list PathLeg) :=
  match fuel with
  | O => None
  | S fuel' =>
    match s with
    | [] => Some []
    | "." :: "034" :: r =>
      let '(name, r') := span (fun c => negb (Ascii.eqb c "034")) r in
      match r' with
      | "034" :: r'' => option_map (cons (Field (string_of_list_ascii name))) (parse_legs fuel' r'')
      | _ => None
      end
    | "." :: r =>
      let '(name, r') := span is_name_char r in
      match name with
      | [] => None
      | _ => option_map (cons (Field (string_of_list_ascii name))) (parse_legs fuel' r')
      end
    | "[" :: r =>
      let '(inside, r') := span (fun c => negb (Ascii.eqb c "]")) r in
      match r', parse_index inside with
      | "]" :: r'', Some leg => option_map (cons leg) (parse_legs fuel' r'')
      | _, _ => None
      end
    | _ => None
    end
  end%char.

(** A path expression: [$] and its legs, blanks around it ignored. *)
Definition parse_path (path : string) : option (list PathLeg) :=
  match skip_ws (chars path) with
  | "$"%char :: r =>
    let legs := rev (skip_ws (rev r)) in
    parse_legs (S (length legs)) legs
  | _ => None
  end.

(** *** Text: printing *)

Fixpoint digits_of_uint (d : Decimal.uint) : list ascii :=
  match d with
  | Decimal.Nil => []
  | Decimal.D0 d => "0" :: digits_of_uint d
  | Decimal.D1 d => "1" :: digits_of_uint d
  | Decimal.D2 d => "2" :: digits_of_uint d
  | Decimal.D3 d => "3" :: digits_of_uint d
  | Decimal.D4 d => "4" :: digits_of_uint d
  | Decimal.D5 d => "5" :: digits_of_uint d
  | Decimal.D6 d => "6" :: digits_of_uint d
  | Decimal.D7 d => "7" :: digits_of_uint d
  | Decimal.D8 d => "8" :: digits_of_uint d
  | Decimal.D9 d => "9" :: digits_of_uint d
  end%char.

Definition print_number (n : Z) : list ascii :=
  match n with
  | Z0 => ["0"%char]
  | Zpos p => digits_of_uint (Pos.to_uint p)
  | Zneg p => "-"%char :: digits_of_uint (Pos.to_uint p)
  end.

Fixpoint escape (s : list ascii) : list ascii :=
  match s with
  | [] => []
  | c :: s' =>
    if Ascii.eqb c "034" || Ascii.eqb c "\" then "\"%char :: c :: escape s'
    else c :: escape s'
  end.

Definition quote (s : string) : list ascii :=
  "034"%char :: escape (chars s) ++ ["034"%char].

(** Modelled from the spec: serialization in "MySQL's printed form
    (sorted keys, ", " after commas, ": " after colons)". The bindings of
    an object are in key order already. *)
Fixpoint print (x : JSON) : list ascii :=
  match x with
  | JNull => chars "null"
  | JBool true => chars "true"
  | JBool false => chars "false"
  | JNumber n => print_number n
  | JString s => quote s
  | JArray items =>
    "["%char ::
    (fix elements (l : list JSON) : list ascii :=
       match l with
       | [] => []
       | y :: l' =>
         match l' with
         | [] => print y
         | _ :: _ => print y ++ chars ", " ++ elements l'
         end
       end) items ++ ["]"%char]
  | JObject fields =>
    "{"%char ::
    (fix members (l : list (string * JSON)) : list ascii :=
       match l with
       | [] => []
       | kv :: l' =>
         match l' with
         | [] => quote (fst kv) ++ chars ": " ++ print (snd kv)
         | _ :: _ => (quote (fst kv) ++ chars ": " ++ print (snd kv)) ++ chars ", " ++ members l'
         end
       end) fields ++ ["}"%char]
  end.

Definition serialize (x : JSON) : string := string_of_list_ascii (print x).

(** *** Text: parsing *)

(** The characters of a string literal after its opening quote, up to
    the closing one. *)
Fixpoint parse_string_body (s : list ascii) : option (list ascii * list ascii) :=
  match s with
  | [] => None
  | c :: s' =>
    if Ascii.eqb c "034" then Some ([], s')
    else if Ascii.eqb c "\" then
      match s' with
      | e :: s'' =>
        let unescaped : option ascii :=
          if Ascii.eqb e "034" || Ascii.eqb e "\" || Ascii.eqb e "/" then Some e
          else if Ascii.eqb e "n" then Some "010"%char
          else if Ascii.eqb e "t" then Some "009"%char
          else if Ascii.eqb e "r" then Some "013"%char
          else None in
        match unescaped, parse_string_body s'' with
        | Some u, Some (body, rest) => Some (u :: body, rest)
        | _, _ => None
        end
      | [] => None
      end
    else
      match parse_string_body s' with
      | Some (body, rest) => Some (c :: body, rest)
      | None => None
      end
  end.

Definition parse_digits (s : list ascii) : option (Z * list ascii) :=
  let '(ds, rest) := span is_digit s in
  match ds with
  | [] => None
  | _ =>
    match NilEmpty.uint_of_string (string_of_list_ascii ds) with
    | Some d => Some (Z.of_uint d, rest)
    | None => None
    end
  end.

Definition parse_number (s : list ascii) : option (JSON * list ascii) :=
  match s with
  | "-"%char :: s' =>
    match parse_digits s' with
    | Some (n, rest) => Some (JNumber (- n), rest)
    | None => None
    end
  | _ =>
    match parse_digits s with
    | Some (n, rest) => Some (JNumber n, rest)
    | None => None
    end
  end.

Fixpoint expect (word : list ascii) (s : list ascii) : option (list ascii) :=
  match word, s with
  | [], _ => Some s
  | w :: word', c :: s' => if Ascii.eqb w c then expect word' s' else None
  | _ :: _, [] => None
  end.

(** [s] without its first character, when that character is [c]. *)
Definition after (c : ascii) (s : list ascii) : option (list ascii) :=
  match s with
  | c' :: rest => if Ascii.eqb c' c then Some rest else None
  | [] => None
  end.

(** Modelled from the spec: parse, the reading of a JSON text. Blanks
    between tokens are skipped; the members of an object are bound in the
    order read, a later binding of a key replacing an earlier one. [fuel]
    bounds the nesting and the number of elements; the length of the text
    is always enough. *)
Fixpoint parse_value (fuel : nat) (s : list ascii) {struct fuel} : option (JSON * list ascii) :=
  match fuel with
  | O => None
  | S fuel' =>
    match skip_ws s with
    | [] => None
    | c :: r =>
      if Ascii.eqb c "n" then option_map (pair JNull) (expect (chars "ull") r)
      else if Ascii.eqb c "t" then option_map (pair (JBool true)) (expect (chars "rue") r)
      else if Ascii.eqb c "f" then option_map (pair (JBool false)) (expect (chars "alse") r)
      else if Ascii.eqb c "034" then
        match parse_string_body r with
        | Some (body, rest) => Some (JString (string_of_list_ascii body), rest)
        | None => None
        end
      else if Ascii.eqb c "[" then
        match after "]" (skip_ws r) with
        | Some rest => Some (JArray [], rest)
        | None =>
          match parse_elements fuel' r with
          | Some (items, rest) => Some (JArray items, rest)
          | None => None
          end
        end
      else if Ascii.eqb c "{" then
        match after "}" (skip_ws r) with
        | Some rest => Some (JObject [], rest)
        | None =>
          match parse_members fuel' r with
          | Some (bindings, rest) => Some (JObject (obj_of_bindings bindings), rest)
          | None => None
          end
        end
      else parse_number (c :: r)
    end
  end
with parse_elements (fuel : nat) (s : list ascii) {struct fuel}
  : option (list JSON * list ascii) :=
  match fuel with
  | O => None
  | S fuel' =>
    match parse_value fuel' s with
    | Some (x, r) =>
      match after "," (skip_ws r), after "]" (skip_ws r) with
      | Some r', _ =>
        match parse_elements fuel' r' with
        | Some (xs, rest) => Some (x :: xs, rest)
        | None => None
        end
      | None, Some rest => Some ([x], rest)
      | None, None => None
      end
    | None => None
    end
  end
with parse_members (fuel : nat) (s : list ascii) {struct fuel}
  : option (list (string * JSON) * list ascii) :=
  match fuel with
  | O => None
  | S fuel' =>
    match after "034" (skip_ws s) with
    | Some r =>
      match parse_string_body r with
      | Some (key, r1) =>
        match after ":" (skip_ws r1) with
        | Some r2 =>
          match parse_value fuel' r2 with
          | Some (x, r3) =>
            match after "," (skip_ws r3), after "}" (skip_ws r3) with
            | Some r4, _ =>
              match parse_members fuel' r4 with
              | Some (ms, rest) => Some ((string_of_list_ascii key, x) :: ms, rest)
              | None => None
              end
            | None, Some rest => Some ([(string_of_list_ascii key, x)], rest)
            | None, None => None
            end
          | None => None
          end
        | None => None
        end
      | None => None
      end
    | None => None
    end
  end.

Definition parse (text : string) : option JSON :=
  let s := chars text in
  match parse_value (length s) s with
  | Some (x, rest) => match skip_ws rest with [] => Some x | _ => None end
  | None => None
  end.

(** MustJSON of the tests; a text that does not parse reads as null. *)
Definition MustJSON (text : string) : JSON := default JNull (parse text).

(** *** The SQL functions and the test tables *)

(** JSON text written with apostrophes for the double quotes. *)
Definition json_text (s : string) : string :=
  string_of_list_ascii
    (map (fun c => if Ascii.eqb c "'" then "034"%char else c) (chars s)).

Definition mutate_text (mode : Mode) (doc path value : string) : option (JSON * bool) :=
  match parse_path (json_text path) with
  | Some legs => Some (mutate mode (MustJSON (json_text value)) legs (MustJSON (json_text doc)))
  | None => None
  end.

(** JSON_SET(doc, path, value), JSON_INSERT and JSON_REPLACE on texts. *)
Definition JSON_SET := mutate_text SET.
Definition JSON_INSERT := mutate_text INSERT.
Definition JSON_REPLACE := mutate_text REPLACE.

Definition expected_mutation (t : string * string * string * string * bool)
  : option (JSON * bool) :=
  let '(_, _, _, resultVal, changed) := t in Some (MustJSON (json_text resultVal), changed).

Definition run_mutation (mode : Mode) (t : string * string * string * string * bool)
  : option (JSON * bool) :=
  let '(doc, path, value, _, _) := t in mutate_text mode doc path value.

(** The table JsonSetTests of json_test.go: document, path, value, expected
    document, expected flag. *)
Definition JsonSetTests : list (string * string * string * string * bool) :=
  [
  ("{'a': 1, 'b': 2}", "$", "{'c': 3}", "{'c': 3}", true);
  ("{'a': 1, 'b': 2}", "   $   ", "{'c': 3}", "{'c': 3}", true);
  ("[1, 2, 3]", "$[1]", "42", "[1, 42, 3]", true);
  ("[1, 2, 3]", "$[2]", "42", "[1, 2, 42]", true);
  ("[1, 2, 3]", "$[23]", "42", "[1, 2, 3, 42]", true);
  ("[1, 2, 3]", "$[last]", "42", "[1, 2, 42]", true);
  ("[1, 2, 3]", "$[last-0]", "42", "[1, 2, 42]", true);
  ("[1, 2, 3]", "$[last-23]", "42", "[42, 2, 3]", true);
  ("[1, 2, 3]", "$[   last -    1]", "42", "[1, 42, 3]", true);
  ("[]", "$[last]", "42", "[42]", true);
  ("{'a':1}", "$[0]", "42", "42", true);
  ("{'a':1}", "$[last]", "42", "42", true);
  ("{'a':1}", "$[last-23]", "42", "[42, {'a': 1}]", true);
  ("{'a':1}", "$[51]", "42", "[{'a': 1}, 42]", true);
  ("17", "$[51]", "42", "[17, 42]", true);
  ("17", "$[0]", "42", "42", true);
  ("17", "$[last-23]", "42", "[42, 17]", true);
  ("{'a': 1}", "$.a", "42", "{'a': 42}", true);
  ("{'a': 1}", "$.b", "42", "{'a': 1, 'b': 42}", true);
  ("{'a': {}}", "$.'a'", "42", "{'a': 42 }", true);
  ("{'a': {}}", "$.'a'", "null", "{'a': null }", true);
  ("[1, 2, 3]", "$.a", "42", "[1, 2, 3]", false);
  ("[1, [2]]", "$[1][0]", "42", "[1, [42]]", true);
  ("{'a': {'b': 1}}", "$.a.b", "42", "{'a': {'b': 42}}", true);
  ("{'a': {'b': [1,2,3,4,[5,6,7]]}}", "$.a.b[4][1]", "96", "{'a': {'b': [1,2,3,4,[5,96,7]]}}", true);
  ("[9,8, {'a': [3,4,5] } ]", "$[2].a[0]", "96", "[9,8, {'a': [96,4,5]}]", true);
  ("{}", "$.a.b.c", "42", "{}", false);
  ("{}", "$.a.b[last]", "42", "{}", false);
  ("null", "$", "{'a': 42}", "{'a': 42}", true);
  ("{'a' : 1}", "$", "null", "null", true)
  ]%string.

(** The table JsonInsertTests of json_test.go: document, path, value, expected
    document, expected flag. *)
Definition JsonInsertTests : list (string * string * string * string * bool) :=
  [
  ("{'a': 1, 'b': 2}", "$", "{'c': 3}", "{'a': 1, 'b': 2}", false);
  ("{'a': 1, 'b': 2}", "   $   ", "{'c': 3}", "{'a': 1, 'b': 2}", false);
  ("[1, 2, 3]", "$[1]", "42", "[1, 2, 3]", false);
  ("[1, 2, 3]", "$[2]", "42", "[1, 2, 3]", false);
  ("[1, 2, 3]", "$[23]", "42", "[1, 2, 3, 42]", true);
  ("[1, 2, 3]", "$[last]", "42", "[1, 2, 3]", false);
  ("[]", "$[last]", "42", "[42]", true);
  ("{'a':1}", "$[0]", "42", "{'a':1}", false);
  ("{'a':1}", "$[last-23]", "42", "[42, {'a': 1}]", true);
  ("{'a':1}", "$[51]", "42", "[{'a': 1}, 42]", true);
  ("17", "$[51]", "42", "[17, 42]", true);
  ("17", "$[0]", "42", "17", false);
  ("17", "$[last-23]", "42", "[42, 17]", true);
  ("{'a': 1}", "$.a", "42", "{'a': 1}", false);
  ("{'a': 1}", "$.b", "42", "{'a': 1, 'b': 42}", true);
  ("{'a': {}}", "$.'a'", "42", "{'a': {} }", false);
  ("[1, 2, 3]", "$.a", "42", "[1, 2, 3]", false);
  ("{}", "$.a.b.c", "42", "{}", false);
  ("{}", "$.a.b[last]", "42", "{}", false)
  ]%string.

(** The table JsonReplaceTests of json_test.go: document, path, value, expected
    document, expected flag. *)
Definition JsonReplaceTests : list (string * string * string * string * bool) :=
  [
  ("{'a': 1, 'b': 2}", "$", "{'c': 3}", "{'c': 3}", true);
  ("{'a': 1, 'b': 2}", "   $   ", "{'c': 3}", "{'c': 3}", true);
  ("[1, 2, 3]", "$[1]", "42", "[1, 42, 3]", true);
  ("[1, 2, 3]", "$[2]", "42", "[1, 2, 42]", true);
  ("[1, 2, 3]", "$[23]", "42", "[1, 2, 3]", false);
  ("[1, 2, 3]", "$[last]", "42", "[1, 2, 42]", true);
  ("[1, 2, 3]", "$[last-23]", "42", "[1, 2, 3]", false);
  ("[]", "$[0]", "42", "[]", false);
  ("{'a':1}", "$[0]", "42", "42", true);
  ("{'a':1}", "$[last]", "42", "42", true);
  ("{'a':1}", "$[last-23]", "42", "{'a': 1}", false);
  ("{'a':1}", "$[51]", "42", "{'a': 1}", false);
  ("17", "$[51]", "42", "17", false);
  ("17", "$[0]", "42", "42", true);
  ("17", "$[last-23]", "42", "17", false);
  ("{'a': 1}", "$.a", "42", "{'a': 42}", true);
  ("{'a': 1}", "$.b", "42", "{'a': 1}", false)
  ]%string.

(** The table of TestJsonCompare: left, right, expected result (the two
    rows with fractional numbers are outside the integers kept here). *)
Definition JsonCompareTests : list (string * string * Z) :=
  [
  ("true", "[0]", 1);
  ("[0]", "{'a': 0}", 1);
  ("{'a': 0}", "'a'", 1);
  ("'a'", "0", 1);
  ("0", "null", 1);
  ("null", "0", (-1));
  ("0", "null", 1);
  ("null", "null", 0);
  ("true", "false", 1);
  ("true", "true", 0);
  ("false", "false", 0);
  ("'A'", "'B'", (-1));
  ("'A'", "'A'", 0);
  ("'C'", "'B'", 1);
  ("0", "-1", 1);
  ("[1,2]", "[1,2]", 0);
  ("[1,9]", "[1,2]", 1);
  ("[1,2]", "[1,2,3]", (-1));
  ("{'a': 0}", "{'a': 0}", 0);
  ("{'a': 1}", "{'a': 0}", 1);
  ("{'a': 0}", "{'a': 0, 'b': 1}", (-1));
  ("{'a': 0, 'c': 2}", "{'a': 0, 'b': 1}", 1);
  ("{'one': ['x', 'y', 'z'], 'two': { 'a': 0, 'b': 1}, 'three': false, 'four': null, 'five': ' '}",
   "{'one': ['x', 'y', 'z'], 'two': { 'a': 0, 'b': 1}, 'three': false, 'four': null, 'five': ' '}", 0);
  ("{'one': ['x', 'y'],      'two': { 'a': 0, 'b': 1}, 'three': false, 'four': null, 'five': ' '}",
   "{'one': ['x', 'y', 'z'], 'two': { 'a': 0, 'b': 1}, 'three': false, 'four': null, 'five': ' '}", (-1))
  ]%string.

(** The table JsonRoundtripTests: input text, expected printed form. *)
Definition JsonRoundtripTests : list (string * string) :=
  [
  ("{'a': 1, 'b': 2}",
   "{'a': 1, 'b': 2}");
  ("{'b': 2, 'a': 1}",
   "{'a': 1, 'b': 2}");
  ("{'a':1,'b':2}",
   "{'a': 1, 'b': 2}");
  ("{'b':2,'a':1}",
   "{'a': 1, 'b': 2}");
  ("{'b' : 2, 'a' : 1}",
   "{'a': 1, 'b': 2}");
  ("{'b' :2,'a' :1}",
   "{'a': 1, 'b': 2}");
  ("{'a':[1,2,3],'b':[4,5,6]}",
   "{'a': [1, 2, 3], 'b': [4, 5, 6]}");
  ("{'b':[4,5,6],'a':[1,2,3]}",
   "{'a': [1, 2, 3], 'b': [4, 5, 6]}");
  ("{'a':[{'a':1},{'b':2}],'b':[{'c':3},{'d':4}]}",
   "{'a': [{'a': 1}, {'b': 2}], 'b': [{'c': 3}, {'d': 4}]}");
  ("{'b':[{'c':3},{'d':4}],'a':[{'a':1},{'b':2}]}",
   "{'a': [{'a': 1}, {'b': 2}], 'b': [{'c': 3}, {'d': 4}]}");
  ("{'b' : [ { 'c' : 3 }, { 'd' : 4 } ], 'a' : [ { 'a' : 1 }, { 'b' : 2 } ] }",
   "{'a': [{'a': 1}, {'b': 2}], 'b': [{'c': 3}, {'d': 4}]}");
  ("{'a': [ { 'a' : 1 }, { 'b' : 2 } ], 'b': [ { 'c' : 3 }, { 'd' : 4 } ] }",
   "{'a': [{'a': 1}, {'b': 2}], 'b': [{'c': 3}, {'d': 4}]}")
  ]%string.

(** *** Notions used by the proofs *)

(** What it takes for [cmp] to order its first argument [x] against
    everything: reflexive, equal only to itself, antisymmetric,
    transitive. *)
Definition cmp_laws {A : Type} (cmp : A -> A -> comparison) (x : A) : Prop :=
  cmp x x = Eq /\
  (forall y, cmp x y = Eq -> x = y) /\
  (forall y, cmp y x = CompOpp (cmp x y)) /\
  (forall y z, cmp x y <> Gt -> cmp y z <> Gt ->
     cmp x z = match cmp x y, cmp y z with Eq, Eq => Eq | _, _ => Lt end).

(** A text after a number must not go on with a digit. *)
Definition terminated (rest : list ascii) : Prop :=
  match rest with
  | c :: _ => is_digit c = false
  | [] => True
  end.

(** The elements of an array and the members of an object as [print]
    lays them out. *)
Fixpoint print_elements (l : list JSON) : list ascii :=
  match l with
  | [] => []
  | y :: l' =>
    match l' with
    | [] => print y
    | _ :: _ => print y ++ chars ", " ++ print_elements l'
    end
  end.

Definition print_member (kv : string * JSON) : list ascii :=
  quote (fst kv) ++ chars ": " ++ print (snd kv).

Fixpoint print_members (l : list (string * JSON)) : list ascii :=
  match l with
  | [] => []
  | kv :: l' =>
    match l' with
    | [] => print_member kv
    | _ :: _ => print_member kv ++ chars ", " ++ print_members l'
    end
  end.

(** The first character of a printed value: never a blank, never a
    closing bracket, and it selects the right branch of the parser. *)
Definition opens_value (c : ascii) : Prop :=
  is_space c = false /\ c <> "]"%char /\ c <> "}"%char.

(** [x] reads back from its printed form, whatever follows it. *)
Definition roundtrips (x : JSON) : Prop :=
  forall fuel rest,
    (length (print x) <= fuel)%nat -> terminated rest ->
    parse_value fuel (print x ++ rest) = Some (x, rest).

(** The parts with the separator between each two. *)
Fixpoint join (sep : list ascii) (parts : list (list ascii)) : list ascii :=
  match parts with
  | [] => []
  | p :: rest =>
    match rest with
    | [] => p
    | _ :: _ => p ++ sep ++ join sep rest
    end
  end.

(** *** The comparison is a total order *)

Lemma Z_compare_laws (x : Z) : cmp_laws Z.compare x.
Proof.
  repeat split.
  - apply Z.compare_refl.
  - intros y. apply Z.compare_eq.
  - intros y. apply Z.compare_antisym.
  - intros y z Hxy Hyz.
    destruct (Z.compare_spec x y), (Z.compare_spec y z); try congruence;
      subst; first [apply Z.compare_refl | apply Z.compare_lt_iff; lia].
Qed.

Lemma bool_compare_laws (x : bool) : cmp_laws Bool.compare x.
Proof.
  repeat split.
  - destruct x; reflexivity.
  - intros []; destruct x; simpl; congruence.
  - intros []; destruct x; reflexivity.
  - intros [] []; destruct x; simpl; congruence.
Qed.

Lemma ascii_compare_laws (x : ascii) : cmp_laws Ascii.compare x.
Proof.
  unfold Ascii.compare. repeat split.
  - apply N.compare_refl.
  - intros y. apply Ascii.compare_eq_iff.
  - intros y. apply N.compare_antisym.
  - intros y z Hxy Hyz.
    destruct (N.compare_spec (N_of_ascii x) (N_of_ascii y)) as [E1|L1|G1]; [| |congruence];
      destruct (N.compare_spec (N_of_ascii y) (N_of_ascii z)) as [E2|L2|G2]; try congruence.
    + rewrite E1, E2. apply N.compare_refl.
    + apply N.compare_lt_iff. lia.
Qed.

Lemma lex_compare_laws {A : Type} (cmp : A -> A -> comparison) (xs : list A) :
  Forall (cmp_laws cmp) xs -> cmp_laws (lex_compare cmp) xs.
Proof.
  induction 1 as [|x xs (Hrefl & Heq & Hanti & Htrans) _ (IHrefl & IHeq & IHanti & IHtrans)].
  - repeat split.
    + intros [|y ys]; simpl; congruence.
    + intros [|y ys]; reflexivity.
    + intros [|y ys] [|z zs]; simpl; congruence.
  - repeat split.
    + simpl. rewrite Hrefl. exact IHrefl.
    + intros [|y ys]; simpl; [discriminate|].
      destruct (cmp x y) eqn:Hxy; try discriminate.
      intros Hl. f_equal; [apply Heq; exact Hxy | apply IHeq; exact Hl].
    + intros [|y ys]; simpl; [reflexivity|].
      rewrite Hanti. destruct (cmp x y); simpl; [apply IHanti | reflexivity | reflexivity].
    + intros [|y ys] [|z zs]; simpl; try congruence.
      * specialize (Htrans y z). specialize (IHtrans ys zs).
        destruct (cmp x y) eqn:Hxy, (cmp y z) eqn:Hyz; intros H1 H2; try congruence;
          rewrite Htrans by congruence; try reflexivity.
        -- apply IHtrans; assumption.
        -- destruct (lex_compare cmp xs ys); reflexivity.
Qed.

Lemma string_compare_laws (s : string) : cmp_laws String.compare s.
Proof.
  induction s as [|c s (IHrefl & IHeq & IHanti & IHtrans)].
  - repeat split.
    + intros [|d t]; simpl; congruence.
    + intros [|d t]; reflexivity.
    + intros [|d t] [|e u]; simpl; congruence.
  - destruct (ascii_compare_laws c) as (Hrefl & Heq & Hanti & Htrans).
    repeat split.
    + simpl. rewrite Hrefl. exact IHrefl.
    + intros [|d t]; simpl; [discriminate|].
      destruct (Ascii.compare c d) eqn:Hcd; try discriminate.
      intros Hl. f_equal; [apply Heq; exact Hcd | apply IHeq; exact Hl].
    + intros [|d t]; simpl; [reflexivity|].
      rewrite Hanti. destruct (Ascii.compare c d); simpl; [apply IHanti | reflexivity | reflexivity].
    + intros [|d t] [|e u]; simpl; try congruence.
      * specialize (Htrans d e). specialize (IHtrans t u).
        destruct (Ascii.compare c d) eqn:Hxy, (Ascii.compare d e) eqn:Hyz; intros H1 H2;
          try congruence; rewrite Htrans by congruence; try reflexivity.
        -- apply IHtrans; assumption.
        -- destruct (String.compare s t); reflexivity.
Qed.

Lemma key_then_laws (cmp : JSON -> JSON -> comparison) (kv : string * JSON) :
  cmp_laws cmp (snd kv) -> cmp_laws (key_then cmp) kv.
Proof.
  destruct kv as [k v]. simpl. intros (Hrefl & Heq & Hanti & Htrans).
  destruct (string_compare_laws k) as (Krefl & Keq & Kanti & Ktrans).
  unfold key_then. repeat split; simpl.
  - rewrite Krefl. exact Hrefl.
  - intros [k' v']; simpl. destruct (String.compare k k') eqn:Hk; try discriminate.
    intros Hv. f_equal; [apply Keq; exact Hk | apply Heq; exact Hv].
  - intros [k' v']; simpl. rewrite Kanti.
    destruct (String.compare k k'); simpl; [apply Hanti | reflexivity | reflexivity].
  - intros [k1 v1] [k2 v2]; simpl.
    specialize (Ktrans k1 k2). specialize (Htrans v1 v2).
    destruct (String.compare k k1) eqn:H1, (String.compare k1 k2) eqn:H2; intros G1 G2;
      try congruence; rewrite Ktrans by congruence; try reflexivity.
    + apply Htrans; assumption.
    + destruct (cmp v v1); reflexivity.
Qed.

Lemma compare_object (xs ys : list (string * JSON)) :
  compare (JObject xs) (JObject ys) = lex_compare (key_then compare) xs ys.
Proof. reflexivity. Qed.

Lemma compare_array (xs ys : list JSON) :
  compare (JArray xs) (JArray ys) = lex_compare compare xs ys.
Proof. reflexivity. Qed.

Ltac by_class :=
  simpl;
  repeat match goal with
         | |- context [Pos.compare ?a ?b] =>
           let r := eval vm_compute in (Pos.compare a b) in
           change (Pos.compare a b) with r
         end;
  try congruence.

Lemma compare_laws (x : JSON) : cmp_laws compare x.
Proof.
  induction x as [|b|n|s|items IH|fields IH] using JSON_nested_ind.
  - repeat split.
    + intros []; by_class.
    + intros []; reflexivity.
    + intros [] []; by_class.
  - destruct (bool_compare_laws b) as (Hrefl & Heq & Hanti & Htrans). repeat split.
    + exact Hrefl.
    + intros []; try by_class. intros Hc. f_equal. apply Heq. exact Hc.
    + intros []; try reflexivity. apply Hanti.
    + intros [] []; try by_class; try (by_class; intros; repeat case_match; congruence).
      apply Htrans.
  - destruct (Z_compare_laws n) as (Hrefl & Heq & Hanti & Htrans). repeat split.
    + exact Hrefl.
    + intros []; try by_class. intros Hc. f_equal. apply Heq. exact Hc.
    + intros []; try reflexivity. apply Hanti.
    + intros [] []; try by_class; try (by_class; intros; repeat case_match; congruence).
      apply Htrans.
  - destruct (string_compare_laws s) as (Hrefl & Heq & Hanti & Htrans). repeat split.
    + exact Hrefl.
    + intros []; try by_class. intros Hc. f_equal. apply Heq. exact Hc.
    + intros []; try reflexivity. apply Hanti.
    + intros [] []; try by_class; try (by_class; intros; repeat case_match; congruence).
      apply Htrans.
  - destruct (lex_compare_laws compare items IH) as (Hrefl & Heq & Hanti & Htrans).
    repeat split.
    + exact Hrefl.
    + intros []; rewrite ?compare_array; try by_class. intros Hc. f_equal.
      apply Heq. exact Hc.
    + intros []; try reflexivity. rewrite !compare_array. apply Hanti.
    + intros [] []; rewrite ?compare_array; try by_class;
        try (by_class; intros; repeat case_match; congruence).
      apply Htrans.
  - assert (IH' : Forall (cmp_laws (key_then compare)) fields).
    { eapply Forall_impl; [exact IH|]. intros kv. apply key_then_laws. }
    destruct (lex_compare_laws (key_then compare) fields IH') as (Hrefl & Heq & Hanti & Htrans).
    repeat split.
    + exact Hrefl.
    + intros []; rewrite ?compare_object; try by_class. intros Hc. f_equal.
      apply Heq. exact Hc.
    + intros []; try reflexivity. rewrite !compare_object. apply Hanti.
    + intros [] []; rewrite ?compare_object; try by_class;
        try (by_class; intros; repeat case_match; congruence).
      apply Htrans.
Qed.

(** Characters. *)
Lemma skip_ws_cons (c : ascii) (s : list ascii) :
  is_space c = false -> skip_ws (c :: s) = c :: s.
Proof. intros Hc. simpl. rewrite Hc. reflexivity. Qed.

Lemma parse_value_blank (fuel : nat) (s : list ascii) :
  parse_value fuel (" "%char :: s) = parse_value fuel s.
Proof. destruct fuel; reflexivity. Qed.

(** String literals. *)
Lemma parse_string_body_escape (s rest : list ascii) :
  parse_string_body (escape s ++ "034"%char :: rest) = Some (s, rest).
Proof.
  induction s as [|c s IH]; [reflexivity|].
  simpl escape.
  destruct (Ascii.eqb c "034") eqn:Hq.
  - apply Ascii.eqb_eq in Hq. subst c. simpl. simpl in IH. rewrite IH. reflexivity.
  - destruct (Ascii.eqb c "\") eqn:Hb.
    + apply Ascii.eqb_eq in Hb. subst c. simpl. simpl in IH. rewrite IH. reflexivity.
    + simpl. rewrite Hq, Hb. simpl in IH. rewrite IH. reflexivity.
Qed.

Lemma parse_quote (k : string) (rest : list ascii) :
  parse_string_body (tail (quote k) ++ rest) = Some (chars k, rest).
Proof.
  unfold quote. simpl tail. rewrite <- app_assoc. apply parse_string_body_escape.
Qed.

(** Numbers. *)
Lemma span_digits (d : uint) (rest : list ascii) :
  terminated rest -> span is_digit (digits_of_uint d ++ rest) = (digits_of_uint d, rest).
Proof.
  intros Hrest. induction d; simpl; rewrite ?IHd; try reflexivity.
  destruct rest as [|c rest]; [reflexivity|]. simpl in *. rewrite Hrest. reflexivity.
Qed.

Lemma uint_of_digits (d : uint) :
  NilEmpty.uint_of_string (string_of_list_ascii (digits_of_uint d)) = Some d.
Proof. induction d; simpl; rewrite ?IHd; reflexivity. Qed.

Lemma digits_nonempty (p : positive) : digits_of_uint (Pos.to_uint p) <> [].
Proof.
  pose proof (DecimalPos.Unsigned.to_uint_nonnil p) as Hn.
  destruct (Pos.to_uint p); simpl; congruence.
Qed.

Lemma parse_digits_pos (p : positive) (rest : list ascii) :
  terminated rest ->
  parse_digits (digits_of_uint (Pos.to_uint p) ++ rest) = Some (Z.pos p, rest).
Proof.
  intros Hrest. unfold parse_digits. rewrite (span_digits _ _ Hrest).
  pose proof (digits_nonempty p) as Hne.
  destruct (digits_of_uint (Pos.to_uint p)) eqn:Hd; [congruence|]. rewrite <- Hd.
  rewrite uint_of_digits. unfold Z.of_uint. rewrite DecimalPos.Unsigned.of_to. reflexivity.
Qed.

Lemma first_digit (p : positive) :
  exists c t, digits_of_uint (Pos.to_uint p) = c :: t /\ is_digit c = true.
Proof.
  pose proof (DecimalPos.Unsigned.to_uint_nonnil p) as Hn.
  destruct (Pos.to_uint p); simpl; try congruence; eexists _, _; split; reflexivity.
Qed.

Lemma parse_number_print (n : Z) (rest : list ascii) :
  terminated rest -> parse_number (print_number n ++ rest) = Some (JNumber n, rest).
Proof.
  intros Hrest. destruct n as [|p|p]; simpl print_number.
  - simpl. unfold parse_digits. simpl.
    destruct rest as [|c rest]; simpl in *; [reflexivity|]. rewrite Hrest. reflexivity.
  - destruct (first_digit p) as (c & t & Hd & Hc).
    unfold parse_number.
    pose proof (parse_digits_pos p rest Hrest) as Hp. rewrite Hd in *. simpl app in *.
    destruct (Ascii.eqb_spec c "-") as [->|Hne]; [discriminate Hc|].
    destruct c as [[] [] [] [] [] [] [] []]; try discriminate Hc; try (rewrite Hp; reflexivity).
  - change (parse_number (("-"%char :: digits_of_uint (Pos.to_uint p)) ++ rest))
      with (match parse_digits (digits_of_uint (Pos.to_uint p) ++ rest) with
            | Some (n, rest') => Some (JNumber (- n), rest')
            | None => None
            end).
    rewrite (parse_digits_pos p rest Hrest). reflexivity.
Qed.

(** The structure of the printed text. *)
Lemma print_array (items : list JSON) :
  print (JArray items) = "["%char :: print_elements items ++ ["]"%char].
Proof. reflexivity. Qed.

Lemma print_object (fields : list (string * JSON)) :
  print (JObject fields) = "{"%char :: print_members fields ++ ["}"%char].
Proof. reflexivity. Qed.

Lemma print_head (x : JSON) : exists c t, print x = c :: t /\ opens_value c.
Proof.
  destruct x as [|[]|n|s|items|fields]; try (eexists _, _; split; [reflexivity|]; repeat split; discriminate).
  - destruct n as [|p|p]; try (eexists _, _; split; [reflexivity|]; repeat split; discriminate).
    destruct (first_digit p) as (c & t & Hd & Hc). exists c, t. simpl. split; [exact Hd|].
    destruct c as [[] [] [] [] [] [] [] []]; try discriminate Hc; repeat split; discriminate.
Qed.

Lemma canonical_array (items : list JSON) :
  canonical (JArray items) <-> Forall canonical items.
Proof.
  induction items as [|y l IH].
  - split; [constructor | intros _; exact I].
  - change (canonical (JArray (y :: l))) with (canonical y /\ canonical (JArray l)).
    rewrite IH. rewrite Forall_cons. reflexivity.
Qed.

Lemma canonical_fields (fields : list (string * JSON)) :
  (fix all (l : list (string * JSON)) : Prop :=
     match l with [] => True | kv :: l' => canonical (snd kv) /\ all l' end) fields
  <-> Forall (fun kv => canonical (snd kv)) fields.
Proof.
  induction fields as [|kv l IH].
  - split; [constructor | intros _; exact I].
  - rewrite Forall_cons. rewrite <- IH. reflexivity.
Qed.

Lemma canonical_object (fields : list (string * JSON)) :
  canonical (JObject fields)
  <-> keys_ascending (map fst fields) /\ Forall (fun kv => canonical (snd kv)) fields.
Proof.
  change (canonical (JObject fields)) with
    (keys_ascending (map fst fields) /\
     (fix all (l : list (string * JSON)) : Prop :=
        match l with [] => True | kv :: l' => canonical (snd kv) /\ all l' end) fields).
  rewrite canonical_fields. reflexivity.
Qed.

(** One step of each parser. *)
Lemma parse_elements_S (fuel : nat) (s : list ascii) :
  parse_elements (S fuel) s =
  match parse_value fuel s with
  | Some (x, r) =>
    match after "," (skip_ws r), after "]" (skip_ws r) with
    | Some r', _ =>
      match parse_elements fuel r' with
      | Some (xs, rest) => Some (x :: xs, rest)
      | None => None
      end
    | None, Some rest => Some ([x], rest)
    | None, None => None
    end
  | None => None
  end.
Proof. reflexivity. Qed.

Lemma parse_members_S (fuel : nat) (s : list ascii) :
  parse_members (S fuel) s =
  match after "034" (skip_ws s) with
  | Some r =>
    match parse_string_body r with
    | Some (key, r1) =>
      match after ":" (skip_ws r1) with
      | Some r2 =>
        match parse_value fuel r2 with
        | Some (x, r3) =>
          match after "," (skip_ws r3), after "}" (skip_ws r3) with
          | Some r4, _ =>
            match parse_members fuel r4 with
            | Some (ms, rest) => Some ((string_of_list_ascii key, x) :: ms, rest)
            | None => None
            end
          | None, Some rest => Some ([(string_of_list_ascii key, x)], rest)
          | None, None => None
          end
        | None => None
        end
      | None => None
      end
    | None => None
    end
  | None => None
  end.
Proof. reflexivity. Qed.

Lemma parse_value_array (fuel : nat) (r : list ascii) :
  parse_value (S fuel) ("["%char :: r) =
  match after "]" (skip_ws r) with
  | Some rest => Some (JArray [], rest)
  | None =>
    match parse_elements fuel r with
    | Some (items, rest) => Some (JArray items, rest)
    | None => None
    end
  end.
Proof. reflexivity. Qed.

Lemma parse_value_object (fuel : nat) (r : list ascii) :
  parse_value (S fuel) ("{"%char :: r) =
  match after "}" (skip_ws r) with
  | Some rest => Some (JObject [], rest)
  | None =>
    match parse_members fuel r with
    | Some (bindings, rest) => Some (JObject (obj_of_bindings bindings), rest)
    | None => None
    end
  end.
Proof. reflexivity. Qed.

Lemma parse_value_string (fuel : nat) (r : list ascii) :
  parse_value (S fuel) ("034"%char :: r) =
  match parse_string_body r with
  | Some (body, rest) => Some (JString (string_of_list_ascii body), rest)
  | None => None
  end.
Proof. reflexivity. Qed.

Lemma parse_value_number (fuel : nat) (c : ascii) (r : list ascii) :
  is_digit c = true \/ c = "-"%char ->
  parse_value (S fuel) (c :: r) = parse_number (c :: r).
Proof.
  intros [Hc | ->]; [|reflexivity].
  destruct c as [[] [] [] [] [] [] [] []]; try discriminate Hc; reflexivity.
Qed.

Lemma parse_elements_blank (fuel : nat) (s : list ascii) :
  parse_elements fuel (" "%char :: s) = parse_elements fuel s.
Proof.
  destruct fuel; [reflexivity|]. rewrite !parse_elements_S, parse_value_blank. reflexivity.
Qed.

Lemma parse_members_blank (fuel : nat) (s : list ascii) :
  parse_members fuel (" "%char :: s) = parse_members fuel s.
Proof. destruct fuel; reflexivity. Qed.

Lemma after_other (c d : ascii) (s : list ascii) : d <> c -> after c (d :: s) = None.
Proof. intros Hne. simpl. destruct (Ascii.eqb_spec d c); congruence. Qed.

Lemma skip_ws_opens (c : ascii) (t : list ascii) : opens_value c -> skip_ws (c :: t) = c :: t.
Proof. intros (Hs & _). apply skip_ws_cons. exact Hs. Qed.

(** Elements and members read back. *)
Lemma parse_elements_print (items : list JSON) :
  Forall roundtrips items -> items <> [] ->
  forall fuel rest,
    (length (print_elements items) + 1 <= fuel)%nat ->
    parse_elements fuel (print_elements items ++ "]"%char :: rest) = Some (items, rest).
Proof.
  induction items as [|y l IH]; [congruence|].
  intros Hall _ fuel rest Hfuel. apply Forall_cons in Hall as [Hy Hl].
  destruct fuel as [|fuel]; [lia|]. rewrite parse_elements_S.
  destruct l as [|y' l'].
  - simpl print_elements in *. rewrite (Hy fuel ("]"%char :: rest)) by (simpl; auto; lia).
    reflexivity.
  - change (print_elements (y :: y' :: l'))
      with (print y ++ chars ", " ++ print_elements (y' :: l')) in *.
    assert (Hlen : (length (print y) + length (print_elements (y' :: l')) + 3 <= S fuel)%nat).
    { rewrite !length_app in Hfuel. change (length (chars ", ")) with 2%nat in Hfuel. lia. }
    clear Hfuel. specialize (IH Hl ltac:(congruence) fuel rest ltac:(lia)).
    remember (print_elements (y' :: l')) as pe.
    rewrite <- !app_assoc.
    rewrite (Hy fuel (chars ", " ++ pe ++ "]"%char :: rest)) by (simpl; auto; lia).
    simpl. rewrite parse_elements_blank, IH. reflexivity.
Qed.

Lemma after_colon (tl : list ascii) :
  after ":" (skip_ws (chars ": " ++ tl)) = Some (" "%char :: tl).
Proof. reflexivity. Qed.

Lemma after_comma (tl : list ascii) :
  after "," (skip_ws (chars ", " ++ tl)) = Some (" "%char :: tl).
Proof. reflexivity. Qed.

Lemma parse_members_print (fields : list (string * JSON)) :
  Forall (fun kv => roundtrips (snd kv)) fields -> fields <> [] ->
  forall fuel rest,
    (length (print_members fields) + 1 <= fuel)%nat ->
    parse_members fuel (print_members fields ++ "}"%char :: rest) = Some (fields, rest).
Proof.
  induction fields as [|[k v] l IH]; [congruence|].
  intros Hall _ fuel rest Hfuel. apply Forall_cons in Hall as [Hv Hl]. simpl in Hv.
  destruct fuel as [|fuel]; [lia|]. rewrite parse_members_S.
  assert (Hkey : forall tl, after "034" (skip_ws (print_member (k, v) ++ tl))
                            = Some (tail (quote k) ++ chars ": " ++ print v ++ tl)).
  { intros tl. unfold print_member, quote. simpl. rewrite <- !app_assoc. reflexivity. }
  destruct l as [|kv' l'].
  - simpl print_members in *. rewrite Hkey, parse_quote, after_colon, parse_value_blank.
    unfold print_member in Hfuel. cbn [fst snd] in Hfuel. rewrite !length_app in Hfuel.
    change (length (chars ": ")) with 2%nat in Hfuel.
    rewrite (Hv fuel ("}"%char :: rest)) by (simpl; auto; lia).
    simpl. unfold chars. rewrite string_of_list_ascii_of_string. reflexivity.
  - change (print_members ((k, v) :: kv' :: l'))
      with (print_member (k, v) ++ chars ", " ++ print_members (kv' :: l')) in *.
    assert (Hlen : (length (print v) + length (print_members (kv' :: l')) + 3 <= S fuel)%nat).
    { unfold print_member in Hfuel. cbn [fst snd] in Hfuel. rewrite !length_app in Hfuel.
      change (length (chars ", ")) with 2%nat in Hfuel.
      change (length (chars ": ")) with 2%nat in Hfuel. lia. }
    clear Hfuel. specialize (IH Hl ltac:(congruence) fuel rest ltac:(lia)).
    remember (print_members (kv' :: l')) as pm.
    rewrite <- !app_assoc. rewrite Hkey, parse_quote, after_colon, parse_value_blank.
    rewrite (Hv fuel (chars ", " ++ pm ++ "}"%char :: rest)) by (simpl; auto; lia).
    rewrite after_comma, parse_members_blank, IH.
    unfold chars. rewrite string_of_list_ascii_of_string. reflexivity.
Qed.


(** Objects with ascending keys. *)
Lemma key_lt_trans (a b c : string) : key_lt a b -> key_lt b c -> key_lt a c.
Proof.
  unfold key_lt. intros Hab Hbc.
  destruct (string_compare_laws a) as (_ & _ & _ & Htrans).
  rewrite (Htrans b c) by congruence. rewrite Hab. reflexivity.
Qed.

Lemma key_gt (a b : string) : key_lt a b -> String.compare b a = Gt.
Proof.
  unfold key_lt. intros Hab.
  destruct (string_compare_laws a) as (_ & _ & Hanti & _).
  rewrite Hanti, Hab. reflexivity.
Qed.

(** Binding a key above every key of the object appends the binding. *)
Lemma obj_insert_above (k : string) (v : JSON) (fields : list (string * JSON)) :
  Forall (fun kv => key_lt (fst kv) k) fields ->
  obj_insert k v fields = fields ++ [(k, v)].
Proof.
  induction 1 as [|[k' v'] l Hlt _ IH]; [reflexivity|].
  simpl in *. rewrite (key_gt _ _ Hlt), IH. reflexivity.
Qed.

Lemma obj_of_bindings_from (bindings acc : list (string * JSON)) :
  keys_ascending (map fst (acc ++ bindings)) ->
  fold_left (fun acc kv => obj_insert (fst kv) (snd kv) acc) bindings acc = acc ++ bindings.
Proof.
  revert acc. induction bindings as [|[k v] l IH]; intros acc Hasc; simpl.
  - rewrite app_nil_r. reflexivity.
  - rewrite obj_insert_above.
    + rewrite IH; rewrite <- app_assoc; [reflexivity | exact Hasc].
    + clear IH. unfold keys_ascending in Hasc. induction acc as [|[k' v'] acc IHacc];
        [constructor|].
      simpl in Hasc. apply StronglySorted_inv in Hasc as [Hrest Hhead].
      constructor; [|apply IHacc; exact Hrest].
      simpl. rewrite Stdlib.Lists.List.Forall_forall in Hhead. apply Hhead.
      rewrite map_app. apply in_or_app. right. left. reflexivity.
Qed.

Lemma obj_of_bindings_ascending (fields : list (string * JSON)) :
  keys_ascending (map fst fields) -> obj_of_bindings fields = fields.
Proof. intros Hasc. unfold obj_of_bindings. apply (obj_of_bindings_from fields []). exact Hasc. Qed.

(** Every canonical value reads back. *)
Lemma roundtrips_all (x : JSON) : canonical x -> roundtrips x.
Proof.
  induction x as [|b|n|s|items IH|fields IH] using JSON_nested_ind;
    intros Hcan fuel rest Hfuel Hrest.
  - destruct fuel; [simpl in Hfuel; lia | reflexivity].
  - destruct fuel; [destruct b; simpl in Hfuel; lia | destruct b; reflexivity].
  - destruct fuel as [|fuel].
    { destruct (print_head (JNumber n)) as (c & t & Hc & _). rewrite Hc in Hfuel.
      simpl in Hfuel. lia. }
    rewrite <- parse_number_print by exact Hrest.
    assert (Hstart : exists c t, print_number n = c :: t /\ (is_digit c = true \/ c = "-"%char)).
    { destruct n as [|p|p]; simpl.
      - eexists _, _. split; [reflexivity | left; reflexivity].
      - destruct (first_digit p) as (c & t & Hd & Hc). eauto.
      - eexists _, _. split; [reflexivity | right; reflexivity]. }
    destruct Hstart as (c & t & Hc & Hkind). simpl print. rewrite Hc. simpl app.
    apply parse_value_number. exact Hkind.
  - destruct fuel as [|fuel]; [simpl in Hfuel; lia|].
    simpl print. unfold quote. simpl app. rewrite parse_value_string.
    rewrite <- app_assoc. simpl app. rewrite parse_string_body_escape.
    unfold chars. rewrite string_of_list_ascii_of_string. reflexivity.
  - destruct fuel as [|fuel]; [simpl in Hfuel; lia|].
    apply canonical_array in Hcan.
    assert (Hall : Forall roundtrips items).
    { rewrite Stdlib.Lists.List.Forall_forall in *. intros y Hy. apply IH; [exact Hy|].
      apply Hcan. exact Hy. }
    rewrite print_array in *.
    assert (Hlen : (length (print_elements items) + 1 <= fuel)%nat).
    { simpl length in Hfuel. rewrite length_app in Hfuel. simpl length in Hfuel. lia. }
    clear Hfuel. simpl app. rewrite <- app_assoc. simpl app.
    rewrite parse_value_array.
    destruct items as [|y l]; [reflexivity|].
    assert (Hhead : exists c t, print_elements (y :: l) = c :: t /\ opens_value c).
    { destruct (print_head y) as (c & t & Hc & Hopen). simpl. destruct l.
      - eauto.
      - rewrite Hc. simpl. eauto. }
    destruct Hhead as (c & t & Hc & Hopen).
    assert (Hnot : after "]" (skip_ws (print_elements (y :: l) ++ "]"%char :: rest)) = None).
    { rewrite Hc. simpl app. rewrite (skip_ws_opens c _ Hopen).
      apply after_other, Hopen. }
    rewrite Hnot.
    rewrite parse_elements_print by (auto; try congruence; lia). reflexivity.
  - destruct fuel as [|fuel]; [simpl in Hfuel; lia|].
    apply canonical_object in Hcan as [Hasc Hcan].
    assert (Hall : Forall (fun kv => roundtrips (snd kv)) fields).
    { rewrite Stdlib.Lists.List.Forall_forall in *. intros y Hy. apply IH; [exact Hy|].
      apply Hcan. exact Hy. }
    rewrite print_object in *.
    assert (Hlen : (length (print_members fields) + 1 <= fuel)%nat).
    { simpl length in Hfuel. rewrite length_app in Hfuel. simpl length in Hfuel. lia. }
    clear Hfuel. simpl app. rewrite <- app_assoc. simpl app.
    rewrite parse_value_object.
    destruct fields as [|kv l]; [reflexivity|].
    assert (Hhead : exists t, print_members (kv :: l) = "034"%char :: t).
    { simpl. destruct l; unfold print_member, quote; simpl; eauto. }
    destruct Hhead as (t & Hc).
    assert (Hnot : after "}" (skip_ws (print_members (kv :: l) ++ "}"%char :: rest)) = None).
    { rewrite Hc. reflexivity. }
    rewrite Hnot.
    rewrite parse_members_print by (auto; try congruence; lia).
    rewrite obj_of_bindings_ascending by exact Hasc. reflexivity.
Qed.

Lemma parse_serialize (x : JSON) : canonical x -> parse (serialize x) = Some x.
Proof.
  intros Hcan. unfold parse, serialize, chars.
  rewrite list_ascii_of_string_of_list_ascii.
  pose proof (roundtrips_all x Hcan (length (print x)) [] (le_n _) I) as Hr.
  rewrite app_nil_r in Hr. rewrite Hr. reflexivity.
Qed.

(** What the parser builds is canonical. *)
Lemma obj_insert_keys_above (a k : string) (v : JSON) (fields : list (string * JSON)) :
  key_lt a k -> Forall (key_lt a) (map fst fields) ->
  Forall (key_lt a) (map fst (obj_insert k v fields)).
Proof.
  intros Hak. induction fields as [|[k' v'] l IH]; simpl; intros Hall.
  - constructor; [exact Hak | constructor].
  - apply Forall_cons in Hall as [Hk' Hl].
    destruct (String.compare k k'); simpl.
    + constructor; assumption.
    + constructor; [exact Hak|]. constructor; assumption.
    + constructor; [exact Hk' | apply IH; exact Hl].
Qed.

Lemma obj_insert_ascending (k : string) (v : JSON) (fields : list (string * JSON)) :
  keys_ascending (map fst fields) -> keys_ascending (map fst (obj_insert k v fields)).
Proof.
  unfold keys_ascending.
  induction fields as [|[k' v'] l IH]; simpl; intros Hasc.
  - constructor; constructor.
  - apply StronglySorted_inv in Hasc as [Hrest Hhead].
    destruct (String.compare k k') eqn:Hc; simpl.
    + apply String.compare_eq_iff in Hc. subst k'. constructor; assumption.
    + constructor; [constructor; assumption|].
      constructor; [exact Hc|].
      eapply Forall_impl; [exact Hhead|]. intros b Hb. simpl in Hb.
      eapply key_lt_trans; [exact Hc | exact Hb].
    + constructor; [apply IH; exact Hrest|].
      apply obj_insert_keys_above; [|exact Hhead].
      unfold key_lt. destruct (string_compare_laws k) as (_ & _ & Hanti & _).
      rewrite Hanti, Hc. reflexivity.
Qed.

Lemma obj_insert_values (P : JSON -> Prop) (k : string) (v : JSON)
  (fields : list (string * JSON)) :
  P v -> Forall (fun kv => P (snd kv)) fields ->
  Forall (fun kv => P (snd kv)) (obj_insert k v fields).
Proof.
  intros Hv. induction 1 as [|[k' v'] l Hkv Hl IH]; simpl.
  - constructor; [exact Hv | constructor].
  - destruct (String.compare k k').
    + constructor; assumption.
    + constructor; [exact Hv|]. constructor; assumption.
    + constructor; assumption.
Qed.

Lemma obj_of_bindings_canonical (bindings : list (string * JSON)) :
  Forall (fun kv => canonical (snd kv)) bindings ->
  canonical (JObject (obj_of_bindings bindings)).
Proof.
  intros Hall. apply canonical_object. unfold obj_of_bindings.
  assert (Hgen : forall acc,
            keys_ascending (map fst acc) /\ Forall (fun kv => canonical (snd kv)) acc ->
            let r := fold_left (fun acc kv => obj_insert (fst kv) (snd kv) acc) bindings acc in
            keys_ascending (map fst r) /\ Forall (fun kv => canonical (snd kv)) r).
  { induction Hall as [|[k v] l Hv Hl IH]; intros acc [Hasc Hcan]; simpl.
    - split; assumption.
    - apply IH. split; [apply obj_insert_ascending; exact Hasc|].
      apply obj_insert_values; assumption. }
  apply (Hgen []). split; constructor.
Qed.

Lemma parse_value_S (fuel : nat) (s : list ascii) :
  parse_value (S fuel) s =
  match skip_ws s with
  | [] => None
  | c :: r =>
    if Ascii.eqb c "n" then option_map (pair JNull) (expect (chars "ull") r)
    else if Ascii.eqb c "t" then option_map (pair (JBool true)) (expect (chars "rue") r)
    else if Ascii.eqb c "f" then option_map (pair (JBool false)) (expect (chars "alse") r)
    else if Ascii.eqb c "034" then
      match parse_string_body r with
      | Some (body, rest) => Some (JString (string_of_list_ascii body), rest)
      | None => None
      end
    else if Ascii.eqb c "[" then
      match after "]" (skip_ws r) with
      | Some rest => Some (JArray [], rest)
      | None =>
        match parse_elements fuel r with
        | Some (items, rest) => Some (JArray items, rest)
        | None => None
        end
      end
    else if Ascii.eqb c "{" then
      match after "}" (skip_ws r) with
      | Some rest => Some (JObject [], rest)
      | None =>
        match parse_members fuel r with
        | Some (bindings, rest) => Some (JObject (obj_of_bindings bindings), rest)
        | None => None
        end
      end
    else parse_number (c :: r)
  end.
Proof. reflexivity. Qed.

Lemma parse_number_canonical (s : list ascii) (x : JSON) (r : list ascii) :
  parse_number s = Some (x, r) -> canonical x.
Proof.
  unfold parse_number. intros Hp.
  repeat case_match; simplify_eq; exact I.
Qed.

Lemma parse_canonical_fuel (fuel : nat) :
  (forall s x r, parse_value fuel s = Some (x, r) -> canonical x) /\
  (forall s xs r, parse_elements fuel s = Some (xs, r) -> Forall canonical xs) /\
  (forall s ms r, parse_members fuel s = Some (ms, r) ->
     Forall (fun kv => canonical (snd kv)) ms).
Proof.
  induction fuel as [|fuel (IHv & IHe & IHm)].
  - repeat split; intros; discriminate.
  - repeat split.
    + intros s x r. rewrite parse_value_S. intros Hp.
      destruct (skip_ws s) as [|c t]; [discriminate|].
      unfold option_map in Hp.
      repeat case_match; simplify_eq;
        first [ exact I
              | split; [constructor | exact I]
              | apply canonical_array; eapply IHe; eassumption
              | apply obj_of_bindings_canonical; eapply IHm; eassumption
              | eapply parse_number_canonical; eassumption ].
    + intros s xs r. rewrite parse_elements_S. intros Hp.
      repeat case_match; simplify_eq.
      * constructor; [eapply IHv | eapply IHe]; eassumption.
      * constructor; [eapply IHv; eassumption | constructor].
    + intros s ms r. rewrite parse_members_S. intros Hp.
      repeat case_match; simplify_eq.
      * constructor; [simpl; eapply IHv | eapply IHm]; eassumption.
      * constructor; [simpl; eapply IHv; eassumption | constructor].
Qed.

Lemma parse_canonical (text : string) (x : JSON) : parse text = Some x -> canonical x.
Proof.
  unfold parse. intros Hp.
  destruct (parse_value _ _) as [[y r]|] eqn:Hv; [|discriminate].
  destruct (skip_ws r); [|discriminate]. injection Hp as <-.
  eapply (proj1 (parse_canonical_fuel _)). exact Hv.
Qed.

(** The printed form. *)
Lemma print_elements_join (items : list JSON) :
  print_elements items = join (chars ", ") (map print items).
Proof.
  induction items as [|y [|y' l] IH]; try reflexivity.
  change (print_elements (y :: y' :: l)) with (print y ++ chars ", " ++ print_elements (y' :: l)).
  rewrite IH. reflexivity.
Qed.

Lemma print_members_join (fields : list (string * JSON)) :
  print_members fields = join (chars ", ") (map print_member fields).
Proof.
  induction fields as [|y [|y' l] IH]; try reflexivity.
  change (print_members (y :: y' :: l))
    with (print_member y ++ chars ", " ++ print_members (y' :: l)).
  rewrite IH. reflexivity.
Qed.

(** *** Mutation of a top-level field *)
Lemma obj_lookup_insert (k : string) (v : JSON) (fields : list (string * JSON)) :
  obj_lookup k (obj_insert k v fields) = Some v.
Proof.
  induction fields as [|[k' v'] l IH]; simpl.
  - rewrite String.eqb_refl. reflexivity.
  - destruct (String.compare k k') eqn:Hc; simpl.
    + rewrite String.eqb_refl. reflexivity.
    + rewrite String.eqb_refl. reflexivity.
    + destruct (String.eqb_spec k k') as [->|Hne]; [|exact IH].
      destruct (string_compare_laws k') as (Hrefl & _). congruence.
Qed.

Lemma obj_lookup_insert_other (k g : string) (v : JSON) (fields : list (string * JSON)) :
  g <> k -> obj_lookup g (obj_insert k v fields) = obj_lookup g fields.
Proof.
  intros Hne. induction fields as [|[k' v'] l IH]; simpl.
  - destruct (String.eqb_spec g k); [contradiction | reflexivity].
  - destruct (String.compare k k') eqn:Hc; simpl.
    + apply String.compare_eq_iff in Hc. subst k'.
      destruct (String.eqb_spec g k); [contradiction | reflexivity].
    + destruct (String.eqb_spec g k); [contradiction | reflexivity].
    + rewrite IH. reflexivity.
Qed.

(** *** Properties of the JSON type *)

Lemma compare_by_precedence (x y : JSON) :
  precedence x <> precedence y ->
  compare x y = Z.compare (precedence x) (precedence y).
Proof. destruct x, y; simpl; intros Hne; try reflexivity; congruence. Qed.

Lemma Compare_le (x y : JSON) : Compare x y <= 0 <-> compare x y <> Gt.
Proof. unfold Compare. destruct (compare x y); split; intros; try lia; congruence. Qed.



Example JsonCompareTests_pass :
  map (fun t => Compare (MustJSON (json_text (fst (fst t)))) (MustJSON (json_text (snd (fst t)))))
      JsonCompareTests
  = map snd JsonCompareTests.
Proof. vm_compute. reflexivity. Qed.



Example JsonRoundtripTests_pass :
  map (fun t => option_map serialize (parse (json_text (fst t)))) JsonRoundtripTests
  = map (fun t => Some (json_text (snd t))) JsonRoundtripTests.
Proof. vm_compute. reflexivity. Qed.

(** C6. On an object document and a top-level field path $.f: Set binds f
    to the new value and reports a change, whether or not f was present;
    Insert binds f only when it is absent, and returns the document
    unchanged, with no change reported, when f exists; Replace rebinds f
    only when it is present, and returns the document unchanged, with no
    change reported, when f is absent. A binding made is the only
    difference to the document. In particular
    JSON_SET('{"a":1}','$.b',42) is {"a":1,"b":42},
    JSON_INSERT('{"a":1}','$.a',42) is {"a":1} unchanged, and
    JSON_REPLACE('{"a":1}','$.b',42) is {"a":1} unchanged. *)
Theorem mutation_of_top_level_field (fields : list (string * JSON)) (f : string) (v : JSON) :
  Set_ (JObject fields) [Field f] v = (JObject (obj_insert f v fields), true) /\
  Insert (JObject fields) [Field f] v
  = match obj_lookup f fields with
    | Some _ => (JObject fields, false)
    | None => (JObject (obj_insert f v fields), true)
    end /\
  Replace (JObject fields) [Field f] v
  = match obj_lookup f fields with
    | Some _ => (JObject (obj_insert f v fields), true)
    | None => (JObject fields, false)
    end /\
  obj_lookup f (obj_insert f v fields) = Some v /\
  (forall g, g <> f -> obj_lookup g (obj_insert f v fields) = obj_lookup g fields) /\
  JSON_SET "{'a':1}" "$.b" "42" = Some (MustJSON (json_text "{'a':1,'b':42}"), true) /\
  JSON_INSERT "{'a':1}" "$.a" "42" = Some (MustJSON (json_text "{'a':1}"), false) /\
  JSON_REPLACE "{'a':1}" "$.b" "42" = Some (MustJSON (json_text "{'a':1}"), false).
Proof.
  split; [|split; [|split; [|split; [|split]]]].
  - unfold Set_. simpl. destruct (obj_lookup f fields); reflexivity.
  - unfold Insert. simpl. destruct (obj_lookup f fields); reflexivity.
  - unfold Replace. simpl. destruct (obj_lookup f fields); reflexivity.
  - apply obj_lookup_insert.
  - intros g Hne. apply obj_lookup_insert_other. exact Hne.
  - repeat split; vm_compute; reflexivity.
Qed.

(** Applied to the document {"a": 1}, the field b and the value 42: the
    field a is left as it was. *)
Lemma mutation_of_top_level_field_witness :
  obj_lookup "a" (obj_insert "b" (JNumber 42) [("a"%string, JNumber 1)])
  = obj_lookup "a" [("a"%string, JNumber 1)].
Proof.
  destruct (mutation_of_top_level_field [("a"%string, JNumber 1)] "b" (JNumber 42))
    as (_ & _ & _ & _ & Hother & _).
  apply (Hother "a"%string). discriminate.
Defined.

Example JsonSetTests_pass :
  map (run_mutation SET) JsonSetTests = map expected_mutation JsonSetTests.
Proof. vm_compute. reflexivity. Qed.

Example JsonInsertTests_pass :
  map (run_mutation INSERT) JsonInsertTests = map expected_mutation JsonInsertTests.
Proof. vm_compute. reflexivity. Qed.

Example JsonReplaceTests_pass :
  map (run_mutation REPLACE) JsonReplaceTests = map expected_mutation JsonReplaceTests.
Proof. vm_compute. reflexivity. Qed.

End Json.
